(** * vox_nav: the AIT*-style kinodynamic planner (AITStarKin) and the
      SE2 control-space planner plugin

    A shallow embedding of
    - [vox_nav_planning/experimental/AITStarKin.hpp]: the vertex property,
      the two heuristics, the goal visitor, [computeShortestPath] and
      [populateOmplPathfromVertexPath];
    - [SE2PlannerControlSpace::propagate];
    together with models of the Boost Graph Library searches the header
    calls, and of the planner functions whose bodies are in the planner's
    [.cpp] file (graph expansion and the best-path record).

    Numbers.  A C++ [double] that carries a graph cost is modelled by
    [double] below: an exact rational, or one of the two sentinels the code
    uses ([std::numeric_limits<double>::max()], Boost's default
    [distance_inf], and IEEE [+infinity], OMPL's [infiniteCost()]).
    Rounding, NaN and negative infinity are not modelled. *)

From Stdlib Require Import Reals Lra QArith Qabs Lqa Sorted.
From stdpp Require Import base list gmap strings.

(* ------------------------------------------------------------------ *)
(** ** Costs *)

Inductive double : Type :=
  | Fin (q : Q)      (* a finite value *)
  | DblMax           (* std::numeric_limits<double>::max() *)
  | PosInf.          (* std::numeric_limits<double>::infinity() *)

Definition Qltb (a b : Q) : bool := negb (Qle_bool b a).

(** [std::less<double>], the default [distance_compare]. *)
Definition less (a b : double) : bool :=
  match a, b with
  | Fin x, Fin y => Qltb x y
  | Fin _, _ => true
  | DblMax, PosInf => true
  | _, _ => false
  end.

(** [boost::closed_plus<double>(inf)] with [inf = DblMax], the default
    [distance_combine]:
    [if (a == inf) return inf; if (b == inf) return inf; return a + b;] *)
Definition closed_plus (a b : double) : double :=
  match a, b with
  | DblMax, _ => DblMax
  | _, DblMax => DblMax
  | PosInf, _ => PosInf
  | _, PosInf => PosInf
  | Fin x, Fin y => Fin (x + y)
  end.

Definition zero : double := Fin 0.

(** [opt_->infiniteCost().value()]: OMPL's [OptimizationObjective]
    returns [Cost(std::numeric_limits<double>::infinity())]. *)
Definition infiniteCost : double := PosInf.

#[global] Instance double_inhabited : Inhabited double := populate DblMax.

(** What a call of a planner function does. *)
Inductive outcome (A : Type) : Type :=
  | Returns (a : A)
  | Throws            (* an exception other than [FoundVertex] escapes *)
  | Diverges.         (* the model's step budget ran out *)
Arguments Returns {A} a.
Arguments Throws {A}.
Arguments Diverges {A}.

(* ------------------------------------------------------------------ *)
(** ** [SE2PlannerControlSpace::propagate]

    The states the control-space planner works on are compound: an SE2
    part and a one-dimensional velocity vector.  The numbers of this
    function are real numbers. *)

Record CompoundState : Type := mkCompoundState {
  getX : R;
  getY : R;
  getYaw : R;
  velocity : R           (* component 1, [values[0]] *)
}.

(** [RealVectorControlSpace::ControlType]: [values[0]] is the
    acceleration and [values[1]] the steering angle. *)
Record ControlType : Type := mkControlType { ctrl_values : list R }.

Definition vehicle_length : R := 1.32%R.

(** *** OMPL states in memory

    [propagate] reaches the numbers of its two states through casts, and
    not through the same casts for both, so what it does is told on the
    words of the objects.  Every OMPL state class has a virtual
    destructor and one data member: [State **components] in
    [CompoundState], [double *values] in
    [RealVectorStateSpace::StateType], [double value] in
    [SO2StateSpace::StateType].  In the object layout of the usual 64-bit
    ABI that member is the word after the vtable pointer in all three,
    and a pointer and a double take one word each.  [as<T>()] is a
    [static_cast]: the address stays, the type the word is read at
    changes. *)

Inductive word : Type :=
  | Ptr (a : nat)       (* the address of a block *)
  | Dbl (r : R).        (* a double *)

(** A block is the member word of an object, or an array.  [Memory] maps
    the address of a block to its words. *)
Abbreviation Memory := (gmap nat (list word)).

(** Reading word [i] of the block at [a] as a pointer, or as a double.
    [None] is undefined behaviour: no such word, a word holding a double
    used as an address, or the bits of a pointer read as a double. *)
Definition load_ptr (mem : Memory) (a i : nat) : option nat :=
  match mem !! a with
  | Some ws => match ws !! i with Some (Ptr b) => Some b | _ => None end
  | None => None
  end.

Definition load_dbl (mem : Memory) (a i : nat) : option R :=
  match mem !! a with
  | Some ws => match ws !! i with Some (Dbl r) => Some r | _ => None end
  | None => None
  end.

(** Writing a double to word [i] of the block at [a], whatever the word
    held. *)
Definition store_dbl (mem : Memory) (a i : nat) (r : R) : option Memory :=
  match mem !! a with
  | Some ws =>
      if decide (i < length ws) then Some (<[a := <[i := Dbl r]> ws]> mem)
      else None
  | None => None
  end.

(** [CompoundState::as<T>(index)]: [static_cast<T *>(components[index])]. *)
Definition component (mem : Memory) (st index : nat) : option nat :=
  match load_ptr mem st 0 with
  | Some components => load_ptr mem components index
  | None => None
  end.

(** [values[k]] of a [RealVectorStateSpace::StateType], read and
    written. *)
Definition values_get (mem : Memory) (rv k : nat) : option R :=
  match load_ptr mem rv 0 with
  | Some values => load_dbl mem values k
  | None => None
  end.

Definition values_set (mem : Memory) (rv k : nat) (r : R) : option Memory :=
  match load_ptr mem rv 0 with
  | Some values => store_dbl mem values k r
  | None => None
  end.

(** The accessors of [SE2StateSpace::StateType], a compound state of a
    real vector of dimension 2 and an [SO2] state:
    [getX() = as<RealVectorStateSpace::StateType>(0)->values[0]],
    [getYaw() = as<SO2StateSpace::StateType>(1)->value], and the setters
    alike; [setXY] is [setX] followed by [setY]. *)
Definition SE2_getX (mem : Memory) (se2 : nat) : option R :=
  match component mem se2 0 with Some rv => values_get mem rv 0 | None => None end.

Definition SE2_getY (mem : Memory) (se2 : nat) : option R :=
  match component mem se2 0 with Some rv => values_get mem rv 1 | None => None end.

Definition SE2_getYaw (mem : Memory) (se2 : nat) : option R :=
  match component mem se2 1 with Some so2 => load_dbl mem so2 0 | None => None end.

Definition SE2_setX (mem : Memory) (se2 : nat) (x : R) : option Memory :=
  match component mem se2 0 with Some rv => values_set mem rv 0 x | None => None end.

Definition SE2_setY (mem : Memory) (se2 : nat) (y : R) : option Memory :=
  match component mem se2 0 with Some rv => values_set mem rv 1 y | None => None end.

Definition SE2_setXY (mem : Memory) (se2 : nat) (x y : R) : option Memory :=
  match SE2_setX mem se2 x with Some mem1 => SE2_setY mem1 se2 y | None => None end.

Definition SE2_setYaw (mem : Memory) (se2 : nat) (yaw : R) : option Memory :=
  match component mem se2 1 with Some so2 => store_dbl mem so2 0 yaw | None => None end.

(** [propagate(start, control, duration, result)].  The start state is
    read as a compound state of an SE2 state (component 0) and a velocity
    vector (component 1).  The result state is not: [result] itself is
    cast to [SE2StateSpace::StateType] and handed to [setXY] and
    [setYaw]. *)
Definition propagate (start : nat) (control : ControlType) (duration : R)
    (result : nat) (mem : Memory) : option Memory :=
  match component mem start 0, component mem start 1 with
  | Some se2state, Some v_state =>
      let acc := nth 0 (ctrl_values control) 0%R in
      let steer_angle := nth 1 (ctrl_values control) 0%R in
      match values_get mem v_state 0, SE2_getX mem se2state,
            SE2_getY mem se2state, SE2_getYaw mem se2state with
      | Some velocity0, Some x, Some y, Some yaw =>
          let x_n := (x + velocity0 * duration * cos yaw)%R in
          let y_n := (y + velocity0 * duration * sin yaw)%R in
          let velocity_n := (velocity0 + acc * duration)%R in
          let lengthInv := (1 / vehicle_length)%R in
          let omega := (velocity0 * lengthInv * tan steer_angle)%R in
          let theta_n := (yaw + omega * duration)%R in
          match SE2_setXY mem result x_n y_n with
          | Some mem1 =>
              match SE2_setYaw mem1 result theta_n with
              | Some mem2 => values_set mem2 v_state 0 velocity_n
              | None => None
              end
          | None => None
          end
      | _, _, _, _ => None
      end
  | _, _ => None
  end.

(** Reading a state the way [propagate] reads its start state. *)
Definition read_state (mem : Memory) (p : nat) : option CompoundState :=
  match component mem p 0, component mem p 1 with
  | Some se2state, Some v_state =>
      match SE2_getX mem se2state, SE2_getY mem se2state,
            SE2_getYaw mem se2state, values_get mem v_state 0 with
      | Some x, Some y, Some yaw, Some v => Some (mkCompoundState x y yaw v)
      | _, _, _, _ => None
      end
  | _, _ => None
  end.

(** The bicycle-model update of the position, yaw and velocity of a state
    over [duration] under a control. *)
Definition bicycle_x (s : CompoundState) (duration : R) : R :=
  (getX s + velocity s * duration * cos (getYaw s))%R.

Definition bicycle_y (s : CompoundState) (duration : R) : R :=
  (getY s + velocity s * duration * sin (getYaw s))%R.

Definition bicycle_yaw (s : CompoundState) (c : ControlType) (duration : R) : R :=
  (getYaw s
   + velocity s * (1 / vehicle_length) * tan (nth 1 (ctrl_values c) 0%R) * duration)%R.

Definition bicycle_velocity (s : CompoundState) (c : ControlType) (duration : R) : R :=
  (velocity s + nth 0 (ctrl_values c) 0%R * duration)%R.

(** Where the nine blocks of a state of the planner's space are: what
    [composite_space_->allocState()] allocates, the space being the SE2
    space plus the velocity space. *)
Record CompoundLayout : Type := mkCompoundLayout {
  at_state : nat;               (* the compound state *)
  at_components : nat;          (* its array of two components *)
  at_se2 : nat;                 (* component 0, the SE2 state *)
  at_se2_components : nat;      (* the array of its two components *)
  at_xy : nat;                  (* the real vector of dimension 2 *)
  at_xy_values : nat;           (* its array of two doubles *)
  at_yaw : nat;                 (* the SO2 state *)
  at_velocity : nat;            (* component 1, the velocity vector *)
  at_velocity_values : nat      (* its array of one double *)
}.

Definition addresses (L : CompoundLayout) : list nat :=
  [at_state L; at_components L; at_se2 L; at_se2_components L; at_xy L;
   at_xy_values L; at_yaw L; at_velocity L; at_velocity_values L].

(** The memory holds the state [s] in the blocks of [L]. *)
Definition allocated (mem : Memory) (L : CompoundLayout) (s : CompoundState)
    : Prop :=
  mem !! at_state L = Some [Ptr (at_components L)] /\
  mem !! at_components L = Some [Ptr (at_se2 L); Ptr (at_velocity L)] /\
  mem !! at_se2 L = Some [Ptr (at_se2_components L)] /\
  mem !! at_se2_components L = Some [Ptr (at_xy L); Ptr (at_yaw L)] /\
  mem !! at_xy L = Some [Ptr (at_xy_values L)] /\
  mem !! at_xy_values L = Some [Dbl (getX s); Dbl (getY s)] /\
  mem !! at_yaw L = Some [Dbl (getYaw s)] /\
  mem !! at_velocity L = Some [Ptr (at_velocity_values L)] /\
  mem !! at_velocity_values L = Some [Dbl (velocity s)].

(** The layout with its blocks at nine consecutive addresses, and the
    allocation of a state there. *)
Definition layout_at (b : nat) : CompoundLayout :=
  mkCompoundLayout b (b + 1) (b + 2) (b + 3) (b + 4) (b + 5) (b + 6) (b + 7) (b + 8).

Definition allocState (b : nat) (s : CompoundState) (mem : Memory) : Memory :=
  let L := layout_at b in
  <[at_state L := [Ptr (at_components L)]]>
  (<[at_components L := [Ptr (at_se2 L); Ptr (at_velocity L)]]>
  (<[at_se2 L := [Ptr (at_se2_components L)]]>
  (<[at_se2_components L := [Ptr (at_xy L); Ptr (at_yaw L)]]>
  (<[at_xy L := [Ptr (at_xy_values L)]]>
  (<[at_xy_values L := [Dbl (getX s); Dbl (getY s)]]>
  (<[at_yaw L := [Dbl (getYaw s)]]>
  (<[at_velocity L := [Ptr (at_velocity_values L)]]>
  (<[at_velocity_values L := [Dbl (velocity s)]]> mem)))))))).

(** A vertex descriptor of a [vecS] graph is an index. *)
Abbreviation vertex_descriptor := nat (only parsing).

(** A [Control *] is an address in the control heap; [nullptr] is [None].
    The storage behind it: [allocControl] hands out fresh storage and does
    not initialise it. *)
Abbreviation ControlPtr := nat (only parsing).

Inductive cell (Control : Type) : Type :=
  | Uninit
  | Init (c : Control).
Arguments Uninit {Control}.
Arguments Init {Control} c.

Abbreviation ControlHeap Control := (list (cell Control)).

(* ------------------------------------------------------------------ *)
(** ** The graph *)

Section Planner.

(** [ompl::base::State] and the contents of an [ompl::control::Control]
    are opaque to the planner. *)
Context {State Control : Type}.

(** The collaborators of section 6 of the specification. *)
Variable isValid : State -> bool.                 (* si_->isValid *)
Variable motionCost : State -> State -> double.   (* opt_->motionCost(..).value() *)
Variable propagationStepSize : Q.                 (* siC_->getPropagationStepSize() *)

Record VertexProperty : Type := mkVertexProperty {
  state : State;
  control : option ControlPtr;     (* {nullptr} *)
  control_duration : nat;          (* unsigned int, {0} *)
  id : nat;                        (* std::size_t, {0} *)
  g : double;                      (* {1.0e+3} *)
  blacklisted : bool               (* {false} *)
}.

(** A freshly constructed [VertexProperty] holding state [s]. *)
Definition defaultVertexProperty (s : State) : VertexProperty :=
  mkVertexProperty s None 0 0 (Fin 1000) false.

(** [boost::adjacency_list<setS, vecS, undirectedS, VertexProperty,
    property<edge_weight_t, double>>]: the vertices are a vector indexed by
    descriptor; an undirected edge is stored once, with one weight shared
    by both end points, and [setS] forbids parallel edges.  The edge
    between [u] and [v] is keyed by the ordered pair.  A [WeightMap] is a
    handle on these weights: [weightmap[e]] reads and writes the weight
    stored with [e]. *)
Record GraphT : Type := mkGraph {
  vertices : list VertexProperty;
  weightmap : gmap (nat * nat) double
}.

Definition num_vertices (gr : GraphT) : nat := length (vertices gr).

Definition edge_key (u v : nat) : nat * nat := (Nat.min u v, Nat.max u v).

(** [boost::edge(u, v, g)] followed by a read of its weight. *)
Definition edge_weight (gr : GraphT) (u v : nat) : option double :=
  weightmap gr !! edge_key u v.

(** Targets of [boost::out_edges(u, g)]; a [std::set] of out-edges is
    iterated by increasing target. *)
Definition out_edges (gr : GraphT) (u : nat) : list nat :=
  filter (fun v => is_Some (edge_weight gr u v)) (seq 0 (num_vertices gr)).

Definition set_weight (gr : GraphT) (u v : nat) (w : double) : GraphT :=
  mkGraph (vertices gr) (<[edge_key u v := w]> (weightmap gr)).

Definition update_vertex (gr : GraphT) (i : nat)
    (f : VertexProperty -> VertexProperty) : GraphT :=
  mkGraph (alter f i (vertices gr)) (weightmap gr).

Definition set_blacklisted (b : bool) (vp : VertexProperty) : VertexProperty :=
  mkVertexProperty (state vp) (control vp) (control_duration vp) (id vp) (g vp) b.

Definition set_g (x : double) (vp : VertexProperty) : VertexProperty :=
  mkVertexProperty (state vp) (control vp) (control_duration vp) (id vp) x
    (blacklisted vp).

Definition set_control (c : option ControlPtr) (vp : VertexProperty)
    : VertexProperty :=
  mkVertexProperty (state vp) c (control_duration vp) (id vp) (g vp)
    (blacklisted vp).

(* ------------------------------------------------------------------ *)
(** ** Heuristics and the goal visitor *)

(** A heuristic object is called on a vertex and may write to the graph it
    looks at (the planner's graph of the thread, taken here to be the graph
    being searched). *)
Definition Heuristic := GraphT -> vertex_descriptor -> double * GraphT.

(** [GenericDistanceHeuristic::operator()]: the motion cost to the goal
    state; both branches on [control_] compute the same function of the
    graph they read. *)
Definition GenericDistanceHeuristic (goal_state : State) : Heuristic :=
  fun gr i =>
    match vertices gr !! i with
    | Some vp => (motionCost (state vp) goal_state, gr)
    | None => (DblMax, gr)
    end.

(** [PrecomputedCostHeuristic::operator()]. *)
Definition PrecomputedCostHeuristic : Heuristic :=
  fun gr i =>
    match vertices gr !! i with
    | Some vp =>
        if isValid (state vp) then (g vp, gr)
        else (infiniteCost, update_vertex gr i (set_blacklisted true))
    | None => (infiniteCost, gr)
    end.

(** What a visitor call does: return, or throw [FoundVertex]. *)
Inductive visit : Type :=
  | Continue (num_visits : nat)
  | FoundVertex.

(** [SimpleVertexVisitor::examine_vertex]. *)
Definition examine_vertex (goal_vertex : vertex_descriptor) (num_visits : nat)
    (u : vertex_descriptor) : visit :=
  if decide (u = goal_vertex) then FoundVertex else Continue (S num_visits).

(* ------------------------------------------------------------------ *)
(** ** The Boost searches *)

(** The data a search works on: the maps [&p[0]] and [&d[0]] the caller
    passes, the graph (the heuristic may set flags in it), the visitor's
    counter, and, as a ghost field, the vertices handed to
    [examine_vertex] so far, latest first. *)
Record SearchData : Type := mkSearchData {
  graph : GraphT;
  predecessor : list vertex_descriptor;
  distance : list double;
  num_visited_nodes : nat;
  examined : list vertex_descriptor
}.

(** How a search call ends. *)
Inductive SearchEnd : Type :=
  | Exhausted (sd : SearchData)     (* the queue ran empty; the call returns *)
  | Found (sd : SearchData)         (* [examine_vertex] threw [FoundVertex] *)
  | NegativeEdge                    (* Boost threw [negative_edge] *)
  | Running.                        (* the step budget of the model ran out *)

(** [boost::relax_target]: the edge from [u] to [v] of weight [w]. *)
Definition relax_target (u v : nat) (w : double)
    (p : list nat) (d : list double) : bool * list nat * list double :=
  let d_u := d !!! u in
  let d_v := d !!! v in
  if less (closed_plus d_u w) d_v then
    let d' := <[v := closed_plus d_u w]> d in
    if less (d' !!! v) d_v then (true, <[v := u]> p, d')
    else (false, p, d')
  else (false, p, d).

(** [boost::relax] on an undirected graph: the target is tried first, then
    the source. *)
Definition relax (u v : nat) (w : double)
    (p : list nat) (d : list double) : bool * list nat * list double :=
  let d_u := d !!! u in
  let d_v := d !!! v in
  if less (closed_plus d_u w) d_v then
    let d' := <[v := closed_plus d_u w]> d in
    if less (d' !!! v) d_v then (true, <[v := u]> p, d')
    else (false, p, d')
  else if less (closed_plus d_v w) d_u then
    let d' := <[u := closed_plus d_v w]> d in
    if less (d' !!! u) d_u then (true, <[u := v]> p, d')
    else (false, p, d')
  else (false, p, d).

(** The first entry of least key; Boost's heaps leave the order of equal
    keys unspecified, the model takes the one met first. *)
Fixpoint pop_min {A : Type} (lt : A -> A -> bool) (q : list A)
    : option (A * list A) :=
  match q with
  | [] => None
  | x :: q' =>
      match pop_min lt q' with
      | None => Some (x, [])
      | Some (y, r) => if lt y x then Some (y, x :: r) else Some (x, q')
      end
  end.

Inductive default_color_type : Type := white_color | gray_color | black_color.

#[global] Instance color_inhabited : Inhabited default_color_type :=
  populate white_color.

(** *** [boost::dijkstra_shortest_paths] *)

Record DijkstraState : Type := mkDijkstraState {
  dj_pred : list nat;
  dj_dist : list double;
  dj_color : list default_color_type;
  dj_queue : list nat
}.

(** The body of [breadth_first_visit]'s loop over the out-edges of the
    vertex [u] just taken from the queue, with [dijkstra_bfs_visitor]'s
    [examine_edge], [tree_edge] and [gray_target]. [None] is
    [negative_edge]. *)
Fixpoint dijkstra_out_edges (gr : GraphT) (u : nat) (targets : list nat)
    (st : DijkstraState) : option DijkstraState :=
  match targets with
  | [] => Some st
  | v :: rest =>
      let w := default DblMax (edge_weight gr u v) in
      if less (closed_plus zero w) zero then None
      else
        match dj_color st !!! v with
        | white_color =>
            let '(_, p', d') := relax_target u v w (dj_pred st) (dj_dist st) in
            dijkstra_out_edges gr u rest
              (mkDijkstraState p' d' (<[v := gray_color]> (dj_color st))
                 (dj_queue st ++ [v]))
        | gray_color =>
            let '(_, p', d') := relax_target u v w (dj_pred st) (dj_dist st) in
            dijkstra_out_edges gr u rest
              (mkDijkstraState p' d' (dj_color st) (dj_queue st))
        | black_color => dijkstra_out_edges gr u rest st
        end
  end.

(** The queue is a [d_ary_heap_indirect] keyed by the distance map: the
    key of a vertex is its current distance. *)
Definition dijkstra_pop (st : DijkstraState) : option (nat * list nat) :=
  pop_min (fun a b => less (dj_dist st !!! a) (dj_dist st !!! b)) (dj_queue st).

Definition dijkstra_end (gr : GraphT) (st : DijkstraState) (nv : nat)
    (ex : list nat) : SearchData :=
  mkSearchData gr (dj_pred st) (dj_dist st) nv ex.

(** The [while (!Q.empty())] loop of [breadth_first_visit]. *)
Fixpoint dijkstra_loop (fuel : nat) (gr : GraphT) (goal_vertex : nat)
    (st : DijkstraState) (nv : nat) (ex : list nat) : SearchEnd :=
  match fuel with
  | O => Running
  | S fuel' =>
      match dijkstra_pop st with
      | None => Exhausted (dijkstra_end gr st nv ex)
      | Some (u, q') =>
          match examine_vertex goal_vertex nv u with
          | FoundVertex =>
              Found (dijkstra_end gr
                       (mkDijkstraState (dj_pred st) (dj_dist st) (dj_color st) q')
                       (S nv) (u :: ex))
          | Continue nv' =>
              match dijkstra_out_edges gr u (out_edges gr u)
                      (mkDijkstraState (dj_pred st) (dj_dist st) (dj_color st) q')
              with
              | None => NegativeEdge
              | Some st' =>
                  dijkstra_loop fuel' gr goal_vertex
                    (mkDijkstraState (dj_pred st') (dj_dist st')
                       (<[u := black_color]> (dj_color st')) (dj_queue st'))
                    nv' (u :: ex)
              end
          end
      end
  end.

(** Initialisation: every distance [inf], every vertex its own
    predecessor and white; then the source at distance zero, gray, and in
    the queue. *)
Definition dijkstra_init (gr : GraphT) (s : nat) : DijkstraState :=
  let n := num_vertices gr in
  mkDijkstraState (seq 0 n) (<[s := zero]> (replicate n DblMax))
    (<[s := gray_color]> (replicate n white_color)) [s].

Definition dijkstra_shortest_paths (fuel : nat) (gr : GraphT)
    (s goal_vertex : nat) : SearchEnd :=
  dijkstra_loop fuel gr goal_vertex (dijkstra_init gr s) 0 [].

(** *** [boost::astar_search_tree] *)

Record AStarState : Type := mkAStarState {
  as_graph : GraphT;
  as_pred : list nat;
  as_dist : list double;
  as_queue : list (double * nat)     (* pairs (rank, vertex) *)
}.

(** The loop over the out-edges of the vertex [u] just taken from the
    queue in [astar_search_no_init_tree]; a target is pushed, with rank
    [distance + h], each time [relax] reports a decrease. [None] is
    [negative_edge]. *)
Fixpoint astar_out_edges (h : Heuristic) (u : nat) (targets : list nat)
    (st : AStarState) : option AStarState :=
  match targets with
  | [] => Some st
  | w :: rest =>
      let e_weight := default DblMax (edge_weight (as_graph st) u w) in
      if less e_weight zero then None
      else
        let '(decreased, p', d') := relax u w e_weight (as_pred st) (as_dist st) in
        if decreased then
          let '(h_w, gr') := h (as_graph st) w in
          let w_rank := closed_plus (d' !!! w) h_w in
          astar_out_edges h u rest
            (mkAStarState gr' p' d' (as_queue st ++ [(w_rank, w)]))
        else
          astar_out_edges h u rest
            (mkAStarState (as_graph st) p' d' (as_queue st))
  end.

Definition astar_pop (st : AStarState) : option ((double * nat) * list (double * nat)) :=
  pop_min (fun a b => less a.1 b.1) (as_queue st).

Definition astar_end (st : AStarState) (nv : nat) (ex : list nat) : SearchData :=
  mkSearchData (as_graph st) (as_pred st) (as_dist st) nv ex.

Fixpoint astar_loop (fuel : nat) (h : Heuristic) (goal_vertex : nat)
    (st : AStarState) (nv : nat) (ex : list nat) : SearchEnd :=
  match fuel with
  | O => Running
  | S fuel' =>
      match astar_pop st with
      | None => Exhausted (astar_end st nv ex)
      | Some ((_, v), q') =>
          let st0 := mkAStarState (as_graph st) (as_pred st) (as_dist st) q' in
          match examine_vertex goal_vertex nv v with
          | FoundVertex => Found (astar_end st0 (S nv) (v :: ex))
          | Continue nv' =>
              match astar_out_edges h v (out_edges (as_graph st) v) st0 with
              | None => NegativeEdge
              | Some st' => astar_loop fuel' h goal_vertex st' nv' (v :: ex)
              end
          end
      end
  end.

(** Initialisation: every distance [inf], every vertex its own
    predecessor; then the source at distance zero and in the queue with
    rank [h(s)]. *)
Definition astar_init (h : Heuristic) (gr : GraphT) (s : nat) : AStarState :=
  let n := num_vertices gr in
  let '(h_s, gr') := h gr s in
  mkAStarState gr' (seq 0 n) (<[s := zero]> (replicate n DblMax)) [(h_s, s)].

Definition astar_search_tree (fuel : nat) (gr : GraphT) (s : nat)
    (h : Heuristic) (goal_vertex : nat) : SearchEnd :=
  astar_loop fuel h goal_vertex (astar_init h gr s) 0 [].

(* ------------------------------------------------------------------ *)
(** ** [computeShortestPath] *)

Definition use_astar_hueristic_ : bool := false.

(** [for (auto vd : vertices(g)) g[vd].g = d[vd];] *)
Definition store_distances (gr : GraphT) (d : list double) : GraphT :=
  mkGraph (imap (fun vd vp => set_g (d !!! vd) vp) (vertices gr)) (weightmap gr).

(** [for (auto ed : out_edges(v, g)) weightmap[ed] = infiniteCost;] *)
Definition invalidate_out_edges (gr : GraphT) (v : nat) : GraphT :=
  foldl (fun acc t => set_weight acc v t infiniteCost) gr (out_edges gr v).

Definition is_blacklisted (gr : GraphT) (v : nat) : bool :=
  match vertices gr !! v with
  | Some vp => blacklisted vp
  | None => false
  end.

(** The walk [for (v = goal_vertex;; v = p[v])] back along the predecessor
    map.  It visits each vertex once unless the map has a cycle, in which
    case the C++ loop never ends: [n] steps are given for an [n]-vertex
    graph and [None] is that non-termination. *)
Fixpoint reconstruct (fuel : nat) (p : list nat)
    (use_full_collision_check : bool) (v : nat)
    (gr : GraphT) (shortest_path : list nat) : option (list nat * GraphT) :=
  match fuel with
  | O => None
  | S fuel' =>
      let gr' :=
        if use_full_collision_check && is_blacklisted gr v
        then invalidate_out_edges gr v else gr in
      let shortest_path' := v :: shortest_path in      (* push_front *)
      if decide (p !!! v = v) then Some (shortest_path', gr')
      else reconstruct fuel' p use_full_collision_check (p !!! v) gr' shortest_path'
  end.

(** The search [computeShortestPath] runs, by its flags. *)
Definition run_search (fuel : nat) (gr : GraphT) (heuristic : Heuristic)
    (start_vertex goal_vertex : nat) (precompute_heuristic : bool) : SearchEnd :=
  if precompute_heuristic then
    if use_astar_hueristic_ then
      astar_search_tree fuel gr start_vertex heuristic goal_vertex
    else
      dijkstra_shortest_paths fuel gr start_vertex goal_vertex
  else
    astar_search_tree fuel gr start_vertex heuristic goal_vertex.

(** [computeShortestPath]: the list returned and the graph left behind.
    [fuel] bounds the number of vertices the search takes from its queue. *)
Definition computeShortestPath (fuel : nat) (gr : GraphT)
    (heuristic : Heuristic) (start_vertex goal_vertex : nat)
    (precompute_heuristic use_full_collision_check : bool)
    : outcome (list vertex_descriptor * GraphT) :=
  match run_search fuel gr heuristic start_vertex goal_vertex precompute_heuristic with
  | Exhausted sd => Returns ([], graph sd)               (* No path found *)
  | Found sd =>
      let gr1 := store_distances (graph sd) (distance sd) in
      match reconstruct (num_vertices gr1) (predecessor sd)
              use_full_collision_check goal_vertex gr1 [] with
      | Some r => Returns r
      | None => Diverges
      end
  | NegativeEdge => Throws
  | Running => Diverges
  end.

(* ------------------------------------------------------------------ *)
(** ** [populateOmplPathfromVertexPath] *)

(** [siC_->allocControl()] *)
Definition allocControl (heap : ControlHeap Control)
    : ControlPtr * ControlHeap Control :=
  (length heap, heap ++ [Uninit]).

(** [ompl::control::PathControl]: [append(state)] adds a state,
    [append(state, control, duration)] adds a state, a copy of the control
    and a duration. *)
Record PathControl : Type := mkPathControl {
  states : list State;
  controls : list (cell Control);
  controlDurations : list Q
}.

Definition emptyPath : PathControl := mkPathControl [] [] [].

Definition append1 (path : PathControl) (s : State) : PathControl :=
  mkPathControl (states path ++ [s]) (controls path) (controlDurations path).

Definition append3 (path : PathControl) (s : State) (c : cell Control)
    (duration : Q)
    : PathControl :=
  mkPathControl (states path ++ [s]) (controls path ++ [c])
    (controlDurations path ++ [duration]).

(** [unsigned int * double] *)
Definition duration_of (control_duration : nat) : Q :=
  (inject_Z (Z.of_nat control_duration) * propagationStepSize)%Q.

(** The body of the [for (auto && i : vertex_path)] loop; [g[i]] with [i]
    not a vertex of the graph is undefined behaviour, [None] here. *)
Fixpoint populate_loop (vertex_path : list vertex_descriptor) (index : nat)
    (gr : GraphT) (heap : ControlHeap Control) (path : PathControl)
    : option (GraphT * ControlHeap Control * PathControl) :=
  match vertex_path with
  | [] => Some (gr, heap, path)
  | i :: rest =>
      match vertices gr !! i with
      | None => None
      | Some vp =>
          let '(c, gr1, heap1) :=
            match control vp with
            | None =>
                let '(c, heap1) := allocControl heap in
                (c, update_vertex gr i (set_control (Some c)), heap1)
            | Some c => (c, gr, heap)
            end in
          let path1 :=
            if decide (index = 0) then append1 path (state vp)
            else append3 path (state vp) (default Uninit (heap1 !! c))
                   (duration_of (control_duration vp)) in
          populate_loop rest (S index) gr1 heap1 path1
      end
  end.

Definition populateOmplPathfromVertexPath (vertex_path : list vertex_descriptor)
    (gr : GraphT) (heap : ControlHeap Control)
    : option (GraphT * ControlHeap Control * PathControl) :=
  populate_loop vertex_path 0 gr heap emptyPath.

End Planner.

Arguments VertexProperty State : clear implicits.
Arguments GraphT State : clear implicits.
Arguments Heuristic State : clear implicits.
Arguments SearchData State : clear implicits.
Arguments SearchEnd State : clear implicits.
Arguments AStarState State : clear implicits.
Arguments PathControl : clear implicits.

(* ------------------------------------------------------------------ *)
(** ** The geometric graph builder *)

Section GeometricGraphBuilder.

Context {State : Type}.

Variable distanceFunction : State -> State -> Q.     (* si_->distance(a, b) *)
Variable min_dist_between_vertices_ : Q.             (* {0.1} *)
Variable max_dist_between_vertices_ : Q.
(** The query on the nearest-neighbour index of the graph: up to
    [max_neighbors] vertices within the radius, or the k nearest. *)
Variable nearest : GraphT State -> State -> list vertex_descriptor.












End GeometricGraphBuilder.

(* ------------------------------------------------------------------ *)
(** ** The control graph builder *)

Section ControlGraphBuilder.

Context {State Control : Type}.

Variable isValid : State -> bool.
(** The forward-dynamics propagator of section 6, with the duration
    counted in propagation steps. *)
Variable propagate_for : State -> Control -> nat -> State.
(** The choice of the expansion source: an existing vertex near the
    sample. *)
Variable nearest_vertex : list State -> State -> option vertex_descriptor.

(** An edge of the control graph with its label. *)
Record ControlEdge : Type := mkControlEdge {
  ce_source : vertex_descriptor;
  ce_target : vertex_descriptor;
  ce_control : Control;
  ce_duration : nat
}.

Record ControlGraph : Type := mkControlGraph {
  cg_vertices : list State;
  cg_edges : list ControlEdge
}.

(** The simulated trajectory passes the validity oracle at every step and
    at its end point. *)
Definition segment_valid (s : State) (c : Control) (duration : nat) : bool :=
  forallb (fun k => isValid (propagate_for s c k)) (seq 1 duration)
  && isValid (propagate_for s c duration).

(** Modelled from the spec: one candidate control of
    [expandControlGraph], whose body is in the planner's [.cpp] file
    (section 4.3: "forward-simulate each for a bounded duration, and keep
    the resulting end-state as a new vertex with an edge labeled by
    (control, duration) only if the simulated trajectory and its endpoint
    pass validity checking; otherwise discard the whole candidate (no
    partial/clipped edges)"). *)
Definition try_candidate (src : vertex_descriptor) (gr : ControlGraph)
    (cand : Control * nat) : ControlGraph :=
  match cg_vertices gr !! src with
  | Some s =>
      if segment_valid s cand.1 cand.2 then
        mkControlGraph (cg_vertices gr ++ [propagate_for s cand.1 cand.2])
          (cg_edges gr ++ [mkControlEdge src (length (cg_vertices gr)) cand.1 cand.2])
      else gr
  | None => gr
  end.

(** Modelled from the spec: the expansion toward one sample or target
    (section 4.3: "select a nearby existing vertex as the expansion
    source, draw one or more candidate control inputs"); the candidates
    drawn come with the sample. *)
Definition expand_toward (gr : ControlGraph)
    (sample : State * list (Control * nat)) : ControlGraph :=
  match nearest_vertex (cg_vertices gr) sample.1 with
  | Some src => foldl (try_candidate src) gr sample.2
  | None => gr
  end.

(** Modelled from the spec: [expandControlGraph] over a batch of samples
    and then toward the target vertex (section 4.3: "For each new sample,
    or when directed to connect toward a specific target vertex"). *)
Definition expandControlGraph (samples : list (State * list (Control * nat)))
    (target : State * list (Control * nat)) (gr : ControlGraph) : ControlGraph :=
  foldl expand_toward gr (samples ++ [target]).

(** The control graph of a thread before the first round: the start
    vertex and no edge. *)
Definition initial_control_graph (start : State) : ControlGraph :=
  mkControlGraph [start] [].

(** The control graph after a number of rounds. *)
Definition control_graph_after (start : State)
    (rounds : list (list (State * list (Control * nat)) * (State * list (Control * nat))))
    : ControlGraph :=
  foldl (fun gr r => expandControlGraph r.1 r.2 gr) (initial_control_graph start) rounds.

(** The label of the edge, simulated from the state of its source, passed
    the oracle and ends in the state of its target. *)
Definition edge_feasible (gr : ControlGraph) (e : ControlEdge) : Prop :=
  exists s,
    cg_vertices gr !! ce_source e = Some s /\
    segment_valid s (ce_control e) (ce_duration e) = true /\
    cg_vertices gr !! ce_target e = Some (propagate_for s (ce_control e) (ce_duration e)).

Definition all_edges_feasible (gr : ControlGraph) : Prop :=
  Forall (edge_feasible gr) (cg_edges gr).

End ControlGraphBuilder.

(* ------------------------------------------------------------------ *)
(** ** The best-path record *)

Section BestPath.

Context {Path : Type}.

(** [bestGeometricCost_], [bestGeometricPath_], [bestControlCost_] and
    [bestControlPath_]. *)
Record BestPathState : Type := mkBestPathState {
  bestGeometricCost_ : double;
  bestGeometricPath_ : option Path;
  bestControlCost_ : double;
  bestControlPath_ : option Path
}.

(** The member initialisers: both costs infinite, both paths [nullptr]. *)
Definition initialBest : BestPathState :=
  mkBestPathState PosInf None PosInf None.

(** Modelled from the spec: the update of one half of the record in
    [solve], whose body is in the planner's [.cpp] file (section 3:
    "updated only when a newly found path strictly improves the recorded
    cost"; section 4.6: "if a strictly better path is found, assemble it
    and update the shared best-path state under lock"). *)
Definition improve (best : double * option Path) (found : option (double * Path))
    : double * option Path :=
  match found with
  | Some (cost, path) => if less cost best.1 then (cost, Some path) else best
  | None => best
  end.

(** What a round of a worker found: a path and its cost in the geometric
    graph, in the control graph, in both or in neither. *)
Definition RoundResult : Type := option (double * Path) * option (double * Path).

(** Modelled from the spec: the update a round makes; the lock makes the
    updates of all threads one sequence. *)
Definition update_best (st : BestPathState) (r : RoundResult) : BestPathState :=
  let geo := improve (bestGeometricCost_ st, bestGeometricPath_ st) r.1 in
  let ctl := improve (bestControlCost_ st, bestControlPath_ st) r.2 in
  mkBestPathState geo.1 geo.2 ctl.1 ctl.2.

(** The record after the given rounds of one [solve] call. *)
Definition best_after (rounds : list RoundResult) : BestPathState :=
  foldl update_best initialBest rounds.

End BestPath.

Arguments BestPathState Path : clear implicits.
Arguments RoundResult Path : clear implicits.
Arguments ControlEdge Control : clear implicits.
Arguments ControlGraph State Control : clear implicits.

(* ------------------------------------------------------------------ *)
(** ** Notions used to state the properties of path assembly *)

Section PathAssemblerNotions.

Context {State Control : Type}.
Variable propagationStepSize : Q.

(** What [cloneControl] copies from behind a control pointer. *)
Definition cell_of (heap : ControlHeap Control) (c : option ControlPtr)
    : cell Control :=
  match c with
  | Some c => default Uninit (heap !! c)
  | None => Uninit
  end.

(** What path assembly over the vertices [touched] may change: nothing in
    the weights, nothing in a vertex but a null control pointer, which
    becomes a fresh uninitialised control when the vertex is in [touched];
    the heap only grows, by uninitialised cells. *)
Definition populate_frame (touched : list vertex_descriptor)
    (gr : GraphT State) (heap : ControlHeap Control)
    (gr' : GraphT State) (heap' : ControlHeap Control) : Prop :=
  weightmap gr' = weightmap gr /\
  length (vertices gr') = length (vertices gr) /\
  (exists k, heap' = heap ++ replicate k Uninit) /\
  forall v vp, vertices gr !! v = Some vp ->
    exists vp', vertices gr' !! v = Some vp' /\
      state vp' = state vp /\ control_duration vp' = control_duration vp /\
      id vp' = id vp /\ g vp' = g vp /\ blacklisted vp' = blacklisted vp /\
      match control vp with
      | Some c => control vp' = Some c
      | None =>
          if decide (v ∈ touched)
          then exists c, control vp' = Some c /\ length heap <= c /\
                         heap' !! c = Some Uninit
          else control vp' = None
      end.

(** The three lists a run of the loop from position [index] appends to
    the path: a state for every vertex; a control and a duration for
    every vertex but the one at position 0. *)
Definition appended (index : nat) (l : list vertex_descriptor)
    (gr : GraphT State) (heap : ControlHeap Control)
    (sts : list State) (cs : list (cell Control)) (ds : list Q) : Prop :=
  Forall2 (fun i s => exists vp, vertices gr !! i = Some vp /\ s = state vp) l sts /\
  Forall2 (fun i c => exists vp, vertices gr !! i = Some vp /\
                                 c = cell_of heap (control vp))
    (if decide (index = 0) then tail l else l) cs /\
  Forall2 (fun i d => exists vp, vertices gr !! i = Some vp /\
                                 d = duration_of propagationStepSize (control_duration vp))
    (if decide (index = 0) then tail l else l) ds.



End PathAssemblerNotions.

(* ------------------------------------------------------------------ *)
(** ** Notions used to state the properties of the searches *)

(** Consecutive entries of a path are linked by the predecessor map, and
    only the first entry is its own predecessor. *)
Definition linked (p : list nat) (l : list nat) : Prop :=
  forall k a b, l !! k = Some a -> l !! S k = Some b -> p !!! b = a /\ p !!! b <> b.

(** The maps of a search over [n] vertices from source [s]: the source is
    at distance zero and its own predecessor; a vertex that is its own
    predecessor is the source or at the initial distance; a vertex with a
    predecessor is at a finite distance, no smaller than that of its
    predecessor; [h] counts the links back to a vertex that is its own
    predecessor. *)
Record maps_ok (n s : nat) (p : list nat) (d : list double) : Prop := {
  mo_len_p : length p = n;
  mo_len_d : length d = n;
  mo_range : forall v, v < n -> p !!! v < n;
  mo_start : s < n /\ p !!! s = s /\ d !!! s = zero;
  mo_nonneg : forall v, v < n -> less (d !!! v) zero = false;
  mo_not_posinf : forall v, v < n -> d !!! v <> PosInf;
  mo_unreached : forall v, v < n -> p !!! v = v -> v = s \/ d !!! v = DblMax;
  mo_reached : forall v, v < n -> p !!! v <> v -> less (d !!! v) DblMax = true;
  mo_chain : exists h : nat -> nat, forall v, v < n -> p !!! v <> v ->
      less (d !!! (p !!! v)) (d !!! v) = true \/
      (less (d !!! v) (d !!! (p !!! v)) = false /\ h (p !!! v) < h v)
}.

(** The order along predecessor links: a smaller distance, or no larger
    distance and fewer links. *)
Definition before (d : list double) (h : nat -> nat) (a b : nat) : Prop :=
  less (d !!! a) (d !!! b) = true \/
  (less (d !!! b) (d !!! a) = false /\ h a < h b).

(** The number of vertices that are not black. *)
Definition unfinished (c : list default_color_type) : nat :=
  sum_list_with (fun x => match x with black_color => 0 | _ => 1 end) c.

Section SearchNotions.

Context {State : Type}.
Implicit Types (gr : GraphT State).

(** The edge between [a] and [b] has an end point in [front] that is
    blacklisted. *)
Definition invalidated gr (front : list nat) (a b : nat) : bool :=
  existsb (fun x => is_blacklisted gr x &&
                    ((Nat.eqb a x && Nat.ltb b (num_vertices gr)) ||
                     (Nat.eqb b x && Nat.ltb a (num_vertices gr)))) front.

(** The state of Dijkstra's loop between two vertices: the maps are in
    order and the queue holds distinct gray vertices. *)
Definition dijkstra_inv gr (s : nat) (st : DijkstraState) : Prop :=
  maps_ok (num_vertices gr) s (dj_pred st) (dj_dist st) /\
  length (dj_color st) = num_vertices gr /\
  NoDup (dj_queue st) /\
  forall v, v ∈ dj_queue st ->
    v < num_vertices gr /\ dj_color st !!! v = gray_color.

(** What a search may change in the graph: nothing but blacklisted flags,
    which it may only set. *)
Definition flags_only gr gr' : Prop :=
  weightmap gr' = weightmap gr /\
  length (vertices gr') = length (vertices gr) /\
  forall v vp, vertices gr !! v = Some vp ->
    exists vp', vertices gr' !! v = Some vp' /\
      state vp' = state vp /\ control vp' = control vp /\
      control_duration vp' = control_duration vp /\ id vp' = id vp /\
      g vp' = g vp /\ (blacklisted vp = true -> blacklisted vp' = true).

(** A heuristic that writes nothing but blacklisted flags, as both
    heuristics of the planner do. *)
Definition heuristic_frame (h : Heuristic State) : Prop :=
  forall gr i, flags_only gr (h gr i).2.

(** A vertex whose state fails the oracle carries the flag. *)
Definition checked (isValid : State -> bool) gr (v : nat) : Prop :=
  forall vp, vertices gr !! v = Some vp -> isValid (state vp) = false ->
             blacklisted vp = true.

(** The weight the searches read for the edge between [u] and [v]. *)
Definition wt gr (u v : nat) : double := default DblMax (edge_weight gr u v).

(** The weight of a path, given latest vertex first. *)
Fixpoint path_weight gr (rp : list nat) : double :=
  match rp with
  | v :: rest =>
      match rest with
      | u :: _ => closed_plus (path_weight gr rest) (wt gr u v)
      | [] => zero
      end
  | [] => zero
  end.

(** Along the path every step has a non-negative weight and every vertex
    is at a distance no larger than the weight of the path up to it. *)
Fixpoint path_ok gr (d : list double) (rp : list nat) : Prop :=
  match rp with
  | [] => True
  | x :: rest =>
      less (path_weight gr (x :: rest)) (d !!! x) = false /\
      match rest with u :: _ => less (wt gr u x) zero = false | [] => True end /\
      path_ok gr d rest
  end.

(** The distance of [v] is the weight of a path without repeated
    vertices that ends in [v]. *)
Definition simple_path gr (d : list double) (v : nat) (rp : list nat) : Prop :=
  head rp = Some v /\ NoDup rp /\ (forall x, x ∈ rp -> x < num_vertices gr) /\
  d !!! v = path_weight gr rp /\ path_ok gr d rp.

Definition distances_are_paths gr (d : list double) : Prop :=
  forall v, v < num_vertices gr ->
    d !!! v = DblMax \/ exists rp, simple_path gr d v rp.

(** All lists of at most [k] vertices out of [n]. *)
Fixpoint all_lists (n k : nat) : list (list nat) :=
  match k with
  | O => [[]]
  | S k' => [] :: flat_map (fun l => map (fun x => x :: l) (seq 0 n)) (all_lists n k')
  end.

(** The finitely many values a distance can take during a search, and
    the number of them below a distance. *)
Definition path_weights gr : list double :=
  path_weight gr <$> all_lists (num_vertices gr) (num_vertices gr).

Definition count_less gr (x : double) : nat :=
  sum_list_with (fun y => if less y x then 1 else 0) (path_weights gr).

Definition potential gr (d : list double) : nat := sum_list_with (count_less gr) d.

(** A number of steps within which every search over the graph ends. *)
Definition search_budget gr : nat :=
  num_vertices gr * length (path_weights gr) + 2.

(** The state of the tree search between two vertices; [C] is a property
    the heuristic establishes for the vertex it is called on. *)
Definition astar_inv gr (s : nat) (C : GraphT State -> nat -> Prop)
    (st : AStarState State) (ex : list nat) : Prop :=
  maps_ok (num_vertices gr) s (as_pred st) (as_dist st) /\
  distances_are_paths gr (as_dist st) /\
  flags_only gr (as_graph st) /\
  (forall rv, rv ∈ as_queue st ->
     rv.2 < num_vertices gr /\ less (as_dist st !!! rv.2) DblMax = true /\
     C (as_graph st) rv.2) /\
  (forall v, v ∈ ex -> C (as_graph st) v).

(** Every weight is non-negative and none is the infinite cost, as in a
    graph whose weights are distances. *)
Definition weights_ok gr : Prop :=
  forall u v w, edge_weight gr u v = Some w -> less w zero = false /\ w <> PosInf.

(** A walk from [s] to [v] over vertices of the graph, latest vertex
    first.  A step between two vertices that no edge joins weighs
    [DblMax], which [closed_plus] absorbs. *)
Definition walk gr (s v : nat) (rp : list nat) : Prop :=
  head rp = Some v /\ last rp = Some s /\
  forall x, x ∈ rp -> x < num_vertices gr.

(** [x] is the shortest-path distance from [s] to [v]: no walk weighs
    less, and [x] is the weight of a walk unless it is [DblMax]. *)
Definition shortest_distance gr (s v : nat) (x : double) : Prop :=
  (forall rp, walk gr s v rp -> less (path_weight gr rp) x = false) /\
  (x = DblMax \/ exists rp, walk gr s v rp /\ path_weight gr rp = x).

(** What makes Dijkstra's distances shortest.  [active] holds the vertex
    whose out-edges are being examined, gray and out of the queue; [ex]
    the vertices taken from the queue so far.  Gray vertices wait in the
    queue, white ones are at the initial distance, black ones were taken
    from the queue and no edge out of them can lower a distance; every
    distance is the initial one or the weight of a walk, and no walk to a
    vertex taken from the queue weighs less than its distance. *)
Definition dijkstra_opt_inv gr (s : nat) (active : list nat)
    (st : DijkstraState) (ex : list nat) : Prop :=
  (forall v, v < num_vertices gr -> dj_color st !!! v = gray_color ->
     v ∈ dj_queue st \/ v ∈ active) /\
  (forall v, v < num_vertices gr -> dj_color st !!! v = white_color ->
     dj_dist st !!! v = DblMax) /\
  (forall v, v < num_vertices gr -> dj_color st !!! v = black_color -> v ∈ ex) /\
  (forall v t, v < num_vertices gr -> t < num_vertices gr ->
     dj_color st !!! v = black_color ->
     less (closed_plus (dj_dist st !!! v) (wt gr v t)) (dj_dist st !!! t) = false) /\
  (forall v, v < num_vertices gr ->
     dj_dist st !!! v = DblMax \/
     exists rp, walk gr s v rp /\ path_weight gr rp = dj_dist st !!! v) /\
  (forall v rp, v ∈ ex -> walk gr s v rp ->
     less (path_weight gr rp) (dj_dist st !!! v) = false).

(** The vertices handed to [examine_vertex] by a search that ended. *)
Definition examined_by (e : SearchEnd State) : list nat :=
  match e with
  | Exhausted sd | Found sd => examined sd
  | NegativeEdge | Running => []
  end.

End SearchNotions.

(* ------------------------------------------------------------------ *)
(** ** Small instances *)

(** Graphs whose states are numbers: vertex [i] holds state [i]. *)
Definition ex_vertex (i : nat) : VertexProperty nat :=
  mkVertexProperty i None 0 i (Fin 1000) false.

Definition ex_graph (n : nat) (es : list (nat * nat * double)) : GraphT nat :=
  mkGraph (ex_vertex <$> seq 0 n)
    (list_to_map ((fun e => (edge_key e.1.1 e.1.2, e.2)) <$> es)).

Definition all_valid (s : nat) : bool := true.
Definition blocked (k : nat) (s : nat) : bool := negb (Nat.eqb s k).

(** A triangle with a long side. *)
Definition ex_triangle : GraphT nat :=
  ex_graph 3 [((0, 1), Fin 1); ((1, 2), Fin 1); ((0, 2), Fin 5)].

(** Two vertices and no edge. *)
Definition ex_apart : GraphT nat := ex_graph 2 [].

(** Two vertices joined by an edge of infinite cost. *)
Definition ex_cut : GraphT nat := ex_graph 2 [((0, 1), PosInf)].

(** An edge between 0 and 1, and vertex 2 on its own. *)
Definition ex_spur : GraphT nat := ex_graph 3 [((0, 1), Fin 1)].

(** A chain 0 - 2 - 1. *)
Definition ex_chain : GraphT nat := ex_graph 3 [((0, 2), Fin 1); ((2, 1), Fin 1)].

(** A control graph vertex with a recorded control, and one without. *)
Definition ex_controlled : GraphT nat :=
  mkGraph [mkVertexProperty 0 (Some 0) 3 0 (Fin 1000) false;
           mkVertexProperty 1 None 0 1 (Fin 1000) false;
           mkVertexProperty 2 (Some 0) 2 2 (Fin 1000) false] ∅.

Definition ex_heap : ControlHeap nat := [Init 7].




(** A vehicle on a line: a control is a speed, states from 10 on are
    blocked, and the expansion source is the first vertex. *)
Definition ex_propagate (s c k : nat) : nat := s + c * k.
Definition ex_free (s : nat) : bool := Nat.ltb s 10.
Definition ex_first (vs : list nat) (sample : nat) : option vertex_descriptor :=
  match vs with [] => None | _ => Some 0 end.

(** Two compound states, allocated at the addresses 0 and 10. *)
Definition ex_memory : Memory :=
  allocState 0 (mkCompoundState 0 0 0 1) (allocState 10 (mkCompoundState 5 5 5 5) ∅).

Definition ex_control : ControlType := mkControlType [1%R; 0%R].

(* ------------------------------------------------------------------ *)
(** ** Notions used to state further properties of the searches *)

Section PathNotions.

Context {State : Type}.
Implicit Types (gr : GraphT State).

(** Every predecessor link runs along an edge of the graph, and the
    distance of a vertex is no less than that of its predecessor plus
    the weight of the edge between them. *)
Definition pred_tree gr (p : list nat) (d : list double) : Prop :=
  forall v, v < num_vertices gr -> p !!! v <> v ->
    is_Some (edge_weight gr (p !!! v) v) /\
    less (d !!! v) (closed_plus (d !!! (p !!! v)) (wt gr (p !!! v) v)) = false.

(** Consecutive vertices of a list are joined by an edge. *)
Definition along_edges gr (l : list nat) : Prop :=
  forall k a b, l !! k = Some a -> l !! S k = Some b ->
    is_Some (edge_weight gr a b).

(** [v] is joined to [s] by a chain of edges of the graph. *)
Definition connected gr (s v : nat) : Prop :=
  exists rp, walk gr s v rp /\ along_edges gr rp.

(** [v] is joined to [s] by a walk of finite weight. *)
Definition finitely_connected gr (s v : nat) : Prop :=
  exists rp, walk gr s v rp /\ less (path_weight gr rp) DblMax = true.

(** What Dijkstra's colours say about the edges: gray vertices wait in
    the queue (or are the one in [active], whose edges are being
    examined), black ones were taken from the queue and have no white
    neighbour, and every vertex that is not white is joined to the
    source. *)
Definition dijkstra_reach_inv gr (s : nat) (active : list nat)
    (st : DijkstraState) (ex : list nat) : Prop :=
  (forall v, v < num_vertices gr -> dj_color st !!! v = gray_color ->
     v ∈ dj_queue st \/ v ∈ active) /\
  (forall v, v < num_vertices gr -> dj_color st !!! v = black_color -> v ∈ ex) /\
  (forall v t, v < num_vertices gr -> t < num_vertices gr ->
     dj_color st !!! v = black_color -> is_Some (edge_weight gr v t) ->
     dj_color st !!! t <> white_color) /\
  dj_color st !!! s <> white_color /\
  (forall v, v < num_vertices gr -> dj_color st !!! v <> white_color ->
     connected gr s v).

(** What the queue of the tree search says about the distances: a vertex
    at a finite distance waits in the queue or was taken from it, and the
    neighbours over an edge of finite weight of a vertex taken from the
    queue, the one in [active] apart, are at a finite distance. *)
Definition astar_reach_inv gr (active : list nat) (st : AStarState State)
    (ex : list nat) : Prop :=
  (forall v, v < num_vertices gr -> less (as_dist st !!! v) DblMax = true ->
     (exists r, (r, v) ∈ as_queue st) \/ v ∈ ex) /\
  (forall v t, v ∈ ex -> v ∉ active -> t < num_vertices gr ->
     less (wt gr v t) DblMax = true -> less (as_dist st !!! t) DblMax = true).

End PathNotions.

(* ------------------------------------------------------------------ *)
(** ** Notions used to state further properties of path assembly *)

Section PathAssemblerCounting.

Context {State : Type}.

(** The control pointer of vertex [i] is null. *)
Definition has_null_control (gr : GraphT State) (i : vertex_descriptor) : bool :=
  match vertices gr !! i with
  | Some vp => match control vp with None => true | Some _ => false end
  | None => false
  end.

(** The vertices of a list whose control pointer is null, each once. *)
Definition null_controls (gr : GraphT State) (l : list vertex_descriptor)
    : gset nat :=
  list_to_set (filter (fun i => has_null_control gr i = true) l).

End PathAssemblerCounting.

(* ------------------------------------------------------------------ *)
(** ** [SE2PlannerControlSpace]: the octomap and the validity of states *)

Section OctomapPlanner.

(** The octomap message and the collision tree FCL builds from it. *)
Context {Octomap Tree : Type}.

(** [octomap_msgs::readTree] into an [octomap::OcTree] of resolution 0.2,
    wrapped into an [fcl::OcTree]. *)
Variable readTree : Octomap -> Tree.

(** [fcl::collide] of the robot's box, placed by [setTransform] at a
    translation [(x, y, z)] and a rotation about the vertical axis by
    [yaw], with the tree: [collisionResult.isCollision()]. *)
Variable isCollision : Tree -> R * R * R * R -> bool.

(** The members [octomapCallback] and [isStateValid] read and write.
    [fcl_octree_] is [None] until the [std::call_once] body has run. *)
Record SE2PlannerState : Type := mkSE2PlannerState {
  is_octomap_ready_ : bool;
  octomap_msg_ : Octomap;
  fcl_octree_ : option Tree;
  robot_transform : R * R * R * R      (* x, y, z, yaw *)
}.

(** The constructor sets [is_octomap_ready_(false)]; [initialize] stores
    an empty message and places the robot's box at the identity. *)
Definition initialSE2PlannerState (empty_msg : Octomap) : SE2PlannerState :=
  mkSE2PlannerState false empty_msg None (0, 0, 0, 0)%R.

(** [SE2PlannerControlSpace::octomapCallback], under its lock. *)
Definition octomapCallback (msg : Octomap) (st : SE2PlannerState)
    : SE2PlannerState :=
  if negb (is_octomap_ready_ st) then
    mkSE2PlannerState true msg (fcl_octree_ st) (robot_transform st)
  else st.

(** [SE2PlannerControlSpace::isStateValid]: the answer and the members
    after the call. *)
Definition isStateValid (state : CompoundState) (st : SE2PlannerState)
    : bool * SE2PlannerState :=
  if is_octomap_ready_ st then
    let tree :=
      match fcl_octree_ st with
      | Some t => t                                   (* the once flag is set *)
      | None => readTree (octomap_msg_ st)
      end in
    let pose := (getX state, getY state, 0.5, getYaw state)%R in
    (negb (isCollision tree pose),
     mkSE2PlannerState (is_octomap_ready_ st) (octomap_msg_ st) (Some tree) pose)
  else (false, st).

(** What reaches the planner: a message on the octomap topic, or a state
    whose validity is asked for. *)
Inductive PlannerEvent : Type :=
  | OctomapReceived (msg : Octomap)
  | ValidityQuery (state : CompoundState).

(** The answers to the queries of a sequence of events, in order, and the
    members after it. *)
Fixpoint handle_events (evs : list PlannerEvent) (st : SE2PlannerState)
    : list bool * SE2PlannerState :=
  match evs with
  | [] => ([], st)
  | OctomapReceived msg :: rest => handle_events rest (octomapCallback msg st)
  | ValidityQuery state :: rest =>
      let '(valid, st1) := isStateValid state st in
      let '(answers, st2) := handle_events rest st1 in
      (valid :: answers, st2)
  end.

(** The states asked about in a sequence of events. *)
Definition queried (evs : list PlannerEvent) : list CompoundState :=
  omap (fun ev => match ev with
                  | ValidityQuery state => Some state
                  | OctomapReceived _ => None
                  end) evs.

Definition is_query (ev : PlannerEvent) : bool :=
  match ev with ValidityQuery _ => true | OctomapReceived _ => false end.

End OctomapPlanner.

Arguments SE2PlannerState : clear implicits.
Arguments PlannerEvent : clear implicits.

(* ------------------------------------------------------------------ *)
(** ** The choice of the OMPL planner by name *)

(** The planner classes the two plugins can construct. *)
Inductive Planner : Type :=
  | control_RRT | control_SST | control_EST | control_KPIECE1
  | geometric_PRMstar | geometric_RRTstar | geometric_RRTConnect
  | geometric_KPIECE1.

Definition planner_not_found_warning : string :=
  "Selected planner is not Found in available planners, using the default planner: KPIECE1".

(** [SE2PlannerControlSpace::initializeSelectedPlanner]: the planner
    constructed and the warnings logged. *)
Definition initializeSelectedPlanner (selected_planner_name : string)
    : Planner * list string :=
  if decide (selected_planner_name = "RRT") then (control_RRT, [])
  else if decide (selected_planner_name = "SST") then (control_SST, [])
  else if decide (selected_planner_name = "EST") then (control_EST, [])
  else if decide (selected_planner_name = "KPIECE1") then (control_KPIECE1, [])
  else if decide (selected_planner_name = "PRMstar") then (geometric_PRMstar, [])
  else if decide (selected_planner_name = "RRTstar") then (geometric_RRTstar, [])
  else (control_KPIECE1, [planner_not_found_warning]).

(** [SE3Planner::initializeSelectedPlanner]. *)
Definition SE3_initializeSelectedPlanner (selected_planner_name : string)
    : Planner * list string :=
  if decide (selected_planner_name = "PRMStar") then (geometric_PRMstar, [])
  else if decide (selected_planner_name = "RRTstar") then (geometric_RRTstar, [])
  else if decide (selected_planner_name = "RRTConnect") then (geometric_RRTConnect, [])
  else if decide (selected_planner_name = "KPIECE1") then (geometric_KPIECE1, [])
  else (geometric_KPIECE1, [planner_not_found_warning]).

(** [planner_name_] after [initialize], in both plugins:
    [declare_parameter(plugin_name + ".planner_name", "PRMStar")] followed
    by [get_parameter]; [configured] is the value the user set, if any. *)
Definition planner_name_ (configured : option string) : string :=
  default "PRMStar" configured.

(** The names [SE2PlannerControlSpace::initializeSelectedPlanner] tests
    for. *)
Definition control_space_planner_names : list string :=
  ["RRT"; "SST"; "EST"; "KPIECE1"; "PRMstar"; "RRTstar"].

(* ------------------------------------------------------------------ *)
(** ** [TraversabilityBasedPlanRefiner]: nearest vertex and average
       traversability *)

Section PlanRefiner.

(** A PCL point, and [vox_nav_utilities::PCLPointEuclideanDist]. *)
Context {PointT : Type}.
Variable PCLPointEuclideanDist : PointT -> PointT -> double.

(** The [for (auto vd : vertices(g))] loop of [get_nearest_vertex] from
    vertex [vd] on; [g] is given by the points of its vertices. *)
Fixpoint nearest_vertex_loop (point : PointT) (centroids : list PointT)
    (vd : vertex_descriptor) (dist_min : double)
    (nn_vertex : option vertex_descriptor) : option vertex_descriptor :=
  match centroids with
  | [] => nn_vertex
  | voxel_centroid :: rest =>
      let dist_to_crr_voxel_centroid :=
        PCLPointEuclideanDist point voxel_centroid in
      if less dist_to_crr_voxel_centroid dist_min
      then nearest_vertex_loop point rest (S vd) dist_to_crr_voxel_centroid (Some vd)
      else nearest_vertex_loop point rest (S vd) dist_min nn_vertex
  end.

(** [get_nearest_vertex]: [dist_min] starts at [INFINITY]; [nn_vertex] is
    declared without a value, and [None] is that indeterminate value
    returned. *)
Definition get_nearest_vertex (g : list PointT) (point : PointT)
    : option vertex_descriptor :=
  nearest_vertex_loop point g 0 PosInf None.

(** [vox_nav_utilities::convert_to_value] of the colour of a point, with
    the bounds 0.0 and 0.6 and the three colours the function passes. *)
Variable convert_to_value : PointT -> Q.

(** [computeAverageTraversability], with the sum and the quotient exact;
    the query point is not used. *)
Definition computeAverageTraversability (cloud : list PointT) (point : PointT)
    : Q :=
  let '(sum_traversability, num_points) :=
    foldl (fun '(s, k) p => ((s + convert_to_value p)%Q, S k)) (0%Q, 0) cloud in
  if Nat.eqb num_points 0 then 0%Q
  else (sum_traversability / inject_Z (Z.of_nat num_points))%Q.

End PlanRefiner.

(* ------------------------------------------------------------------ *)
(** ** [OctoCostOptimizationObjective::stateCost] *)

Section OctoCost.

(** A node of the colour octree: whether [isNodeOccupied] holds of it,
    and its colour. *)
Record ColorOcTreeNode : Type := mkColorOcTreeNode {
  node_occupied : bool;
  color_r : Byte.byte;
  color_g : Byte.byte;
  color_b : Byte.byte
}.

(** [color_octomap_octree_->search(x, y, z, 0)]; [None] is the null
    pointer. *)
Variable search : R -> R -> R -> option ColorOcTreeNode.

(** [stateCost] of the state at position [(x, y, z)]. *)
Definition stateCost (x y z : R) : Q :=
  match search x y z with
  | Some node_at_samppled_state =>
      if node_occupied node_at_samppled_state then
        if N.eqb (Byte.to_N (color_r node_at_samppled_state)) 0
        then inject_Z (Z.of_N (Byte.to_N (color_b node_at_samppled_state)))
        else 2%Q
      else 2%Q
  | None => 2%Q
  end.

End OctoCost.

(* ------------------------------------------------------------------ *)
(** ** [SE3Planner]: the octomap and the validity of states *)

Module SE3Planner.

(** An [ompl::base::SE3StateSpace::StateType]: the position and the
    rotation, a quaternion [(x, y, z, w)]. *)
Record SE3State : Type := mkSE3State {
  pos : R * R * R;
  rot : R * R * R * R
}.

(** How [dynamic_cast<octomap::ColorOcTree *>(octomap_msgs::fullMsgToMap(msg))]
    inside its [try] block ends: with a colour octree, with the null
    pointer, or with an exception, which the [catch] logs. *)
Inductive Conversion (ColorTree : Type) : Type :=
  | Converted (tree : ColorTree)
  | NullTree
  | ConversionThrows.

Arguments Converted {ColorTree} tree.
Arguments NullTree {ColorTree}.
Arguments ConversionThrows {ColorTree}.

Section SE3.

(** The octomap message, the colour octree it converts to and the
    collision tree FCL builds. *)
Context {Octomap ColorTree Tree : Type}.

Variable fullMsgToMap : Octomap -> Conversion ColorTree.

(** The [octomap::OcTree] of resolution 0.2 that receives the value of
    every occupied leaf of the colour octree, wrapped into an
    [fcl::OcTree]. *)
Variable occupied_leafs : ColorTree -> Tree.

(** The members the two functions read and write; [None] is a null
    pointer.  [octocost_optimization_] is given by the colour octree its
    objective was built with. *)
Record SE3PlannerState : Type := mkSE3PlannerState {
  is_octomap_ready_ : bool;
  octomap_msg_ : Octomap;
  color_octomap_octree_ : option ColorTree;
  fcl_octree_ : option Tree;
  octocost_optimization_ : option ColorTree;
  robot_transform : (R * R * R * R) * (R * R * R)   (* rotation, translation *)
}.

(** [SE3Planner::octomapCallback], under its lock.  After an exception
    the member [color_octomap_octree_] still holds what it held; [None]
    is the call of [getTreeDepth] through a null pointer. *)
Definition octomapCallback (msg : Octomap) (st : SE3PlannerState)
    : option SE3PlannerState :=
  if negb (is_octomap_ready_ st) then
    let color_tree :=
      match fullMsgToMap msg with
      | Converted tree => Some tree
      | NullTree => None
      | ConversionThrows => color_octomap_octree_ st
      end in
    match color_tree with
    | Some tree =>
        Some (mkSE3PlannerState true msg (Some tree) (Some (occupied_leafs tree))
                (Some tree) (robot_transform st))
    | None => None
    end
  else Some st.

(** [SE3Planner::isStateValid]: the answer and the members after the
    call.  The robot's box is placed and [fcl::collide] is called, but
    its result is not looked at: the [return] that used it is commented
    out.  [None] is [fcl::collide] on a null collision object. *)
Definition isStateValid (state : SE3State) (st : SE3PlannerState)
    : option (bool * SE3PlannerState) :=
  if is_octomap_ready_ st then
    match fcl_octree_ st with
    | Some _ =>
        let '(x, y, z, w) := rot state in
        Some (true,
              mkSE3PlannerState (is_octomap_ready_ st) (octomap_msg_ st)
                (color_octomap_octree_ st) (fcl_octree_ st)
                (octocost_optimization_ st) ((w, x, y, z), pos state))
    | None => None
    end
  else Some (false, st).

Inductive PlannerEvent : Type :=
  | OctomapReceived (msg : Octomap)
  | ValidityQuery (state : SE3State).

(** The answers to the queries of a sequence of events, in order, and the
    members after it. *)
Fixpoint handle_events (evs : list PlannerEvent) (st : SE3PlannerState)
    : option (list bool * SE3PlannerState) :=
  match evs with
  | [] => Some ([], st)
  | OctomapReceived msg :: rest =>
      match octomapCallback msg st with
      | Some st1 => handle_events rest st1
      | None => None
      end
  | ValidityQuery state :: rest =>
      match isStateValid state st with
      | Some (valid, st1) =>
          match handle_events rest st1 with
          | Some (answers, st2) => Some (valid :: answers, st2)
          | None => None
          end
      | None => None
      end
  end.

Definition is_query (ev : PlannerEvent) : bool :=
  match ev with ValidityQuery _ => true | OctomapReceived _ => false end.

End SE3.

Arguments SE3PlannerState : clear implicits.
Arguments PlannerEvent : clear implicits.

End SE3Planner.

(* ------------------------------------------------------------------ *)
(** ** Further small instances *)

(** Octomaps that are numbers, the tree of a map being the map, and a
    collision wherever the map is 7. *)
Definition ex_readTree (m : nat) : nat := m.
Definition ex_isCollision (t : nat) (pose : R * R * R * R) : bool := Nat.eqb t 7.

Definition ex_queries : list (PlannerEvent nat) :=
  [ValidityQuery (mkCompoundState 0 0 0 1); ValidityQuery (mkCompoundState 5 5 5 5)].

(** A cloud given by the values of its points. *)
Definition ex_cloud : list Q := [1 # 10; 3 # 10; 1 # 2].
Definition ex_value (p : Q) : Q := p.

(** Messages that are numbers: 0 converts to the null pointer, any other
    number to itself; the collision tree of a colour octree is its
    double. *)
Definition ex_fullMsgToMap (m : nat) : SE3Planner.Conversion nat :=
  if Nat.eqb m 0 then SE3Planner.NullTree else SE3Planner.Converted m.
Definition ex_occupied_leafs (t : nat) : nat := 2 * t.

Definition ex_SE3_state : SE3Planner.SE3State :=
  SE3Planner.mkSE3State (1, 2, 3)%R (0, 0, 0, 1)%R.

(** An octree with one node, occupied, green and blue, wherever one
    looks. *)
Definition ex_search (x y z : R) : option ColorOcTreeNode :=
  Some (mkColorOcTreeNode true Byte.x00 Byte.xff Byte.xc8).

(* ------------------------------------------------------------------ *)
(** * Properties *)

(** ** Order facts on costs *)

Lemma Qltb_lt (a b : Q) : Qltb a b = true <-> (a < b)%Q.
Proof.
  unfold Qltb. rewrite negb_true_iff, <- not_true_iff_false, Qle_bool_iff.
  split; intros H; [apply Qnot_le_lt | apply Qlt_not_le]; exact H.
Qed.

Lemma Qltb_ge (a b : Q) : Qltb a b = false <-> (b <= a)%Q.
Proof.
  unfold Qltb. rewrite negb_false_iff. apply Qle_bool_iff.
Qed.

Lemma less_irrefl (a : double) : less a a = false.
Proof.
  destruct a; simpl; try reflexivity. apply Qltb_ge. apply Qle_refl.
Qed.

Lemma less_asym (a b : double) : less a b = true -> less b a = false.
Proof.
  destruct a, b; simpl; try congruence.
  rewrite Qltb_lt, Qltb_ge. apply Qlt_le_weak.
Qed.

Lemma less_trans (a b c : double) :
  less a b = true -> less b c = true -> less a c = true.
Proof.
  destruct a, b, c; simpl; try congruence.
  rewrite !Qltb_lt. apply Qlt_trans.
Qed.

(** [a <= b] as the code can observe it: [b < a] is false. *)
Lemma not_less_trans (a b c : double) :
  less b a = false -> less c b = false -> less c a = false.
Proof.
  destruct a, b, c; simpl; try congruence.
  rewrite !Qltb_ge. intros H1 H2. eapply Qle_trans; eassumption.
Qed.

Lemma less_not_less_trans (a b c : double) :
  less a b = true -> less c b = false -> less a c = true.
Proof.
  destruct a, b, c; simpl; try congruence.
  rewrite !Qltb_lt, Qltb_ge. intros H1 H2. eapply Qlt_le_trans; eassumption.
Qed.

Lemma not_less_less_trans (a b c : double) :
  less b a = false -> less b c = true -> less a c = true.
Proof.
  destruct a, b, c; simpl; try congruence.
  rewrite !Qltb_lt, Qltb_ge. intros H1 H2. eapply Qle_lt_trans; eassumption.
Qed.

Lemma closed_plus_ge (a w : double) :
  a <> PosInf -> less w zero = false -> less (closed_plus a w) a = false.
Proof.
  unfold zero. destruct a, w; simpl; try done.
  rewrite !Qltb_ge. intros _ H. lra.
Qed.

Lemma closed_plus_nonneg (a w : double) :
  less a zero = false -> less w zero = false -> less (closed_plus a w) zero = false.
Proof.
  unfold zero. destruct a, w; simpl; try done.
  rewrite !Qltb_ge. intros. lra.
Qed.

Lemma closed_plus_zero_nonneg (w : double) :
  less (closed_plus zero w) zero = false -> less w zero = false.
Proof.
  unfold zero. destruct w; simpl; try done.
  rewrite !Qltb_ge. intros. lra.
Qed.

Lemma less_not_posinf (a b : double) : less a b = true -> a <> PosInf.
Proof. by destruct a, b. Qed.

Lemma less_finite (a b : double) :
  less a b = true -> b <> PosInf -> less a DblMax = true.
Proof. by destruct a, b. Qed.

Lemma maps_ok_init n s :
  s < n -> maps_ok n s (seq 0 n) (<[s := zero]> (replicate n DblMax)).
Proof.
  intros Hs.
  assert (forall v, v < n -> seq 0 n !!! v = v) as Hp
    by (intros; by rewrite lookup_total_seq_lt).
  assert (forall v, v < n -> (<[s := zero]> (replicate n DblMax)) !!! v =
            if decide (v = s) then zero else DblMax) as Hd.
  { intros v Hv. destruct (decide (v = s)) as [->|Hne].
    - apply list_lookup_total_insert_eq. by rewrite length_replicate.
    - rewrite list_lookup_total_insert_ne by done.
      by apply lookup_total_replicate_2. }
  split.
  - by rewrite length_seq.
  - by rewrite length_insert, length_replicate.
  - intros v Hv. by rewrite Hp.
  - rewrite Hp, Hd by done. by rewrite decide_True.
  - intros v Hv. rewrite Hd by done. by case_decide.
  - intros v Hv. rewrite Hd by done. by case_decide.
  - intros v Hv _. rewrite Hd by done. case_decide; auto.
  - intros v Hv. by rewrite Hp.
  - exists (fun _ => 0). intros v Hv. by rewrite Hp.
Qed.

(** One relaxation: the distance of [b] drops to the distance of [a] plus
    a non-negative weight, and [a] becomes the predecessor of [b]. *)
Lemma maps_ok_relax n s p d a b w :
  maps_ok n s p d -> a < n -> b < n -> less w zero = false ->
  less (closed_plus (d !!! a) w) (d !!! b) = true ->
  maps_ok n s (<[b := a]> p) (<[b := closed_plus (d !!! a) w]> d).
Proof.
  intros [Hlp Hld Hr (Hs & Hps & Hds) Hnn Hnp Hun Hre [h Hch]] Ha Hb Hw Hlt.
  assert (a <> b) as Hab.
  { intros ->. rewrite closed_plus_ge in Hlt; [done|auto..]. }
  assert (b <> s) as Hbs.
  { intros ->. rewrite Hds in Hlt.
    rewrite closed_plus_nonneg in Hlt; [done|auto..]. }
  assert (forall v, (<[b := a]> p) !!! v = if decide (v = b) then a else p !!! v) as Hp'.
  { intros v. destruct (decide (v = b)) as [->|Hne].
    - apply list_lookup_total_insert_eq. lia.
    - by apply list_lookup_total_insert_ne. }
  assert (forall v, (<[b := closed_plus (d !!! a) w]> d) !!! v =
            if decide (v = b) then closed_plus (d !!! a) w else d !!! v) as Hd'.
  { intros v. destruct (decide (v = b)) as [->|Hne].
    - apply list_lookup_total_insert_eq. lia.
    - by apply list_lookup_total_insert_ne. }
  split.
  - by rewrite length_insert.
  - by rewrite length_insert.
  - intros v Hv. rewrite Hp'. case_decide; auto.
  - rewrite Hp', Hd'. rewrite !decide_False by done. done.
  - intros v Hv. rewrite Hd'. case_decide; auto using closed_plus_nonneg.

  - intros v Hv. rewrite Hd'. case_decide; auto. by eapply less_not_posinf.
  - intros v Hv. rewrite Hp', Hd'. case_decide; [by subst; intros ->|]. auto.
  - intros v Hv. rewrite Hp', Hd'. case_decide; [|auto].
    intros _. eapply less_finite; [exact Hlt|]. auto.
  - exists (fun v => if decide (v = b) then S (h a) else h v).
    intros v Hv. rewrite !Hp', !Hd'. destruct (decide (v = b)) as [->|Hvb].
    + intros _. rewrite !decide_False by done. right. split; [|lia].
      apply closed_plus_ge; auto.
    + intros Hpv. destruct (decide (p !!! v = b)) as [Hpb|Hpb].
      * left. destruct (Hch v Hv Hpv) as [H1 | [H1 _]]; rewrite Hpb in H1.
        -- eapply less_trans; eassumption.
        -- eapply less_not_less_trans; eassumption.
      * apply Hch; auto.
Qed.

Lemma relax_target_spec n s p d u v w :
  maps_ok n s p d -> u < n -> v < n -> less w zero = false ->
  exists dec p' d', relax_target u v w p d = (dec, p', d') /\ maps_ok n s p' d' /\
    ((dec = false /\ p' = p /\ d' = d /\ less (closed_plus (d !!! u) w) (d !!! v) = false) \/
     (dec = true /\ p' = <[v := u]> p /\ d' = <[v := closed_plus (d !!! u) w]> d /\
      less (closed_plus (d !!! u) w) (d !!! v) = true)).
Proof.
  intros Hok Hu Hv Hw. unfold relax_target.
  destruct (less (closed_plus (d !!! u) w) (d !!! v)) eqn:Hlt.
  - rewrite list_lookup_total_insert_eq by (by rewrite (mo_len_d _ _ _ _ Hok)).
    rewrite Hlt. eexists _, _, _. split; [done|]. split; [|right; done].
    by apply maps_ok_relax.
  - eexists _, _, _. split; [done|]. split; [done|]. left. done.
Qed.

Lemma relax_spec n s p d u v w :
  maps_ok n s p d -> u < n -> v < n -> less w zero = false ->
  exists dec p' d', relax u v w p d = (dec, p', d') /\ maps_ok n s p' d' /\
    ((dec = false /\ p' = p /\ d' = d) \/
     (dec = true /\ p' = <[v := u]> p /\ d' = <[v := closed_plus (d !!! u) w]> d /\
      less (closed_plus (d !!! u) w) (d !!! v) = true) \/
     (dec = true /\ p' = <[u := v]> p /\ d' = <[u := closed_plus (d !!! v) w]> d /\
      less (closed_plus (d !!! v) w) (d !!! u) = true)).
Proof.
  intros Hok Hu Hv Hw. unfold relax.
  destruct (less (closed_plus (d !!! u) w) (d !!! v)) eqn:Hlt.
  - rewrite list_lookup_total_insert_eq by (by rewrite (mo_len_d _ _ _ _ Hok)).
    rewrite Hlt. eexists _, _, _. split; [done|]. split; [|right; left; done].
    by apply maps_ok_relax.
  - destruct (less (closed_plus (d !!! v) w) (d !!! u)) eqn:Hlt2.
    + rewrite list_lookup_total_insert_eq by (by rewrite (mo_len_d _ _ _ _ Hok)).
      rewrite Hlt2. eexists _, _, _. split; [done|]. split; [|right; right; done].
      by apply maps_ok_relax.
    + eexists _, _, _. split; [done|]. split; [done|]. left. done.
Qed.

Section BestPathFacts.
Context {Path : Type}.
Implicit Types (st : BestPathState Path) (r : RoundResult Path).

Lemma improve_cases (best : double * option Path) (found : option (double * Path)) :
  improve best found = best \/
  exists cost path, found = Some (cost, path) /\ less cost best.1 = true /\
                    improve best found = (cost, Some path).
Proof.
  unfold improve. destruct found as [[cost path]|]; [|by left].
  destruct (less cost best.1) eqn:E; [right; eauto | by left].
Qed.

Lemma improve_not_worse (best : double * option Path) found :
  less best.1 (improve best found).1 = false.
Proof.
  destruct (improve_cases best found) as [-> | (c & pth & _ & Hlt & ->)].
  - apply less_irrefl.
  - simpl. by apply less_asym.
Qed.

Lemma update_best_not_worse st r :
  less (bestGeometricCost_ st) (bestGeometricCost_ (update_best st r)) = false /\
  less (bestControlCost_ st) (bestControlCost_ (update_best st r)) = false.
Proof.
  split; unfold update_best; simpl.
  - apply (improve_not_worse (bestGeometricCost_ st, bestGeometricPath_ st)).
  - apply (improve_not_worse (bestControlCost_ st, bestControlPath_ st)).
Qed.

Lemma foldl_update_best_not_worse (more : list (RoundResult Path)) st :
  less (bestGeometricCost_ st) (bestGeometricCost_ (foldl update_best st more)) = false /\
  less (bestControlCost_ st) (bestControlCost_ (foldl update_best st more)) = false.
Proof.
  revert st. induction more as [|r more IH]; intros st; simpl.
  - split; apply less_irrefl.
  - destruct (IH (update_best st r)) as [IHg IHc].
    destruct (update_best_not_worse st r) as [Hg Hc].
    split; eapply not_less_trans; eassumption.
Qed.

(** C4. The best geometric cost and the best control cost recorded after
    some rounds of a [solve] call are never smaller than those recorded
    after more rounds, and a round leaves each half of the record as it
    was unless it found a path whose cost is strictly below the recorded
    cost, which it then records with that path. *)
Theorem best_cost_non_increasing (rounds more : list (RoundResult Path)) (r : RoundResult Path) :
  let st := best_after rounds in
  let st1 := best_after (rounds ++ [r]) in
  let later := best_after (rounds ++ more) in
  (less (bestGeometricCost_ st) (bestGeometricCost_ later) = false /\
   less (bestControlCost_ st) (bestControlCost_ later) = false) /\
  ((bestGeometricCost_ st1 = bestGeometricCost_ st /\
    bestGeometricPath_ st1 = bestGeometricPath_ st) \/
   exists cost path, r.1 = Some (cost, path) /\
     less cost (bestGeometricCost_ st) = true /\
     bestGeometricCost_ st1 = cost /\ bestGeometricPath_ st1 = Some path) /\
  ((bestControlCost_ st1 = bestControlCost_ st /\
    bestControlPath_ st1 = bestControlPath_ st) \/
   exists cost path, r.2 = Some (cost, path) /\
     less cost (bestControlCost_ st) = true /\
     bestControlCost_ st1 = cost /\ bestControlPath_ st1 = Some path).
Proof.
  intros st st1 later. subst st st1 later. unfold best_after.
  rewrite !foldl_app. simpl.
  set (st := foldl update_best initialBest rounds).
  split; [apply foldl_update_best_not_worse|].
  unfold update_best; simpl. split.
  - destruct (improve_cases (bestGeometricCost_ st, bestGeometricPath_ st) r.1)
      as [-> | (c & pth & Hr & Hlt & ->)]; [left; done | right; eauto 10].
  - destruct (improve_cases (bestControlCost_ st, bestControlPath_ st) r.2)
      as [-> | (c & pth & Hr & Hlt & ->)]; [left; done | right; eauto 10].
Qed.
End BestPathFacts.

Section ControlGraphFacts.
Context {State Control : Type}.
Variable isValid : State -> bool.
Variable propagate_for : State -> Control -> nat -> State.
Variable nearest_vertex : list State -> State -> option vertex_descriptor.


Lemma edge_feasible_grow (gr : ControlGraph State Control) more_v more_e e :
  edge_feasible isValid propagate_for gr e ->
  edge_feasible isValid propagate_for (mkControlGraph (cg_vertices gr ++ more_v) more_e) e.
Proof.
  intros (s & Hs & Hv & Ht). exists s. simpl.
  split_and!; [| done |]; by apply lookup_app_l_Some.
Qed.

Lemma try_candidate_rejected (gr : ControlGraph State Control) src cand s :
  cg_vertices gr !! src = Some s ->
  segment_valid isValid propagate_for s cand.1 cand.2 = false ->
  try_candidate isValid propagate_for src gr cand = gr.
Proof. intros Hs Hv. unfold try_candidate. by rewrite Hs, Hv. Qed.

Lemma try_candidate_feasible (gr : ControlGraph State Control) src cand :
  all_edges_feasible isValid propagate_for gr -> all_edges_feasible isValid propagate_for (try_candidate isValid propagate_for src gr cand).
Proof.
  intros Hall. unfold try_candidate.
  destruct (cg_vertices gr !! src) as [s|] eqn:Hs; [|done].
  destruct (segment_valid isValid propagate_for s cand.1 cand.2) eqn:Hv; [|done].
  unfold all_edges_feasible. simpl. apply Forall_app. split.
  - eapply Forall_impl; [exact Hall|]. intros e He.
    by apply (edge_feasible_grow gr).
  - apply Forall_singleton. exists s. simpl. split_and!.
    + by apply lookup_app_l_Some.
    + done.
    + rewrite lookup_app_r by lia. by rewrite Nat.sub_diag.
Qed.

Lemma foldl_try_candidate_feasible cands src (gr : ControlGraph State Control) :
  all_edges_feasible isValid propagate_for gr -> all_edges_feasible isValid propagate_for (foldl (try_candidate isValid propagate_for src) gr cands).
Proof.
  revert gr. induction cands as [|c cands IH]; intros gr H; simpl; [done|].
  apply IH. by apply try_candidate_feasible.
Qed.

Lemma expand_toward_feasible (gr : ControlGraph State Control) sample :
  all_edges_feasible isValid propagate_for gr ->
  all_edges_feasible isValid propagate_for (expand_toward isValid propagate_for nearest_vertex gr sample).
Proof.
  intros H. unfold expand_toward.
  destruct (nearest_vertex _ _); [|done]. by apply foldl_try_candidate_feasible.
Qed.

Lemma expandControlGraph_feasible samples target (gr : ControlGraph State Control) :
  all_edges_feasible isValid propagate_for gr ->
  all_edges_feasible isValid propagate_for
    (expandControlGraph isValid propagate_for nearest_vertex samples target gr).
Proof.
  unfold expandControlGraph. generalize (samples ++ [target]). intros l.
  revert gr. induction l as [|x l IH]; intros gr H; simpl; [done|].
  apply IH. by apply expand_toward_feasible.
Qed.

(** C3. After any number of expansion rounds from the start vertex, every
    edge of the control graph has a label whose simulation from the state
    of its source passed the validity oracle at every step and at its end
    point, which is the state of its target; a candidate whose simulation
    fails the oracle leaves the graph unchanged. *)
Theorem control_graph_edges_feasible (start : State) rounds :
  (forall e,
      e ∈ cg_edges (control_graph_after isValid propagate_for nearest_vertex start rounds) ->
      edge_feasible isValid propagate_for (control_graph_after isValid propagate_for nearest_vertex start rounds) e) /\
  (forall (gr : ControlGraph State Control) src cand s,
      cg_vertices gr !! src = Some s ->
      segment_valid isValid propagate_for s cand.1 cand.2 = false ->
      try_candidate isValid propagate_for src gr cand = gr).
Proof.
  split; [|apply try_candidate_rejected].
  apply Forall_forall. unfold control_graph_after.
  assert (Hinit : all_edges_feasible isValid propagate_for (initial_control_graph (Control:=Control) start))
    by apply Forall_nil_2.
  revert Hinit. generalize (initial_control_graph (Control:=Control) start).
  induction rounds as [|r rounds IH]; intros gr H; simpl; [done|].
  apply IH. by apply expandControlGraph_feasible.
Qed.
End ControlGraphFacts.

Section GeometricGraphFacts.
Context {State : Type}.
Variable distanceFunction : State -> State -> Q.
Variable min_dist max_dist : Q.
Variable nearest : GraphT State -> State -> list vertex_descriptor.


Lemma edge_key_inj u a b : edge_key u a = edge_key u b -> a = b.
Proof. unfold edge_key. intros [=]. lia. Qed.





















End GeometricGraphFacts.

Section PathAssembler.
Context {State Control : Type}.
Variable propagationStepSize : Q.

Lemma populate_frame_refl (gr : GraphT State) (heap : ControlHeap Control) :
  populate_frame [] gr heap gr heap.
Proof.
  split_and!; try done.
  - exists 0. simpl. by rewrite app_nil_r.
  - intros v vp Hv. exists vp. split_and!; try done.
    destruct (control vp); [done|]. case_decide as Hin; [|done].
    by apply elem_of_nil in Hin.
Qed.

Lemma lookup_app_uninit (heap : ControlHeap Control) k c :
  default Uninit ((heap ++ replicate k Uninit) !! c) = default Uninit (heap !! c).
Proof.
  destruct (decide (c < length heap)) as [Hlt|Hge].
  - by rewrite lookup_app_l.
  - rewrite lookup_app_r by lia. rewrite (lookup_ge_None_2 heap) by lia.
    destruct (replicate k Uninit !! (c - length heap)) eqn:E; [|done].
    apply lookup_replicate in E as [-> _]. done.
Qed.

Lemma populate_frame_cell touched (gr gr' : GraphT State)
    (heap heap' : ControlHeap Control) v vp vp' :
  populate_frame touched gr heap gr' heap' ->
  vertices gr !! v = Some vp -> vertices gr' !! v = Some vp' ->
  cell_of heap' (control vp') = cell_of heap (control vp).
Proof.
  intros (_ & _ & [k ->] & Hv) Hvp Hvp'.
  destruct (Hv v vp Hvp) as (vp2 & Hvp2 & _ & _ & _ & _ & _ & Hc).
  rewrite Hvp' in Hvp2. injection Hvp2 as <-.
  destruct (control vp) as [c|].
  - rewrite Hc. simpl. apply lookup_app_uninit.
  - case_decide.
    + destruct Hc as (c & -> & _ & Hc). simpl. by rewrite Hc.
    + by rewrite Hc.
Qed.

Lemma populate_frame_step i touched (gr gr1 gr' : GraphT State)
    (heap heap1 heap' : ControlHeap Control) :
  populate_frame [i] gr heap gr1 heap1 ->
  populate_frame touched gr1 heap1 gr' heap' ->
  populate_frame (i :: touched) gr heap gr' heap'.
Proof.
  intros (Hw1 & Hl1 & [k1 Hh1] & Hv1) (Hw2 & Hl2 & [k2 Hh2] & Hv2).
  split_and!; [congruence | congruence | |].
  - exists (k1 + k2). subst. by rewrite <- app_assoc, replicate_add.
  - intros v vp Hvp.
    destruct (Hv1 v vp Hvp) as (vp1 & Hvp1 & Hs1 & Hd1 & Hi1 & Hg1 & Hb1 & Hc1).
    destruct (Hv2 v vp1 Hvp1) as (vp2 & Hvp2 & Hs2 & Hd2 & Hi2 & Hg2 & Hb2 & Hc2).
    exists vp2. split_and!; try congruence.
    destruct (control vp) as [c|].
    + rewrite Hc1 in Hc2. done.
    + destruct (decide (v ∈ [i])) as [Hin|Hnin].
      * destruct Hc1 as (c & Hc1 & Hge & Hun). rewrite Hc1 in Hc2.
        rewrite decide_True by (apply list_elem_of_singleton in Hin; subst; by left).
        exists c. split_and!; [done..|].
        subst heap'. apply lookup_app_l_Some. done.
      * rewrite Hc1 in Hc2. apply not_elem_of_cons in Hnin as [Hne _].
        destruct (decide (v ∈ touched)) as [Hin|Hnin'].
        -- rewrite decide_True by (by right).
           destruct Hc2 as (c & ? & ? & ?). exists c. split_and!; [done| |done].
           subst heap1. rewrite length_app in *. lia.
        -- rewrite decide_False; [done|]. by apply not_elem_of_cons.
Qed.

(** One step of the loop on vertex [i]. *)
Lemma populate_frame_alloc i (gr : GraphT State) (heap : ControlHeap Control) vp :
  vertices gr !! i = Some vp -> control vp = None ->
  populate_frame [i] gr heap
    (update_vertex gr i (set_control (Some (length heap)))) (heap ++ [Uninit]).
Proof.
  intros Hi Hc. split_and!; try done.
  - simpl. by rewrite length_alter.
  - by exists 1.
  - intros v vp0 Hv. simpl. destruct (decide (v = i)) as [->|Hne].
    + rewrite list_lookup_alter_eq, Hv. simpl. eexists; split; [done|].
      rewrite Hi in Hv. injection Hv as <-. rewrite Hc.
      split_and!; try done. rewrite decide_True by (by left).
      exists (length heap). split_and!; [done..|].
      rewrite lookup_app_r by done. by rewrite Nat.sub_diag.
    + rewrite list_lookup_alter_ne by done. exists vp0. split_and!; try done.
      destruct (control vp0); [done|]. rewrite decide_False; [done|].
      by intros ->%list_elem_of_singleton.
Qed.

Lemma populate_frame_keep i (gr : GraphT State) (heap : ControlHeap Control) vp c :
  vertices gr !! i = Some vp -> control vp = Some c ->
  populate_frame [i] gr heap gr heap.
Proof.
  intros Hi Hc. split_and!; try done.
  - exists 0. simpl. by rewrite app_nil_r.
  - intros v vp0 Hv. exists vp0. split_and!; try done.
    destruct (control vp0) eqn:Hc0; [done|]. rewrite decide_False; [done|].
    intros ->%list_elem_of_singleton. congruence.
Qed.

Lemma appended_frame index l i (gr gr1 : GraphT State)
    (heap heap1 : ControlHeap Control) sts cs ds :
  populate_frame [i] gr heap gr1 heap1 ->
  appended propagationStepSize index l gr1 heap1 sts cs ds -> appended propagationStepSize index l gr heap sts cs ds.
Proof.
  intros Hf (H1 & H2 & H3).
  assert (forall j vp1, vertices gr1 !! j = Some vp1 ->
            exists vp, vertices gr !! j = Some vp /\ state vp1 = state vp /\
              control_duration vp1 = control_duration vp /\
              cell_of heap1 (control vp1) = cell_of heap (control vp)) as Hback.
  { intros j vp1 Hj. pose proof Hf as (_ & Hlen & _ & Hv).
    destruct (lookup_lt_is_Some_2 (vertices gr) j) as [vp Hvp].
    { rewrite <- Hlen. by eapply lookup_lt_Some. }
    exists vp. split; [done|].
    destruct (Hv j vp Hvp) as (vp' & Hvp' & Hs & Hd & _).
    rewrite Hj in Hvp'. injection Hvp' as <-. split_and!; [done..|].
    by eapply populate_frame_cell. }
  split_and!; (eapply Forall2_impl; [eassumption|]); simpl;
    intros j x (vp1 & Hj & ->); destruct (Hback j vp1 Hj) as (vp & ? & ? & ? & ?);
    exists vp; split; congruence.
Qed.

Lemma populate_loop_spec l : forall index (gr : GraphT State)
    (heap : ControlHeap Control) (path : PathControl State Control),
  (forall i, i ∈ l -> i < num_vertices gr) ->
  exists gr' heap' path' sts cs ds,
    populate_loop propagationStepSize l index gr heap path = Some (gr', heap', path') /\
    populate_frame l gr heap gr' heap' /\
    states path' = states path ++ sts /\
    controls path' = controls path ++ cs /\
    controlDurations path' = controlDurations path ++ ds /\
    appended propagationStepSize index l gr heap sts cs ds.
Proof.
  induction l as [|i rest IH]; intros index gr heap path Hrange.
  - exists gr, heap, path, [], [], []. simpl. rewrite !app_nil_r.
    split_and!; try done; [apply populate_frame_refl|].
    unfold appended. case_decide; simpl; split_and!; constructor.
  - destruct (lookup_lt_is_Some_2 (vertices gr) i) as [vp Hvp].
    { apply Hrange. by left. }
    simpl. rewrite Hvp.
    set (step := match control vp with
                 | Some c => (c, gr, heap)
                 | None => (length heap, update_vertex gr i (set_control (Some (length heap))),
                            heap ++ [Uninit])
                 end).
    assert (exists c gr1 heap1, step = (c, gr1, heap1) /\
              populate_frame [i] gr heap gr1 heap1 /\
              default Uninit (heap1 !! c) = cell_of heap (control vp))
      as (c & gr1 & heap1 & Hstep & Hf1 & Hcell).
    { subst step. destruct (control vp) as [c|] eqn:Hc.
      - exists c, gr, heap. split_and!; [done| |done]. by apply (populate_frame_keep i gr heap vp c).
      - eexists _, _, _. split_and!; [done| |].
        + by apply (populate_frame_alloc i gr heap vp).
        + rewrite lookup_app_r by done. by rewrite Nat.sub_diag. }
    fold step. rewrite Hstep.
    destruct Hf1 as (Hw1 & Hl1 & Hh1 & Hv1).
    edestruct (IH (S index) gr1 heap1) as
      (gr' & heap' & path' & sts & cs & ds & -> & Hf2 & Hs & Hc & Hd & Happ).
    { intros j Hj. unfold num_vertices. rewrite Hl1. apply Hrange. by right. }
    pose proof (conj Hw1 (conj Hl1 (conj Hh1 Hv1))) as Hf1.
    apply (appended_frame _ _ i gr gr1 heap heap1) in Happ; [|done].
    destruct Happ as (A1 & A2 & A3). rewrite decide_False in A2, A3 by done.
    case_decide as Hidx.
    + exists gr', heap', path', (state vp :: sts), cs, ds.
      split_and!; [done| |..].
      * by eapply populate_frame_step.
      * rewrite Hs. simpl. by rewrite <- app_assoc.
      * by rewrite Hc.
      * by rewrite Hd.
      * unfold appended. rewrite decide_True by done. simpl.
        split_and!; [|done..]. constructor; [eauto|done].
    + exists gr', heap', path', (state vp :: sts),
        (cell_of heap (control vp) :: cs),
        (duration_of propagationStepSize (control_duration vp) :: ds).
      split_and!; [done| |..].
      * by eapply populate_frame_step.
      * rewrite Hs. simpl. by rewrite <- app_assoc.
      * rewrite Hc. simpl. rewrite Hcell. by rewrite <- app_assoc.
      * rewrite Hd. simpl. by rewrite <- app_assoc.
      * unfold appended. rewrite decide_False by done.
        split_and!; (constructor; [eauto|done]).
Qed.

End PathAssembler.

Section Reconstruct.
Context {State : Type}.
Implicit Types (gr : GraphT State) (p : list nat) (d : list double).

Lemma edge_key_sym a b : edge_key a b = edge_key b a.
Proof. unfold edge_key. f_equal; lia. Qed.

Lemma edge_key_eq a b c e :
  edge_key a b = edge_key c e <-> (a = c /\ b = e) \/ (a = e /\ b = c).
Proof.
  unfold edge_key. split.
  - intros [=]. lia.
  - intros [[-> ->]|[-> ->]]; f_equal; lia.
Qed.

Lemma elem_of_out_edges gr v t :
  t ∈ out_edges gr v <-> t < num_vertices gr /\ is_Some (edge_weight gr v t).
Proof.
  unfold out_edges. rewrite list_elem_of_filter, elem_of_seq. split.
  - intros [? [_ ?]]. done.
  - intros [? ?]. split; [done|lia].
Qed.

Lemma foldl_set_weight_vertices gr v w ts :
  vertices (foldl (fun acc t => set_weight acc v t w) gr ts) = vertices gr.
Proof. revert gr. induction ts as [|t ts IH]; intros gr; simpl; [done|]. by rewrite IH. Qed.

Lemma foldl_set_weight_miss gr v w ts a b :
  (forall t, t ∈ ts -> edge_key v t <> edge_key a b) ->
  edge_weight (foldl (fun acc t => set_weight acc v t w) gr ts) a b = edge_weight gr a b.
Proof.
  revert gr. induction ts as [|t ts IH]; intros gr Hmiss; simpl; [done|].
  rewrite IH by (intros; apply Hmiss; by right).
  apply lookup_insert_ne. apply Hmiss. by left.
Qed.

Lemma foldl_set_weight_hit gr v w ts t :
  t ∈ ts ->
  edge_weight (foldl (fun acc t => set_weight acc v t w) gr ts) v t = Some w.
Proof.
  revert gr. induction ts as [|t0 ts IH]; intros gr Hin; [by apply elem_of_nil in Hin|].
  simpl. destruct (decide (t ∈ ts)) as [Hin'|Hnin]; [by apply IH|].
  apply elem_of_cons in Hin as [->|]; [|done].
  rewrite foldl_set_weight_miss.
  - apply lookup_insert_eq.
  - intros t Ht Hk. apply edge_key_inj in Hk. by subst.
Qed.

Lemma invalidate_out_edges_vertices gr v :
  vertices (invalidate_out_edges gr v) = vertices gr.
Proof. apply foldl_set_weight_vertices. Qed.

Lemma invalidate_out_edges_weight gr v a b :
  edge_weight (invalidate_out_edges gr v) a b =
    match edge_weight gr a b with
    | Some w =>
        if (Nat.eqb a v && Nat.ltb b (num_vertices gr)) ||
           (Nat.eqb b v && Nat.ltb a (num_vertices gr))
        then Some infiniteCost else Some w
    | None => None
    end.
Proof.
  unfold invalidate_out_edges.
  destruct (edge_weight gr a b) as [w|] eqn:Hw.
  - destruct (_ || _) eqn:E.
    + apply orb_true_iff in E as [E|E]; apply andb_true_iff in E as [E1 E2];
        apply Nat.eqb_eq in E1; apply Nat.ltb_lt in E2; subst.
      * apply foldl_set_weight_hit. apply elem_of_out_edges. by rewrite Hw.
      * unfold edge_weight at 1. rewrite (edge_key_sym a v).
        apply foldl_set_weight_hit. apply elem_of_out_edges.
        unfold edge_weight in *. by rewrite edge_key_sym, Hw.
    + rewrite foldl_set_weight_miss; [done|].
      intros t Ht Hk. apply elem_of_out_edges in Ht as [Hlt _].
      apply orb_false_iff in E as [E1 E2].
      apply edge_key_eq in Hk as [[<- <-]|[<- <-]].
      * rewrite Nat.eqb_refl in E1. apply Nat.ltb_lt in Hlt. by rewrite Hlt in E1.
      * rewrite Nat.eqb_refl in E2. apply Nat.ltb_lt in Hlt. by rewrite Hlt in E2.
  - rewrite foldl_set_weight_miss; [done|].
    intros t Ht Hk. apply elem_of_out_edges in Ht as [_ [w' Hw']].
    unfold edge_weight in *. rewrite Hk in Hw'. congruence.
Qed.

Lemma is_blacklisted_vertices gr gr' v :
  vertices gr' = vertices gr -> is_blacklisted gr' v = is_blacklisted gr v.
Proof. unfold is_blacklisted. by intros ->. Qed.

Lemma invalidated_vertices gr gr' front a b :
  vertices gr' = vertices gr -> invalidated gr' front a b = invalidated gr front a b.
Proof.
  intros H. unfold invalidated, num_vertices. rewrite H.
  induction front as [|x front IH]; simpl; [done|].
  by rewrite IH, (is_blacklisted_vertices gr gr' x H).
Qed.

Lemma invalidated_app gr l1 l2 a b :
  invalidated gr (l1 ++ l2) a b = invalidated gr l1 a b || invalidated gr l2 a b.
Proof. unfold invalidated. apply existsb_app. Qed.

(** What the walk returns, when it returns. *)
Lemma reconstruct_spec p ufcc fuel : forall v gr acc path gr',
  reconstruct fuel p ufcc v gr acc = Some (path, gr') ->
  vertices gr' = vertices gr /\
  exists front,
    path = front ++ acc /\ last front = Some v /\
    (exists h, head front = Some h /\ p !!! h = h) /\
    linked p front /\
    forall a b,
      edge_weight gr' a b =
        match edge_weight gr a b with
        | Some w => if ufcc && invalidated gr front a b then Some infiniteCost else Some w
        | None => None
        end.
Proof.
  induction fuel as [|fuel IH]; intros v gr acc path gr' Hrec; [done|].
  simpl in Hrec.
  set (gr1 := if ufcc && is_blacklisted gr v then invalidate_out_edges gr v else gr) in *.
  assert (vertices gr1 = vertices gr) as Hv1.
  { subst gr1. destruct (_ && _); [apply invalidate_out_edges_vertices|done]. }
  assert (forall a b, edge_weight gr1 a b =
            match edge_weight gr a b with
            | Some w => if ufcc && invalidated gr [v] a b then Some infiniteCost else Some w
            | None => None
            end) as Hw1.
  { intros a b. subst gr1. unfold invalidated. simpl. rewrite orb_false_r.
    destruct ufcc; simpl.
    - destruct (is_blacklisted gr v); simpl.
      + apply invalidate_out_edges_weight.
      + by destruct (edge_weight gr a b).
    - by destruct (edge_weight gr a b). }
  destruct (decide (p !!! v = v)) as [Hself|Hne].
  - injection Hrec as <- <-. split; [done|]. exists [v].
    split_and!.
    + done.
    + done.
    + by exists v.
    + intros k a b Ha Hb. by destruct k.
    + apply Hw1.
  - apply IH in Hrec as (Hv & front & -> & Hlast & (h & Hh & Hph) & Hlink & Hw).
    split; [congruence|]. exists (front ++ [v]).
    split_and!.
    + by rewrite <- app_assoc.
    + by rewrite last_snoc.
    + exists h. split; [|done]. destruct front; [done|]. done.
    + intros k a b Ha Hb.
      destruct (decide (S k < length front)) as [Hlt|Hge].
      * rewrite lookup_app_l in Ha, Hb by lia. by eapply Hlink.
      * assert (S k = length front) as Hk.
        { apply lookup_lt_Some in Hb. rewrite length_app in Hb. simpl in Hb. lia. }
        rewrite lookup_app_r in Hb by lia. rewrite Hk, Nat.sub_diag in Hb.
        injection Hb as <-.
        rewrite lookup_app_l in Ha by lia.
        rewrite last_lookup in Hlast. rewrite <- Hk in Hlast. simpl in Hlast.
        rewrite Ha in Hlast. injection Hlast as ->. done.
    + intros a b. rewrite Hw, Hw1.
      rewrite invalidated_app, (invalidated_vertices gr gr1 front a b Hv1).
      destruct (edge_weight gr a b) as [w|]; [|done].
      by destruct ufcc, (invalidated gr [v] a b), (invalidated gr front a b).
Qed.

End Reconstruct.

Section ReconstructTotal.
Context {State : Type}.
Implicit Types (gr : GraphT State) (p : list nat) (d : list double).

Lemma before_irrefl d h a : ~ before d h a a.
Proof. intros [H|[_ H]]; [by rewrite less_irrefl in H | lia]. Qed.

Lemma before_trans d h a b c : before d h a b -> before d h b c -> before d h a c.
Proof.
  intros [H1|[H1 H1']] [H2|[H2 H2']].
  - left. by eapply less_trans.
  - left. by eapply less_not_less_trans.
  - left. by eapply not_less_less_trans.
  - right. split; [by eapply not_less_trans | lia].
Qed.

Lemma before_not_less d h a b : before d h a b -> less (d !!! b) (d !!! a) = false.
Proof. intros [H|[H _]]; [by apply less_asym | done]. Qed.

Lemma StronglySorted_before_NoDup d h l :
  StronglySorted (before d h) l -> NoDup l.
Proof.
  induction 1 as [|a l Hs IH Hall]; constructor; [|done].
  intros Hin. rewrite Forall_forall in Hall.
  apply (before_irrefl d h a). by apply Hall.
Qed.

Lemma NoDup_bounded_length (l : list nat) n :
  NoDup l -> (forall x, x ∈ l -> x < n) -> length l <= n.
Proof.
  intros Hnd Hb. trans (length (seq 0 n)); [|by rewrite length_seq].
  apply submseteq_length.
  apply NoDup_submseteq; [done|]. intros x Hx. apply elem_of_seq. specialize (Hb x Hx). lia.
Qed.

(** With maps a search maintains, the walk ends within [n] steps, at a
    vertex that is its own predecessor and whose distance is no larger
    than that of the vertex the walk starts from. *)
Lemma reconstruct_total n s p d h ufcc :
  maps_ok n s p d ->
  (forall v, v < n -> p !!! v <> v -> before d h (p !!! v) v) ->
  forall fuel v gr acc,
    v < n -> (forall x, x ∈ acc -> x < n) ->
    StronglySorted (before d h) (v :: acc) ->
    n <= fuel + length acc ->
    exists path gr', reconstruct fuel p ufcc v gr acc = Some (path, gr').
Proof.
  intros Hok Hch. induction fuel as [|fuel IH]; intros v gr acc Hv Hacc Hs Hfuel.
  - exfalso. apply StronglySorted_before_NoDup in Hs.
    apply (NoDup_bounded_length _ n) in Hs.
    + simpl in *. lia.
    + intros x [->|Hx]%elem_of_cons; auto.
  - simpl. destruct (decide (p !!! v = v)) as [Hself|Hne]; [eauto|].
    apply IH.
    + by apply (mo_range _ _ _ _ Hok).
    + intros x [->|Hx]%elem_of_cons; auto.
    + constructor; [done|]. apply Forall_forall. intros x Hx.
      apply elem_of_cons in Hx as [->|Hx]; [by apply Hch|].
      eapply before_trans; [by apply Hch|].
      apply StronglySorted_inv in Hs as [_ Hall]. rewrite Forall_forall in Hall.
      by apply Hall.
    + simpl. lia.
Qed.

(** Every vertex on a linked path that ends in [v] is at a distance no
    larger than [v]'s. *)
Lemma linked_not_farther n s p d front v :
  maps_ok n s p d -> linked p front -> last front = Some v -> v < n ->
  forall x, x ∈ front -> x < n /\ less (d !!! v) (d !!! x) = false.
Proof.
  intros Hok. destruct (mo_chain _ _ _ _ Hok) as [h Hch].
  revert v. induction front as [|y front IH] using rev_ind; intros v Hl Hlast Hv x Hx.
  { by apply elem_of_nil in Hx. }
  rewrite last_snoc in Hlast. injection Hlast as ->.
  apply elem_of_app in Hx as [Hx|Hx%list_elem_of_singleton].
  2:{ subst. split; [done|apply less_irrefl]. }
  destruct front as [|z front _] using rev_ind; [by apply elem_of_nil in Hx|].
  assert (p !!! v = z /\ p !!! v <> v) as [Hpz Hne].
  { apply (Hl (length front) z v).
    - rewrite <- app_assoc. rewrite lookup_app_r by done. by rewrite Nat.sub_diag.
    - rewrite <- app_assoc. rewrite lookup_app_r by lia.
      by replace (S (length front) - length front) with 1 by lia. }
  assert (z < n) as Hz by (rewrite <- Hpz; by apply (mo_range _ _ _ _ Hok)).
  assert (less (d !!! v) (d !!! z) = false) as Hvz.
  { destruct (Hch v Hv Hne) as [H|[H _]]; rewrite Hpz in H; [by apply less_asym|done]. }
  destruct (IH z) with (x := x) as [Hxn Hzx]; try done.
  - intros k a b Ha Hb. apply (Hl k a b); by apply lookup_app_l_Some.
  - by rewrite last_snoc.
  - split; [done|]. eapply not_less_trans; eassumption.
Qed.

End ReconstructTotal.

Lemma pop_min_None {A} (lt : A -> A -> bool) q : pop_min lt q = None <-> q = [].
Proof.
  destruct q as [|x q]; simpl; [done|].
  destruct (pop_min lt q) as [[y r]|]; [destruct (lt y x)|]; done.
Qed.

Lemma pop_min_perm {A} (lt : A -> A -> bool) q x r :
  pop_min lt q = Some (x, r) -> q ≡ₚ x :: r.
Proof.
  revert x r. induction q as [|a q IH]; intros x r; simpl; [done|].
  destruct (pop_min lt q) as [[y r']|] eqn:E.
  - destruct (lt y a); intros [= <- <-]; [|done].
    rewrite (IH y r' eq_refl). apply Permutation_swap.
  - intros [= <- <-]. apply pop_min_None in E. by subst.
Qed.

Lemma sum_list_with_insert {A} (f : A -> nat) l i x y :
  l !! i = Some x ->
  sum_list_with f (<[i := y]> l) + f x = sum_list_with f l + f y.
Proof.
  revert i. induction l as [|a l IH]; intros [|i] H; simpl in *; try done.
  - injection H as ->. lia.
  - specialize (IH i H). lia.
Qed.

Lemma lookup_total_Some {A} `{Inhabited A} (l : list A) i :
  i < length l -> l !! i = Some (l !!! i).
Proof. intros Hi. by apply list_lookup_lookup_total_lt. Qed.

Section Dijkstra.
Context {State : Type}.
Variable gr : GraphT State.
Variable s goal : nat.

Local Abbreviation n := (num_vertices gr).

Lemma dijkstra_init_inv : s < n -> dijkstra_inv gr s (dijkstra_init gr s).
Proof.
  intros Hs. unfold dijkstra_inv, dijkstra_init. simpl. split_and!.
  - by apply maps_ok_init.
  - by rewrite length_insert, length_replicate.
  - apply NoDup_singleton.
  - intros v ->%list_elem_of_singleton. split; [done|].
    apply list_lookup_total_insert_eq. by rewrite length_replicate.
Qed.

(** The loop over the out-edges of [u] keeps the invariant, leaves [u]
    gray and out of the queue, and finishes no vertex. *)
Lemma dijkstra_out_edges_inv u targets : forall st,
  u < n -> (forall v, v ∈ targets -> v < n) ->
  dijkstra_inv gr s st -> dj_color st !!! u = gray_color -> u ∉ dj_queue st ->
  match dijkstra_out_edges gr u targets st with
  | Some st' =>
      dijkstra_inv gr s st' /\ dj_color st' !!! u = gray_color /\ (u ∉ dj_queue st') /\
      unfinished (dj_color st') = unfinished (dj_color st)
  | None => True
  end.
Proof.
  induction targets as [|v rest IH]; intros st Hu Ht Hinv Hcu Hnq;
    cbn [dijkstra_out_edges]; [done|].
  destruct (less (closed_plus zero (default DblMax (edge_weight gr u v))) zero)
    eqn:Hneg; [done|].
  apply closed_plus_zero_nonneg in Hneg.
  assert (v < n) as Hv by (apply Ht; by left).
  assert (forall x, x ∈ rest -> x < n) as Ht' by (intros; apply Ht; by right).
  destruct Hinv as (Hok & Hlc & Hnd & Hq).
  destruct (relax_target_spec n s (dj_pred st) (dj_dist st) u v
              (default DblMax (edge_weight gr u v)) Hok Hu Hv Hneg)
    as (dec & p' & d' & Hrel & Hok' & _).
  destruct (dj_color st !!! v) eqn:Hcv.
  - rewrite Hrel.
    assert (v <> u) as Hvu by (intros ->; congruence).
    assert (v ∉ dj_queue st) as Hvq.
    { intros Hin. destruct (Hq v Hin) as [_ Hg]. congruence. }
    match goal with |- match dijkstra_out_edges _ _ _ ?st1 with _ => _ end =>
      specialize (IH st1 Hu Ht') end.
    cbn [dj_pred dj_dist dj_color dj_queue] in IH.
    assert (unfinished (<[v:=gray_color]> (dj_color st)) = unfinished (dj_color st)) as Hsame.
    { pose proof (sum_list_with_insert
        (fun x => match x with black_color => 0 | _ => 1 end)
        (dj_color st) v white_color gray_color) as Hsum.
      unfold unfinished. rewrite lookup_total_Some in Hsum by lia.
      rewrite Hcv in Hsum. specialize (Hsum eq_refl). lia. }
    rewrite Hsame in IH. apply IH; unfold dijkstra_inv;
      cbn [dj_pred dj_dist dj_color dj_queue].
    + split_and!; [done|by rewrite length_insert| |].
      * apply NoDup_app. split_and!; [done| |apply NoDup_singleton].
        intros x Hx ->%list_elem_of_singleton. done.
      * intros x [Hx|Hx%list_elem_of_singleton]%elem_of_app; [|subst x].
        -- destruct (Hq x Hx) as [Hxn Hxg]. split; [done|].
           rewrite list_lookup_total_insert_ne; [done|]. intros ->. done.
        -- split; [done|]. apply list_lookup_total_insert_eq. lia.
    + by rewrite list_lookup_total_insert_ne.
    + intros [Hx|Hx%list_elem_of_singleton]%elem_of_app; done.
  - rewrite Hrel.
    match goal with |- match dijkstra_out_edges _ _ _ ?st1 with _ => _ end =>
      specialize (IH st1 Hu Ht') end.
    cbn [dj_pred dj_dist dj_color dj_queue] in IH. by apply IH.
  - by apply IH.
Qed.

Lemma unfinished_le c : unfinished c <= length c.
Proof.
  unfold unfinished. induction c as [|x c IH]; simpl; [done|]. destruct x; lia.
Qed.

Lemma out_edges_lt u v : v ∈ out_edges gr u -> v < n.
Proof. by intros [? _]%elem_of_out_edges. Qed.

Lemma dijkstra_loop_spec fuel : forall st nv ex,
  dijkstra_inv gr s st -> goal ∉ ex ->
  match dijkstra_loop fuel gr goal st nv ex with
  | Exhausted sd =>
      graph sd = gr /\ maps_ok n s (predecessor sd) (distance sd) /\
      goal ∉ examined sd
  | Found sd =>
      graph sd = gr /\ maps_ok n s (predecessor sd) (distance sd) /\
      goal < n /\ exists ex', examined sd = goal :: ex' /\ goal ∉ ex'
  | NegativeEdge => True
  | Running => fuel <= unfinished (dj_color st)
  end.
Proof.
  induction fuel as [|fuel IH]; intros st nv ex Hinv Hex; cbn [dijkstra_loop]; [lia|].
  destruct (dijkstra_pop st) as [[u q']|] eqn:Hpop.
  2:{ destruct Hinv as (Hok & _). done. }
  apply pop_min_perm in Hpop.
  destruct Hinv as (Hok & Hlc & Hnd & Hq).
  assert (u ∈ dj_queue st) as Huq by (rewrite Hpop; by left).
  destruct (Hq u Huq) as [Hu Hcu].
  rewrite Hpop in Hnd. apply NoDup_cons in Hnd as [Hnq Hnd'].
  unfold examine_vertex. destruct (decide (u = goal)) as [->|Hne].
  { cbn. split_and!; try done. by exists ex. }
  pose proof (dijkstra_out_edges_inv u (out_edges gr u)
    (mkDijkstraState (dj_pred st) (dj_dist st) (dj_color st) q') Hu
    (out_edges_lt u)) as Hedges.
  cbn [dj_pred dj_dist dj_color dj_queue] in Hedges.
  destruct (dijkstra_out_edges gr u (out_edges gr u) _) as [st'|]; [|done].
  destruct Hedges as ((Hok' & Hlc' & Hnd'' & Hq') & Hcu' & Hnq' & Hun); try done.
  { split_and!; try done. intros v Hv. apply Hq. rewrite Hpop. by right. }
  assert (dijkstra_inv gr s (mkDijkstraState (dj_pred st') (dj_dist st')
            (<[u:=black_color]> (dj_color st')) (dj_queue st'))) as Hinv1.
  { unfold dijkstra_inv. cbn [dj_pred dj_dist dj_color dj_queue].
    split_and!; [done|by rewrite length_insert|done|].
    intros v Hv. destruct (Hq' v Hv) as [Hvn Hvg]. split; [done|].
    rewrite list_lookup_total_insert_ne; [done|]. by intros ->. }
  assert (goal ∉ u :: ex) as Hex1 by (by apply not_elem_of_cons).
  specialize (IH _ (S nv) _ Hinv1 Hex1).
  cbn [dj_pred dj_dist dj_color dj_queue] in IH.
  assert (unfinished (<[u:=black_color]> (dj_color st')) + 1 = unfinished (dj_color st'))
    as Hdec.
  { pose proof (sum_list_with_insert
      (fun x => match x with black_color => 0 | _ => 1 end)
      (dj_color st') u gray_color black_color) as Hsum.
    unfold unfinished. rewrite lookup_total_Some in Hsum by lia.
    rewrite Hcu' in Hsum. specialize (Hsum eq_refl). lia. }
  destruct (dijkstra_loop fuel gr goal _ _ _); try done.
  cbn [dj_color] in *. lia.
Qed.

(** The search from [s] ends before its budget does when the budget
    exceeds the number of vertices. *)
Lemma dijkstra_shortest_paths_spec fuel :
  s < n ->
  match dijkstra_shortest_paths fuel gr s goal with
  | Exhausted sd =>
      graph sd = gr /\ maps_ok n s (predecessor sd) (distance sd) /\
      goal ∉ examined sd
  | Found sd =>
      graph sd = gr /\ maps_ok n s (predecessor sd) (distance sd) /\
      goal < n /\ exists ex', examined sd = goal :: ex' /\ goal ∉ ex'
  | NegativeEdge => True
  | Running => fuel <= n
  end.
Proof.
  intros Hs. unfold dijkstra_shortest_paths.
  pose proof (dijkstra_loop_spec fuel (dijkstra_init gr s) 0 []
                (dijkstra_init_inv Hs) (not_elem_of_nil goal)) as H.
  destruct (dijkstra_loop fuel gr goal _ _ _); try done.
  etrans; [apply H|]. etrans; [apply unfinished_le|].
  unfold dijkstra_init. cbn [dj_color]. by rewrite length_insert, length_replicate.
Qed.

End Dijkstra.

(** ** Why the tree search ends: distances are weights of simple paths *)

Section Potential.
Context {State : Type}.
Variable gr : GraphT State.
Local Abbreviation n := (num_vertices gr).

Lemma less_plus_finite0 (a e b : double) :
  less (closed_plus a e) b = true -> a <> PosInf -> b <> PosInf ->
  less a DblMax = true.
Proof. by destruct a, e, b. Qed.

Lemma wt_sym u v : wt gr u v = wt gr v u.
Proof. unfold wt, edge_weight. by rewrite edge_key_sym. Qed.

Lemma closed_plus_fin a e : less (closed_plus a e) DblMax = true -> less a DblMax = true.
Proof. by destruct a, e. Qed.

Lemma path_weight_step v u rest :
  path_weight gr (v :: u :: rest) = closed_plus (path_weight gr (u :: rest)) (wt gr u v).
Proof. done. Qed.

Lemma path_ok_dominates d rp :
  path_ok gr d rp -> less (path_weight gr rp) DblMax = true ->
  forall x, x ∈ rp -> less (path_weight gr rp) (d !!! x) = false.
Proof.
  induction rp as [|v rest IH]; intros Hok Hfin x Hx; [by apply elem_of_nil in Hx|].
  destruct Hok as (Hd & Hstep & Hrest).
  apply elem_of_cons in Hx as [->|Hx]; [done|].
  destruct rest as [|u rest]; [by apply elem_of_nil in Hx|].
  rewrite path_weight_step in *.
  assert (less (path_weight gr (u :: rest)) DblMax = true) as Hfin'
    by (by eapply closed_plus_fin).
  eapply not_less_trans; [by apply IH|].
  apply closed_plus_ge; [|done]. intros E. by rewrite E in Hfin'.
Qed.

Lemma path_ok_mono d d' rp :
  (forall x, x ∈ rp -> less (d !!! x) (d' !!! x) = false) ->
  path_ok gr d rp -> path_ok gr d' rp.
Proof.
  induction rp as [|v rest IH]; intros Hle Hok; [done|].
  destruct Hok as (Hd & Hstep & Hrest). split_and!; [|done|].
  - eapply not_less_trans; [|exact Hd]. apply Hle. by left.
  - apply IH; [|done]. intros x Hx. apply Hle. by right.
Qed.

Lemma elem_of_all_lists k l :
  length l <= k -> (forall x, x ∈ l -> x < n) -> l ∈ all_lists n k.
Proof.
  revert l. induction k as [|k IH]; intros [|x l] Hlen Hb; cbn in *; try lia.
  - by left.
  - by left.
  - right. apply list_elem_of_In, in_flat_map. exists l. split.
    + apply list_elem_of_In, IH; [lia|]. intros y Hy. apply Hb. by right.
    + apply (in_map (fun y => y :: l)), in_seq.
      assert (x < n) by (apply Hb; by left). lia.
Qed.

Lemma simple_path_weight_listed d v rp :
  simple_path gr d v rp -> d !!! v ∈ path_weights gr.
Proof.
  intros (_ & Hnd & Hb & -> & _). unfold path_weights.
  apply list_elem_of_fmap. exists rp. split; [done|].
  apply elem_of_all_lists; [|done]. by apply NoDup_bounded_length.
Qed.

Lemma count_less_strict (x y : double) :
  y ∈ path_weights gr -> less y x = true -> count_less gr y < count_less gr x.
Proof.
  unfold count_less. generalize (path_weights gr). intros V Hin Hlt.
  assert (forall z, (if less z y then 1 else 0) <= (if less z x then 1 else 0)) as Hle.
  { intros z. destruct (less z y) eqn:E; [|destruct (less z x); lia].
    by rewrite (less_trans z y x). }
  induction V as [|z V IH]; [by apply elem_of_nil in Hin|]. cbn.
  assert (sum_list_with (fun z => if less z y then 1 else 0) V <=
          sum_list_with (fun z => if less z x then 1 else 0) V) as Hsum.
  { clear IH Hin. induction V as [|z' V IH]; cbn; [done|]. specialize (Hle z'). lia. }
  apply elem_of_cons in Hin as [->|Hin].
  - rewrite less_irrefl, Hlt. lia.
  - specialize (IH Hin). specialize (Hle z). lia.
Qed.

(** One relaxation keeps the distances weights of simple paths and
    lowers the potential gr. *)
Lemma relax_potential s p d a b :
  maps_ok n s p d -> distances_are_paths gr d -> a < n -> b < n ->
  less (wt gr a b) zero = false ->
  less (closed_plus (d !!! a) (wt gr a b)) (d !!! b) = true ->
  distances_are_paths gr (<[b := closed_plus (d !!! a) (wt gr a b)]> d) /\
  potential gr (<[b := closed_plus (d !!! a) (wt gr a b)]> d) < potential gr d.
Proof.
  intros Hok Hsp Ha Hb Hw Hlt.
  set (new := closed_plus (d !!! a) (wt gr a b)) in *.
  pose proof (mo_len_d _ _ _ _ Hok) as Hld.
  assert (less (d !!! a) DblMax = true) as Hfa.
  { eapply less_plus_finite0; [exact Hlt|..]; by apply (mo_not_posinf _ _ _ _ Hok). }
  destruct (Hsp a Ha) as [Hmax|(rpa & Hhd & Hnd & Hbd & Hda & Hpok)].
  { rewrite Hmax in Hfa. done. }
  assert (forall v, (<[b := new]> d) !!! v = if decide (v = b) then new else d !!! v) as Hd'.
  { intros v. rewrite list_lookup_total_insert, Hld.
    destruct (decide (v = b)) as [->|Hne].
    - by rewrite decide_True.
    - by rewrite decide_False by (intros [? _]; congruence). }
  assert (forall x, less (d !!! x) ((<[b := new]> d) !!! x) = false) as Hmono.
  { intros x. rewrite Hd'. case_decide as E; [subst x; by apply less_asym|apply less_irrefl]. }
  assert (b ∉ rpa) as Hnin.
  { intros Hin. pose proof (path_ok_dominates d rpa Hpok) as Hdom.
    rewrite <- Hda in Hdom. specialize (Hdom Hfa b Hin).
    assert (less new (d !!! a) = true) as Hc
      by (eapply less_not_less_trans; eassumption).
    unfold new in Hc. rewrite closed_plus_ge in Hc; [done| |done].
    by apply (mo_not_posinf _ _ _ _ Hok). }
  assert (new = path_weight gr (b :: rpa)) as Hnew.
  { destruct rpa as [|a' rpa]; [done|]. injection Hhd as ->.
    rewrite path_weight_step. unfold new. by rewrite Hda. }
  assert (simple_path gr (<[b := new]> d) b (b :: rpa)) as Hspb.
  { split_and!.
    - done.
    - by constructor.
    - intros x [->|Hx]%elem_of_cons; auto.
    - by rewrite Hd', decide_True.
    - split_and!.
      + rewrite Hd', decide_True by done. rewrite <- Hnew. apply less_irrefl.
      + destruct rpa as [|a' rpa]; [done|]. by injection Hhd as ->.
      + eapply path_ok_mono; [|exact Hpok]. intros; apply Hmono. }
  split.
  - intros v Hv. destruct (decide (v = b)) as [->|Hne]; [right; eauto|].
    destruct (Hsp v Hv) as [Hmax|(rp & ? & ? & ? & Hdv & ?)].
    + left. by rewrite Hd', decide_False.
    + right. exists rp. split_and!; try done.
      * by rewrite Hd', decide_False.
      * eapply path_ok_mono; [|eassumption]. intros; apply Hmono.
  - unfold potential.
    pose proof (sum_list_with_insert (count_less gr) d b (d !!! b) new) as Hsum.
    rewrite lookup_total_Some in Hsum by lia. specialize (Hsum eq_refl).
    assert (count_less gr new < count_less gr (d !!! b)); [|lia].
    apply count_less_strict; [|done].
    pose proof (simple_path_weight_listed _ _ _ Hspb) as Hin.
    by rewrite Hd', decide_True in Hin.
Qed.

End Potential.


(** ** Why Dijkstra's distances are shortest *)

Lemma closed_plus_mono (a b w : double) :
  w <> PosInf -> less b a = false ->
  less (closed_plus b w) (closed_plus a w) = false.
Proof.
  destruct a, b, w; simpl; try done.
  rewrite !Qltb_ge. intros _ H. lra.
Qed.

Lemma closed_plus_not_posinf (a w : double) :
  a <> PosInf -> w <> PosInf -> closed_plus a w <> PosInf.
Proof. by destruct a, w. Qed.

Lemma less_DblMax_false (a : double) : a <> PosInf -> less DblMax a = false.
Proof. by destruct a. Qed.

(** The entry [pop_min] takes is a least one. *)
Lemma pop_min_least {A} (lt : A -> A -> bool) q x r :
  (forall a b, lt a b = true -> lt b a = false) ->
  (forall a b c, lt b a = false -> lt c b = false -> lt c a = false) ->
  pop_min lt q = Some (x, r) -> forall y, y ∈ q -> lt y x = false.
Proof.
  intros Hasym Htrans.
  assert (forall a, lt a a = false) as Hirr.
  { intros a. destruct (lt a a) eqn:E; [|done]. by rewrite (Hasym a a E) in E. }
  revert x r. induction q as [|a q IH]; intros x r; simpl; [done|].
  destruct (pop_min lt q) as [[m r']|] eqn:E.
  - specialize (IH m r' eq_refl).
    destruct (lt m a) eqn:Hma; intros [= <- <-] y [->|Hy]%elem_of_cons; auto.
    eapply Htrans; [exact Hma|]. auto.
  - intros [= <- <-] y Hy. apply pop_min_None in E. subst q.
    apply list_elem_of_singleton in Hy. by subst y.
Qed.

Section DijkstraOptimal.
Context {State : Type}.
Variable gr : GraphT State.
Variable s goal : nat.
Hypothesis weights : weights_ok gr.

Local Abbreviation n := (num_vertices gr).

Lemma wt_nonneg u v : less (wt gr u v) zero = false.
Proof.
  unfold wt. destruct (edge_weight gr u v) as [w|] eqn:E; [|done].
  by destruct (weights u v w E).
Qed.

Lemma wt_not_posinf u v : wt gr u v <> PosInf.
Proof.
  unfold wt. destruct (edge_weight gr u v) as [w|] eqn:E; [|done].
  by destruct (weights u v w E).
Qed.

Lemma path_weight_not_posinf rp : path_weight gr rp <> PosInf.
Proof.
  induction rp as [|v [|u rest] IH]; [done..|].
  rewrite path_weight_step. apply closed_plus_not_posinf; [done|apply wt_not_posinf].
Qed.

(** A walk extended by one step. *)
Lemma walk_step u v rp :
  v < n -> walk gr s u rp -> walk gr s v (v :: rp) /\
  path_weight gr (v :: rp) = closed_plus (path_weight gr rp) (wt gr u v).
Proof.
  intros Hv (Hhd & Hlast & Hin).
  destruct rp as [|u' rest]; [done|]. injection Hhd as ->.
  split; [|done]. split_and!; [done|done|].
  intros x [->|Hx]%elem_of_cons; auto.
Qed.

Lemma walk_source : s < n -> walk gr s s [s] /\ path_weight gr [s] = zero.
Proof.
  intros Hs. split; [|done]. split_and!; [done..|].
  by intros x ->%list_elem_of_singleton.
Qed.

(** Along a walk from the source there is a vertex whose distance is no
    more than the weight of the walk, which is the end of the walk or a
    vertex that is not black. *)
Lemma lower_frontier (c : list default_color_type) (d : list double) :
  d !!! s = zero ->
  (forall v, v < n -> d !!! v <> PosInf) ->
  (forall v t, v < n -> t < n -> c !!! v = black_color ->
     less (closed_plus (d !!! v) (wt gr v t)) (d !!! t) = false) ->
  forall rp y, walk gr s y rp ->
    less (path_weight gr rp) (d !!! y) = false \/
    exists z, z < n /\ c !!! z <> black_color /\
              less (path_weight gr rp) (d !!! z) = false.
Proof.
  intros Hds Hnp Hblack. induction rp as [|v rest IH]; intros y (Hhd & Hlast & Hin);
    [done|]. injection Hhd as ->.
  destruct rest as [|u rest].
  { injection Hlast as ->. left. rewrite Hds. done. }
  assert (walk gr s u (u :: rest)) as Hw.
  { split_and!; [done|done|]. intros x Hx. apply Hin. by right. }
  assert (y < n) as Hy by (apply Hin; by left).
  assert (u < n) as Hu by (apply Hin; right; by left).
  rewrite path_weight_step.
  assert (forall a, less (path_weight gr (u :: rest)) a = false ->
            less (closed_plus (path_weight gr (u :: rest)) (wt gr u y)) a = false) as Hup.
  { intros a Ha. eapply not_less_trans; [exact Ha|].
    apply closed_plus_ge; [apply path_weight_not_posinf|apply wt_nonneg]. }
  destruct (IH u Hw) as [Hle | (z & Hz & Hcz & Hle)].
  - destruct (c !!! u) eqn:Hb.
    + right. exists u. rewrite Hb. split_and!; auto.
    + right. exists u. rewrite Hb. split_and!; auto.
    + left. eapply not_less_trans; [apply (Hblack u y Hu Hy Hb)|].
      apply closed_plus_mono; [apply wt_not_posinf|done].
  - right. exists z. split_and!; auto.
Qed.


Lemma dijkstra_out_edges_cons u v rest st :
  dijkstra_out_edges gr u (v :: rest) st =
    match dijkstra_out_edges gr u [v] st with
    | Some st1 => dijkstra_out_edges gr u rest st1
    | None => None
    end.
Proof.
  cbn [dijkstra_out_edges].
  destruct (less (closed_plus zero (default DblMax (edge_weight gr u v))) zero); [done|].
  destruct (dj_color st !!! v); [| |done];
    by destruct (relax_target u v _ (dj_pred st) (dj_dist st)) as [[? ?] ?].
Qed.

(** What one relaxation does to the distances. *)
Lemma relax_target_opt u v p d :
  maps_ok n s p d -> u < n -> v < n ->
  (forall x, x < n -> d !!! x = DblMax \/
     exists rp, walk gr s x rp /\ path_weight gr rp = d !!! x) ->
  exists dec p' d', relax_target u v (wt gr u v) p d = (dec, p', d') /\
    d' !!! u = d !!! u /\
    (forall t, less (d !!! t) (d' !!! t) = false) /\
    (forall t, t <> v -> d' !!! t = d !!! t) /\
    less (closed_plus (d !!! u) (wt gr u v)) (d' !!! v) = false /\
    (forall x, x < n -> d' !!! x = DblMax \/
       exists rp, walk gr s x rp /\ path_weight gr rp = d' !!! x).
Proof.
  intros Hok Hu Hv HU.
  destruct (relax_target_spec n s p d u v (wt gr u v) Hok Hu Hv (wt_nonneg u v))
    as (dec & p' & d' & Hrel & _ & [(_ & _ & -> & Hno) | (_ & _ & -> & Hyes)]);
    do 3 eexists; (split; [exact Hrel|]).
  - split_and!; auto using less_irrefl.
  - assert (v <> u) as Hvu.
    { intros ->. rewrite closed_plus_ge in Hyes; [done| |apply wt_nonneg].
      by apply (mo_not_posinf _ _ _ _ Hok). }
    assert (v < length d) as Hvd by (by rewrite (mo_len_d _ _ _ _ Hok)).
    assert (forall t, t <> v ->
              <[v := closed_plus (d !!! u) (wt gr u v)]> d !!! t = d !!! t) as Hne.
    { intros t Ht. by apply list_lookup_total_insert_ne. }
    assert (<[v := closed_plus (d !!! u) (wt gr u v)]> d !!! v =
              closed_plus (d !!! u) (wt gr u v)) as Heq.
    { by apply list_lookup_total_insert_eq. }
    split_and!.
    + apply Hne. done.
    + intros t. destruct (decide (t = v)) as [->|Ht].
      * rewrite Heq. by apply less_asym.
      * rewrite Hne by done. apply less_irrefl.
    + exact Hne.
    + rewrite Heq. apply less_irrefl.
    + intros x Hx. destruct (decide (x = v)) as [->|Hxv].
      * rewrite Heq. destruct (HU u Hu) as [E | (rp & Hw & E)].
        -- left. by rewrite E.
        -- right. exists (v :: rp).
           destruct (walk_step u v rp Hv Hw) as [Hw' E']. split; [done|].
           by rewrite E', E.
      * rewrite Hne by done. by apply HU.
Qed.

(** A state in which distances have dropped, no vertex has become black
    and the gray ones wait in the queue keeps the invariant. *)
Lemma opt_inv_relaxed u v st ex p' d' c' q' :
  dijkstra_opt_inv gr s [u] st ex ->
  (forall t, less (dj_dist st !!! t) (d' !!! t) = false) ->
  (forall t, t <> v -> d' !!! t = dj_dist st !!! t) ->
  dj_color st !!! v <> black_color ->
  (forall x, x < n -> d' !!! x = DblMax \/
     exists rp, walk gr s x rp /\ path_weight gr rp = d' !!! x) ->
  (forall x, x < n -> c' !!! x = gray_color -> x ∈ q' \/ x ∈ [u]) ->
  (forall x, x < n -> c' !!! x = white_color ->
     dj_color st !!! x = white_color /\ x <> v) ->
  (forall x, x < n -> c' !!! x = black_color -> dj_color st !!! x = black_color) ->
  dijkstra_opt_inv gr s [u] (mkDijkstraState p' d' c' q') ex.
Proof.
  intros (Hgray & Hwhite & Hblack & Hedge & HU & HE) Hle Hne Hcv HU' Hg' Hw' Hb'.
  unfold dijkstra_opt_inv. cbn [dj_pred dj_dist dj_color dj_queue]. split_and!.
  - exact Hg'.
  - intros x Hx Hc. destruct (Hw' x Hx Hc) as [Hc0 Hxv].
    rewrite Hne by done. auto.
  - intros x Hx Hc. auto.
  - intros x t Hx Ht Hc. apply Hb' in Hc; [|done].
    assert (x <> v) as Hxv by (intros ->; done).
    rewrite (Hne x Hxv). eapply not_less_trans; [apply Hle|]. by apply Hedge.
  - exact HU'.
  - intros x rp Hx Hw. eapply not_less_trans; [apply Hle|]. by apply HE.
Qed.

(** The examination of the edge from [u] to [v]. *)
Lemma dijkstra_edge_opt u v st ex :
  u < n -> v < n -> u ∈ ex ->
  dijkstra_inv gr s st -> dj_color st !!! u = gray_color ->
  dijkstra_opt_inv gr s [u] st ex ->
  match dijkstra_out_edges gr u [v] st with
  | Some st' =>
      dijkstra_opt_inv gr s [u] st' ex /\
      dj_dist st' !!! u = dj_dist st !!! u /\
      (forall t, less (dj_dist st !!! t) (dj_dist st' !!! t) = false) /\
      less (closed_plus (dj_dist st !!! u) (wt gr u v)) (dj_dist st' !!! v) = false
  | None => True
  end.
Proof.
  intros Hu Hv Huex (Hok & Hlc & Hnd & Hq) Hcu Hopt. cbn [dijkstra_out_edges].
  change (default DblMax (edge_weight gr u v)) with (wt gr u v).
  destruct (less (closed_plus zero (wt gr u v)) zero); [done|].
  pose proof Hopt as (Hgray & Hwhite & Hblack & Hedge & HU & HE).
  destruct (relax_target_opt u v (dj_pred st) (dj_dist st) Hok Hu Hv HU)
    as (dec & p' & d' & Hrel & Hdu & Hle & Hne & Hdv & HU').
  destruct (dj_color st !!! v) eqn:Hcv.
  - rewrite Hrel. cbn [dj_dist]. split_and!; try done.
    apply (opt_inv_relaxed u v st ex); try done.
    + by rewrite Hcv.
    + intros x Hx Hc. destruct (decide (x = v)) as [->|Hxv].
      * left. apply elem_of_app. right. by apply list_elem_of_singleton.
      * rewrite list_lookup_total_insert_ne in Hc by done.
        destruct (Hgray x Hx Hc) as [Hin|Hin]; [left|by right].
        apply elem_of_app. by left.
    + intros x Hx Hc. destruct (decide (x = v)) as [->|Hxv].
      * rewrite list_lookup_total_insert_eq in Hc by lia. done.
      * by rewrite list_lookup_total_insert_ne in Hc.
    + intros x Hx Hc. destruct (decide (x = v)) as [->|Hxv].
      * rewrite list_lookup_total_insert_eq in Hc by lia. done.
      * by rewrite list_lookup_total_insert_ne in Hc.
  - rewrite Hrel. cbn [dj_dist]. split_and!; try done.
    apply (opt_inv_relaxed u v st ex); try done.
    + by rewrite Hcv.
    + intros x Hx Hc. split; [done|]. intros ->. congruence.
  - split_and!; [done|done|intros; apply less_irrefl|].
    assert (v ∈ ex) as Hvex by auto.
    destruct (HU u Hu) as [E | (rp & Hw & E)].
    + rewrite E. simpl. apply less_DblMax_false.
      by apply (mo_not_posinf _ _ _ _ Hok).
    + destruct (walk_step u v rp Hv Hw) as [Hw' E'].
      rewrite <- E, <- E'. by apply HE.
Qed.

(** The loop over the out-edges of [u]: afterwards no edge out of [u] can
    lower a distance. *)
Lemma dijkstra_out_edges_opt u targets : forall st ex,
  u < n -> (forall v, v ∈ targets -> v < n) -> u ∈ ex ->
  dijkstra_inv gr s st -> dj_color st !!! u = gray_color -> u ∉ dj_queue st ->
  dijkstra_opt_inv gr s [u] st ex ->
  match dijkstra_out_edges gr u targets st with
  | Some st' =>
      dijkstra_opt_inv gr s [u] st' ex /\
      forall t,
        t ∈ targets \/
        less (closed_plus (dj_dist st !!! u) (wt gr u t)) (dj_dist st !!! t) = false ->
        less (closed_plus (dj_dist st' !!! u) (wt gr u t)) (dj_dist st' !!! t) = false
  | None => True
  end.
Proof.
  induction targets as [|v rest IH]; intros st ex Hu Ht Huex Hinv Hcu Hnq Hopt.
  { cbn [dijkstra_out_edges]. split; [done|].
    intros t [Hin|Hle]; [by apply elem_of_nil in Hin|done]. }
  assert (v < n) as Hv by (apply Ht; by left).
  assert (forall x, x ∈ rest -> x < n) as Ht' by (intros; apply Ht; by right).
  rewrite dijkstra_out_edges_cons.
  pose proof (dijkstra_edge_opt u v st ex Hu Hv Huex Hinv Hcu Hopt) as Hedge.
  pose proof (dijkstra_out_edges_inv gr s u [v] st Hu) as Hstep.
  destruct (dijkstra_out_edges gr u [v] st) as [st1|]; [|done].
  destruct Hedge as (Hopt1 & Hdu & Hle & Hdv).
  destruct Hstep as (Hinv1 & Hcu1 & Hnq1 & _); try done.
  { by intros x ->%list_elem_of_singleton. }
  specialize (IH st1 ex Hu Ht' Huex Hinv1 Hcu1 Hnq1 Hopt1).
  destruct (dijkstra_out_edges gr u rest st1) as [st'|]; [|done].
  destruct IH as [Hopt' Hdone]. split; [done|].
  intros t [[->|Hin]%elem_of_cons | Hold].
  - apply Hdone. right. by rewrite Hdu.
  - apply Hdone. by left.
  - apply Hdone. right. rewrite Hdu.
    eapply not_less_trans; [apply Hle|done].
Qed.


Lemma dijkstra_init_opt : s < n -> dijkstra_opt_inv gr s [] (dijkstra_init gr s) [].
Proof.
  intros Hs. unfold dijkstra_opt_inv, dijkstra_init.
  cbn [dj_pred dj_dist dj_color dj_queue].
  assert (forall v, v < n ->
            <[s := gray_color]> (replicate n white_color) !!! v =
            if decide (v = s) then gray_color else white_color) as Hc.
  { intros v Hv. destruct (decide (v = s)) as [->|Hne].
    - apply list_lookup_total_insert_eq. by rewrite length_replicate.
    - rewrite list_lookup_total_insert_ne by done.
      by apply lookup_total_replicate_2. }
  assert (forall v, v < n -> (<[s := zero]> (replicate n DblMax)) !!! v =
            if decide (v = s) then zero else DblMax) as Hd.
  { intros v Hv. destruct (decide (v = s)) as [->|Hne].
    - apply list_lookup_total_insert_eq. by rewrite length_replicate.
    - rewrite list_lookup_total_insert_ne by done.
      by apply lookup_total_replicate_2. }
  split_and!.
  - intros v Hv. rewrite Hc by done. case_decide; [|done].
    intros _. left. by apply list_elem_of_singleton.
  - intros v Hv. rewrite Hc, Hd by done. by case_decide.
  - intros v Hv. rewrite Hc by done. by case_decide.
  - intros v t Hv _. rewrite Hc by done. by case_decide.
  - intros v Hv. rewrite Hd by done. case_decide; [subst v|by left].
    right. exists [s]. by apply walk_source.
  - intros v rp Hin. by apply elem_of_nil in Hin.
Qed.

(** Dijkstra's loop: when it ends, the distance of every vertex it took
    from the queue is a lower bound on the weight of the walks to that
    vertex, and every distance is the initial one or the weight of a
    walk. *)
Lemma dijkstra_loop_opt fuel : forall st nv ex,
  dijkstra_inv gr s st -> dijkstra_opt_inv gr s [] st ex ->
  (forall v, v ∈ ex -> v < n) ->
  match dijkstra_loop fuel gr goal st nv ex with
  | Exhausted sd | Found sd =>
      (forall v, v ∈ examined sd -> v < n) /\
      (forall v rp, v ∈ examined sd -> walk gr s v rp ->
         less (path_weight gr rp) (distance sd !!! v) = false) /\
      (forall v, v < n -> distance sd !!! v = DblMax \/
         exists rp, walk gr s v rp /\ path_weight gr rp = distance sd !!! v)
  | NegativeEdge | Running => True
  end.
Proof.
  induction fuel as [|fuel IH]; intros st nv ex Hinv Hopt Hexn;
    cbn [dijkstra_loop]; [done|].
  pose proof Hopt as (Hgray & Hwhite & Hblack & Hedge & HU & HE).
  destruct (dijkstra_pop st) as [[u q']|] eqn:Hpop; [|done].
  pose proof (pop_min_least _ _ _ _
    (fun a b => less_asym (dj_dist st !!! a) (dj_dist st !!! b))
    (fun a b c => not_less_trans (dj_dist st !!! a) (dj_dist st !!! b) (dj_dist st !!! c))
    Hpop) as Hmin.
  apply pop_min_perm in Hpop.
  destruct Hinv as (Hok & Hlc & Hnd & Hq).
  assert (u ∈ dj_queue st) as Huq by (rewrite Hpop; by left).
  destruct (Hq u Huq) as [Hu Hcu].
  rewrite Hpop in Hnd. apply NoDup_cons in Hnd as [Hnq Hnd'].
  assert (forall v, v < n -> dj_dist st !!! v <> PosInf) as Hnp
    by (apply (mo_not_posinf _ _ _ _ Hok)).
  (* no walk to [u] weighs less than its distance *)
  assert (forall rp, walk gr s u rp ->
            less (path_weight gr rp) (dj_dist st !!! u) = false) as Hlow.
  { intros rp Hw.
    destruct (lower_frontier (dj_color st) (dj_dist st)
                (proj2 (proj2 (mo_start _ _ _ _ Hok))) Hnp Hedge rp u Hw)
      as [Hle | (z & Hz & Hcz & Hle)]; [done|].
    eapply not_less_trans; [|exact Hle].
    destruct (dj_color st !!! z) eqn:Hc; [| |done].
    - rewrite (Hwhite z Hz Hc). apply less_DblMax_false. auto.
    - destruct (Hgray z Hz Hc) as [Hin|Hin]; [|by apply elem_of_nil in Hin].
      by apply Hmin. }
  set (st0 := mkDijkstraState (dj_pred st) (dj_dist st) (dj_color st) q').
  assert (dijkstra_opt_inv gr s [u] st0 (u :: ex)) as Hopt0.
  { unfold dijkstra_opt_inv, st0. cbn [dj_pred dj_dist dj_color dj_queue]. split_and!.
    - intros v Hv Hc. destruct (Hgray v Hv Hc) as [Hin|Hin]; [|by apply elem_of_nil in Hin].
      rewrite Hpop in Hin. apply elem_of_cons in Hin as [->|Hin]; [right|left]; [|done].
      by apply list_elem_of_singleton.
    - done.
    - intros v Hv Hc. right. auto.
    - done.
    - done.
    - intros v rp [->|Hin]%elem_of_cons Hw; auto. }
  assert (forall v, v ∈ u :: ex -> v < n) as Hexn0.
  { intros v [->|Hin]%elem_of_cons; auto. }
  unfold examine_vertex. destruct (decide (u = goal)) as [->|Hne].
  { cbn. destruct Hopt0 as (_ & _ & _ & _ & HU0 & HE0). done. }
  assert (dijkstra_inv gr s st0) as Hinv0.
  { unfold dijkstra_inv, st0. cbn [dj_pred dj_dist dj_color dj_queue].
    split_and!; try done. intros v Hv. apply Hq. rewrite Hpop. by right. }
  pose proof (dijkstra_out_edges_inv gr s u (out_edges gr u) st0 Hu
                (out_edges_lt gr u) Hinv0 Hcu Hnq) as Hedges.
  pose proof (dijkstra_out_edges_opt u (out_edges gr u) st0 (u :: ex) Hu
                (out_edges_lt gr u) (list_elem_of_here u ex) Hinv0 Hcu Hnq Hopt0) as Hopts.
  fold st0.
  destruct (dijkstra_out_edges gr u (out_edges gr u) st0) as [st'|]; [|done].
  destruct Hedges as ((Hok' & Hlc' & Hnd'' & Hq') & Hcu' & Hnq' & _).
  destruct Hopts as ((Hgray' & Hwhite' & Hblack' & Hedge' & HU' & HE') & Hdone).
  apply IH.
  - unfold dijkstra_inv. cbn [dj_pred dj_dist dj_color dj_queue].
    split_and!; [done|by rewrite length_insert|done|].
    intros v Hv. destruct (Hq' v Hv) as [Hvn Hvg]. split; [done|].
    rewrite list_lookup_total_insert_ne; [done|]. by intros ->.
  - assert (forall v, <[u := black_color]> (dj_color st') !!! v =
              if decide (v = u) then black_color else dj_color st' !!! v) as Hc.
    { intros v. destruct (decide (v = u)) as [->|Hvu].
      - apply list_lookup_total_insert_eq. lia.
      - by apply list_lookup_total_insert_ne. }
    unfold dijkstra_opt_inv. cbn [dj_pred dj_dist dj_color dj_queue]. split_and!.
    + intros v Hv. rewrite Hc. case_decide; [done|]. intros Hg.
      destruct (Hgray' v Hv Hg) as [Hin|Hin%list_elem_of_singleton]; [by left|done].
    + intros v Hv. rewrite Hc. case_decide; [done|]. auto.
    + intros v Hv. rewrite Hc. case_decide; [subst v; by left|]. auto.
    + intros v t Hv Ht. rewrite Hc. case_decide; [subst v|by auto].
      intros _. apply Hdone.
      destruct (edge_weight gr u t) as [w|] eqn:Hw.
      * left. apply elem_of_out_edges. split; [done|]. by rewrite Hw.
      * right. unfold st0. cbn [dj_dist]. unfold wt. rewrite Hw. simpl.
        replace (closed_plus (dj_dist st !!! u) DblMax) with DblMax
          by (by destruct (dj_dist st !!! u)).
        apply less_DblMax_false. auto.
    + done.
    + done.
  - done.
Qed.

(** The pass from [s]: the distances of the vertices it took from the
    queue, the goal among them, are shortest, and every other distance is
    the initial one or the weight of a walk. *)
Lemma dijkstra_shortest_paths_opt fuel sd :
  s < n -> dijkstra_shortest_paths fuel gr s goal = Found sd ->
  (forall v, v ∈ examined sd -> shortest_distance gr s v (distance sd !!! v)) /\
  (forall v, v < n -> distance sd !!! v = DblMax \/
     exists rp, walk gr s v rp /\ path_weight gr rp = distance sd !!! v).
Proof.
  intros Hs Hsd. unfold dijkstra_shortest_paths in Hsd.
  pose proof (dijkstra_loop_opt fuel (dijkstra_init gr s) 0 []
                (dijkstra_init_inv gr s Hs) (dijkstra_init_opt Hs)) as H.
  rewrite Hsd in H. destruct H as (Hn & HE & HU).
  { intros v Hin. by apply elem_of_nil in Hin. }
  split; [|done]. intros v Hv. split; [intros rp; by apply HE|]. auto.
Qed.

End DijkstraOptimal.


Section Frames.
Context {State : Type}.
Implicit Types (gr : GraphT State).

Lemma flags_only_refl gr : flags_only gr gr.
Proof. split_and!; try done. intros v vp Hv. exists vp. done. Qed.

Lemma flags_only_trans gr1 gr2 gr3 :
  flags_only gr1 gr2 -> flags_only gr2 gr3 -> flags_only gr1 gr3.
Proof.
  intros (Hw1 & Hl1 & Hv1) (Hw2 & Hl2 & Hv2). split_and!; [congruence..|].
  intros v vp Hv.
  destruct (Hv1 v vp Hv) as (vp1 & Hvp1 & ? & ? & ? & ? & ? & ?).
  destruct (Hv2 v vp1 Hvp1) as (vp2 & Hvp2 & ? & ? & ? & ? & ? & ?).
  exists vp2. split_and!; try congruence. auto.
Qed.

Lemma flags_only_out_edges gr gr' u :
  flags_only gr gr' -> out_edges gr' u = out_edges gr u.
Proof.
  intros (Hw & Hl & _). unfold out_edges, num_vertices, edge_weight.
  by rewrite Hw, Hl.
Qed.

Lemma flags_only_edge_weight gr gr' u v :
  flags_only gr gr' -> edge_weight gr' u v = edge_weight gr u v.
Proof. intros (Hw & _). unfold edge_weight. by rewrite Hw. Qed.

Lemma GenericDistanceHeuristic_frame (motionCost : State -> State -> double)
    (goal_state : State) :
  heuristic_frame (GenericDistanceHeuristic motionCost goal_state).
Proof.
  intros gr i. unfold GenericDistanceHeuristic.
  destruct (vertices gr !! i); apply flags_only_refl.
Qed.

Lemma PrecomputedCostHeuristic_frame (isValid : State -> bool) :
  heuristic_frame (PrecomputedCostHeuristic isValid).
Proof.
  intros gr i. unfold PrecomputedCostHeuristic.
  destruct (vertices gr !! i) as [vp|] eqn:Hi; [|apply flags_only_refl].
  destruct (isValid (state vp)); [apply flags_only_refl|].
  unfold flags_only, update_vertex. cbn. split_and!; [done|by rewrite length_alter|].
  intros v vp0 Hv. destruct (decide (v = i)) as [->|Hne].
  - rewrite list_lookup_alter_eq, Hv. cbn. eexists. split; [done|]. done.
  - rewrite list_lookup_alter_ne by done. exists vp0. done.
Qed.

Lemma checked_stable (isValid : State -> bool) gr gr' v :
  flags_only gr gr' -> checked isValid gr v -> checked isValid gr' v.
Proof.
  intros (_ & Hl & Hv) Hc vp' Hvp' Hinv.
  destruct (lookup_lt_is_Some_2 (vertices gr) v) as [vp Hvp].
  { rewrite <- Hl. by eapply lookup_lt_Some. }
  destruct (Hv v vp Hvp) as (vp2 & Hvp2 & Hs & _ & _ & _ & _ & Hb).
  rewrite Hvp' in Hvp2. injection Hvp2 as <-.
  apply Hb, (Hc vp Hvp). congruence.
Qed.

Lemma PrecomputedCostHeuristic_checked (isValid : State -> bool) gr i :
  checked isValid (PrecomputedCostHeuristic isValid gr i).2 i.
Proof.
  unfold PrecomputedCostHeuristic, checked.
  destruct (vertices gr !! i) as [vp|] eqn:Hi; cbn; [|congruence].
  destruct (isValid (state vp)) eqn:Hval; cbn.
  - intros vp' Hvp'. congruence.
  - intros vp'. rewrite list_lookup_alter_eq, Hi. cbn. by intros [= <-].
Qed.

End Frames.

Section AStar.
Context {State : Type}.
Variable gr0 : GraphT State.
Variable s goal : nat.
Variable h : Heuristic State.
Variable C : GraphT State -> nat -> Prop.
Hypothesis h_frame : heuristic_frame h.
Hypothesis C_established : forall gr i, C (h gr i).2 i.
Hypothesis C_stable : forall gr gr' i, flags_only gr gr' -> C gr i -> C gr' i.

Local Abbreviation n := (num_vertices gr0).

Lemma distances_are_paths_init :
  s < n -> distances_are_paths gr0 (<[s := zero]> (replicate n DblMax)).
Proof.
  intros Hs v Hv. destruct (decide (v = s)) as [->|Hne].
  - right. exists [s].
    assert ((<[s := zero]> (replicate n DblMax)) !!! s = zero) as Hd.
    { apply list_lookup_total_insert_eq. by rewrite length_replicate. }
    split_and!; try done.
    + apply NoDup_singleton.
    + by intros x ->%list_elem_of_singleton.
    + cbn. by rewrite Hd.
  - left. rewrite list_lookup_total_insert_ne by done.
    by apply lookup_total_replicate_2.
Qed.

Lemma astar_init_inv : s < n -> astar_inv gr0 s C (astar_init h gr0 s) [].
Proof.
  intros Hs. unfold astar_init, astar_inv.
  pose proof (h_frame gr0 s) as Hf. pose proof (C_established gr0 s) as Hc.
  destruct (h gr0 s) as [h_s gr']. cbn in *. split_and!.
  - by apply maps_ok_init.
  - by apply distances_are_paths_init.
  - done.
  - intros rv ->%list_elem_of_singleton. cbn. split_and!; [done| |done].
    rewrite list_lookup_total_insert_eq; [done|]. by rewrite length_replicate.
  - intros v Hv. by apply elem_of_nil in Hv.
Qed.

Lemma astar_out_edges_inv u ex targets : forall st,
  u < n -> (forall v, v ∈ targets -> v < n) ->
  astar_inv gr0 s C st ex -> less (as_dist st !!! u) DblMax = true ->
  match astar_out_edges h u targets st with
  | Some st' =>
      astar_inv gr0 s C st' ex /\ less (as_dist st' !!! u) DblMax = true /\
      potential gr0 (as_dist st') + length (as_queue st')
        <= potential gr0 (as_dist st) + length (as_queue st)
  | None => True
  end.
Proof.
  induction targets as [|w rest IH]; intros st Hu Ht Hinv Hfin;
    cbn [astar_out_edges]; [done|].
  destruct Hinv as (Hok & Hsp & Hfl & Hq & Hex).
  rewrite (flags_only_edge_weight gr0 (as_graph st) u w Hfl). fold (wt gr0 u w).
  destruct (less (wt gr0 u w) zero) eqn:Hneg; [done|].
  assert (w < n) as Hw by (apply Ht; by left).
  assert (forall x, x ∈ rest -> x < n) as Ht' by (intros; apply Ht; by right).
  destruct (relax_spec n s (as_pred st) (as_dist st) u w (wt gr0 u w) Hok Hu Hw Hneg)
    as (dec & p' & d' & Hrel & Hok' & Hcases).
  rewrite Hrel.
  assert (distances_are_paths gr0 d' /\
          (if dec then potential gr0 d' < potential gr0 (as_dist st)
           else potential gr0 d' = potential gr0 (as_dist st))) as [Hsp' Hpot].
  { destruct Hcases as [(-> & _ & ->)|[(-> & _ & -> & Hlt)|(-> & _ & -> & Hlt)]]; [done|..].
    - by apply (relax_potential gr0 s (as_pred st)).
    - rewrite (wt_sym gr0 u w) in *. by apply (relax_potential gr0 s (as_pred st)). }
  assert (forall x, less (as_dist st !!! x) DblMax = true -> x < n ->
                    less (d' !!! x) DblMax = true) as Hkeep.
  { intros x Hx Hxn.
    destruct Hcases as [(_ & _ & ->)|[(_ & _ & -> & Hlt)|(_ & _ & -> & Hlt)]]; [done|..];
      rewrite list_lookup_total_insert; case_decide as Hd; try done;
      (eapply less_finite; [exact Hlt|]; apply (mo_not_posinf _ _ _ _ Hok); lia). }
  destruct dec.
  - pose proof (h_frame (as_graph st) w) as Hf.
    pose proof (C_established (as_graph st) w) as Hc.
    destruct (h (as_graph st) w) as [h_w gr']. cbn in Hf, Hc.
    match goal with |- match astar_out_edges _ _ _ ?st1 with _ => _ end =>
      specialize (IH st1 Hu Ht') end.
    cbn [as_pred as_dist as_graph as_queue] in IH.
    destruct (astar_out_edges h u rest _) as [st'|]; [|done].
    destruct IH as (Hinv' & Hfin' & Hle).
    + unfold astar_inv. cbn [as_pred as_dist as_graph as_queue].
      split_and!; [done|done|by eapply flags_only_trans| |].
      * intros rv [Hrv|Hrv%list_elem_of_singleton]%elem_of_app.
        -- destruct (Hq rv Hrv) as (? & ? & ?). split_and!; [done|by apply Hkeep|].
           by eapply C_stable.
        -- subst rv. cbn. split_and!; [done| |done].
           destruct Hcases as [(? & _)|[(_ & _ & -> & Hlt)|(_ & _ & -> & Hlt)]]; [done|..].
           ++ rewrite list_lookup_total_insert_eq by (by rewrite (mo_len_d _ _ _ _ Hok)).
              eapply less_finite; [exact Hlt|]. by apply (mo_not_posinf _ _ _ _ Hok).
           ++ apply Hkeep; [|done]. eapply less_plus_finite0; [exact Hlt|..];
                by apply (mo_not_posinf _ _ _ _ Hok).
      * intros v Hv. eapply C_stable; [exact Hf|]. by apply Hex.
    + by apply Hkeep.
    + split_and!; [done..|]. rewrite length_app in Hle. cbn in Hle. lia.
  - match goal with |- match astar_out_edges _ _ _ ?st1 with _ => _ end =>
      specialize (IH st1 Hu Ht') end.
    cbn [as_pred as_dist as_graph as_queue] in IH.
    destruct (astar_out_edges h u rest _) as [st'|]; [|done].
    destruct IH as (Hinv' & Hfin' & Hle).
    + unfold astar_inv. cbn [as_pred as_dist as_graph as_queue].
      split_and!; try done.
      intros rv Hrv. destruct (Hq rv Hrv) as (? & ? & ?).
      split_and!; [done|by apply Hkeep|done].
    + by apply Hkeep.
    + split_and!; [done..|]. lia.
Qed.

Lemma astar_loop_spec fuel : forall st nv ex,
  astar_inv gr0 s C st ex -> goal ∉ ex ->
  match astar_loop fuel h goal st nv ex with
  | Exhausted sd =>
      flags_only gr0 (graph sd) /\ maps_ok n s (predecessor sd) (distance sd) /\
      (goal ∉ examined sd) /\ (forall v, v ∈ examined sd -> C (graph sd) v)
  | Found sd =>
      flags_only gr0 (graph sd) /\ maps_ok n s (predecessor sd) (distance sd) /\
      goal < n /\ less (distance sd !!! goal) DblMax = true /\
      (exists ex', examined sd = goal :: ex' /\ goal ∉ ex') /\
      (forall v, v ∈ examined sd -> C (graph sd) v)
  | NegativeEdge => True
  | Running => fuel <= potential gr0 (as_dist st) + length (as_queue st)
  end.
Proof.
  induction fuel as [|fuel IH]; intros st nv ex Hinv Hex; cbn [astar_loop]; [lia|].
  destruct (astar_pop st) as [[[r v] q']|] eqn:Hpop.
  2:{ destruct Hinv as (Hok & _ & Hfl & _ & Hc). done. }
  apply pop_min_perm in Hpop.
  destruct Hinv as (Hok & Hsp & Hfl & Hq & Hc).
  assert ((r, v) ∈ as_queue st) as Hvq by (rewrite Hpop; by left).
  destruct (Hq _ Hvq) as (Hv & Hfin & Hcv). cbn in Hv, Hfin, Hcv.
  assert (forall x, x ∈ v :: ex -> C (as_graph st) x) as Hc'.
  { intros x [->|Hx]%elem_of_cons; auto. }
  assert (length (as_queue st) = S (length q')) as Hlen by (by rewrite Hpop).
  unfold examine_vertex. destruct (decide (v = goal)) as [->|Hne].
  { cbn. split_and!; try done. by exists ex. }
  pose proof (astar_out_edges_inv v (v :: ex) (out_edges (as_graph st) v)
    (mkAStarState (as_graph st) (as_pred st) (as_dist st) q') Hv) as Hedges.
  cbn [as_pred as_dist as_graph as_queue] in Hedges.
  destruct (astar_out_edges h v (out_edges (as_graph st) v) _) as [st'|]; [|done].
  destruct Hedges as (Hinv' & _ & Hle); try done.
  { intros x Hx. rewrite (flags_only_out_edges gr0) in Hx by done.
    by apply elem_of_out_edges in Hx as [? _]. }
  { split_and!; try done. intros rv Hrv. apply Hq. rewrite Hpop. by right. }
  assert (goal ∉ v :: ex) as Hex1 by (by apply not_elem_of_cons).
  specialize (IH st' (S nv) (v :: ex) Hinv' Hex1).
  destruct (astar_loop fuel h goal st' (S nv) (v :: ex)); try done. lia.
Qed.

Lemma potential_bound (d : list double) :
  potential gr0 d <= length d * length (path_weights gr0).
Proof.
  unfold potential. induction d as [|x d IH]; cbn; [done|].
  assert (count_less gr0 x <= length (path_weights gr0)); [|lia].
  unfold count_less. generalize (path_weights gr0). intros V.
  induction V as [|y V IHV]; cbn; [done|]. destruct (less y x); lia.
Qed.

Lemma astar_search_tree_spec fuel :
  s < n ->
  match astar_search_tree fuel gr0 s h goal with
  | Exhausted sd =>
      flags_only gr0 (graph sd) /\ maps_ok n s (predecessor sd) (distance sd) /\
      (goal ∉ examined sd) /\ (forall v, v ∈ examined sd -> C (graph sd) v)
  | Found sd =>
      flags_only gr0 (graph sd) /\ maps_ok n s (predecessor sd) (distance sd) /\
      goal < n /\ less (distance sd !!! goal) DblMax = true /\
      (exists ex', examined sd = goal :: ex' /\ goal ∉ ex') /\
      (forall v, v ∈ examined sd -> C (graph sd) v)
  | NegativeEdge => True
  | Running => fuel <= n * length (path_weights gr0) + 1
  end.
Proof.
  intros Hs. unfold astar_search_tree.
  pose proof (astar_loop_spec fuel (astar_init h gr0 s) 0 []
                (astar_init_inv Hs) (not_elem_of_nil goal)) as H.
  destruct (astar_loop fuel h goal _ _ _); try done.
  etrans; [exact H|]. unfold astar_init. destruct (h gr0 s) as [h_s gr'].
  cbn [as_dist as_queue]. pose proof (potential_bound (<[s:=zero]> (replicate n DblMax))) as Hb.
  rewrite length_insert, length_replicate in Hb. cbn. lia.
Qed.

End AStar.

Section ComputeShortestPath.
Context {State : Type}.
Implicit Types (gr : GraphT State) (h : Heuristic State).

Lemma store_distances_lookup gr d v :
  vertices (store_distances gr d) !! v = set_g (d !!! v) <$> vertices gr !! v.
Proof. unfold store_distances. cbn. by rewrite list_lookup_imap. Qed.

Lemma store_distances_num_vertices gr d :
  num_vertices (store_distances gr d) = num_vertices gr.
Proof. unfold store_distances, num_vertices. cbn. apply length_imap. Qed.

Lemma store_distances_edge_weight gr d a b :
  edge_weight (store_distances gr d) a b = edge_weight gr a b.
Proof. done. Qed.

Lemma path_weights_nonempty gr : 0 < length (path_weights gr).
Proof.
  unfold path_weights. rewrite length_fmap.
  destruct (num_vertices gr); cbn; lia.
Qed.

Lemma dijkstra_loop_fuel_mono gr goal fuel : forall k st nv ex,
  dijkstra_loop fuel gr goal st nv ex <> Running ->
  dijkstra_loop (fuel + k) gr goal st nv ex = dijkstra_loop fuel gr goal st nv ex.
Proof.
  induction fuel as [|fuel IH]; intros k st nv ex Hr; [done|].
  cbn [dijkstra_loop Nat.add] in *.
  destruct (dijkstra_pop st) as [[u q']|]; [|done].
  destruct (examine_vertex goal nv u); [|done].
  destruct (dijkstra_out_edges gr u (out_edges gr u) _); [|done].
  by apply IH.
Qed.

Lemma astar_loop_fuel_mono h goal fuel : forall k st nv ex,
  astar_loop fuel h goal st nv ex <> Running ->
  astar_loop (fuel + k) h goal st nv ex = astar_loop fuel h goal st nv ex.
Proof.
  induction fuel as [|fuel IH]; intros k st nv ex Hr; [done|].
  cbn [astar_loop Nat.add] in *.
  destruct (astar_pop st) as [[[r v] q']|]; [|done].
  destruct (examine_vertex goal nv v); [|done].
  destruct (astar_out_edges h v (out_edges (as_graph st) v) _); [|done].
  by apply IH.
Qed.

Lemma run_search_fuel_mono fuel fuel' gr h s goal pre :
  run_search fuel gr h s goal pre <> Running -> fuel <= fuel' ->
  run_search fuel' gr h s goal pre = run_search fuel gr h s goal pre.
Proof.
  intros Hr Hle. replace fuel' with (fuel + (fuel' - fuel)) by lia.
  unfold run_search, dijkstra_shortest_paths, astar_search_tree in *.
  destruct pre, use_astar_hueristic_;
    first [by apply dijkstra_loop_fuel_mono | by apply astar_loop_fuel_mono].
Qed.

(** What both searches guarantee when they end. *)
Lemma run_search_spec fuel gr h s goal pre :
  heuristic_frame h -> s < num_vertices gr ->
  match run_search fuel gr h s goal pre with
  | Exhausted sd =>
      flags_only gr (graph sd) /\
      maps_ok (num_vertices gr) s (predecessor sd) (distance sd) /\
      goal ∉ examined sd
  | Found sd =>
      flags_only gr (graph sd) /\
      maps_ok (num_vertices gr) s (predecessor sd) (distance sd) /\
      goal < num_vertices gr /\
      (pre = false -> less (distance sd !!! goal) DblMax = true) /\
      exists ex', examined sd = goal :: ex' /\ goal ∉ ex'
  | NegativeEdge => True
  | Running => fuel < search_budget gr
  end.
Proof.
  intros Hh Hs. unfold run_search, search_budget.
  pose proof (astar_search_tree_spec gr s goal h (fun _ _ => True) Hh
                (fun _ _ => I) (fun _ _ _ _ _ => I) fuel Hs) as HA.
  pose proof (dijkstra_shortest_paths_spec gr s goal fuel Hs) as HD.
  unfold use_astar_hueristic_. destruct pre.
  - destruct (dijkstra_shortest_paths fuel gr s goal) as [sd|sd| |]; try done.
    + destruct HD as (-> & ? & ?). split_and!; try done. apply flags_only_refl.
    + destruct HD as (-> & ? & ? & ?). split_and!; try done. apply flags_only_refl.
    + pose proof (path_weights_nonempty gr). nia.
  - destruct (astar_search_tree fuel gr s h goal) as [sd|sd| |]; try done.
    + destruct HA as (? & ? & ? & _). done.
    + destruct HA as (? & ? & ? & ? & ? & _). done.
    + lia.
Qed.

(** After a search that found the goal, the walk back returns. *)
Lemma reconstruct_after_search gr gr1 s goal p d ufcc :
  maps_ok (num_vertices gr) s p d -> goal < num_vertices gr ->
  num_vertices gr1 = num_vertices gr ->
  exists path gr',
    reconstruct (num_vertices gr1) p ufcc goal gr1 [] = Some (path, gr') /\
    vertices gr' = vertices gr1 /\
    last path = Some goal /\
    (exists hd, head path = Some hd /\ p !!! hd = hd /\
                (less (d !!! goal) DblMax = true -> hd = s)) /\
    (less (d !!! goal) DblMax = false -> path = [goal]) /\
    linked p path /\
    forall a b,
      edge_weight gr' a b =
        match edge_weight gr1 a b with
        | Some w => if ufcc && invalidated gr' path a b then Some infiniteCost else Some w
        | None => None
        end.
Proof.
  intros Hok Hgoal Hn. pose proof (mo_chain _ _ _ _ Hok) as [hops Hch].
  destruct (reconstruct_total (num_vertices gr) s p d hops ufcc Hok Hch
              (num_vertices gr1) goal gr1 []) as (path & gr' & Hrec); try done.
  { intros x Hx. by apply elem_of_nil in Hx. }
  { repeat constructor. }
  { cbn. lia. }
  exists path, gr'. split; [done|].
  apply reconstruct_spec in Hrec as (Hv & front & Hpath & Hlast & (hd & Hhd & Hself) & Hlink & Hw).
  rewrite app_nil_r in Hpath. subst front.
  assert (forall x, x ∈ path -> x < num_vertices gr /\
            less (d !!! goal) (d !!! x) = false) as Hfar.
  { by apply (linked_not_farther _ s p). }
  split_and!; try done.
  - exists hd. split_and!; try done. intros Hfin.
    assert (hd ∈ path) as Hin.
    { destruct path; [done|]. injection Hhd as ->. by left. }
    destruct (Hfar hd Hin) as [Hhn Hle].
    destruct (mo_unreached _ _ _ _ Hok hd Hhn Hself) as [->|Hmax]; [done|].
    assert (less (d !!! hd) DblMax = true) as Hf
      by (eapply not_less_less_trans; eassumption).
    rewrite Hmax in Hf. done.
  - intros Hinf.
    destruct (decide (p !!! goal = goal)) as [Hpg|Hpg].
    2:{ rewrite (mo_reached _ _ _ _ Hok goal Hgoal Hpg) in Hinf. done. }
    destruct path as [|y path _] using rev_ind; [done|].
    rewrite last_snoc in Hlast. injection Hlast as ->.
    destruct path as [|z path _] using rev_ind; [done|].
    exfalso. destruct (Hlink (length path) z goal) as [_ Hne].
    + rewrite <- app_assoc. rewrite lookup_app_r by done. by rewrite Nat.sub_diag.
    + rewrite <- app_assoc. rewrite lookup_app_r by lia.
      by replace (S (length path) - length path) with 1 by lia.
    + done.
  - intros a b. rewrite Hw. by rewrite (invalidated_vertices gr1 gr' path a b Hv).
Qed.

End ComputeShortestPath.

Section ShortestPathProperties.
Context {State : Type}.
Implicit Types (gr : GraphT State) (h : Heuristic State).

(** How [computeShortestPath] ends, by how its search ends. *)
Lemma computeShortestPath_cases fuel gr h s goal pre ufcc :
  heuristic_frame h -> s < num_vertices gr ->
  match run_search fuel gr h s goal pre with
  | Exhausted sd =>
      computeShortestPath fuel gr h s goal pre ufcc = Returns ([], graph sd)
  | Found sd =>
      exists path gr',
        computeShortestPath fuel gr h s goal pre ufcc = Returns (path, gr') /\
        vertices gr' = vertices (store_distances (graph sd) (distance sd)) /\
        last path = Some goal /\
        (exists hd, head path = Some hd /\ predecessor sd !!! hd = hd /\
           (less (distance sd !!! goal) DblMax = true -> hd = s)) /\
        (less (distance sd !!! goal) DblMax = false -> path = [goal]) /\
        linked (predecessor sd) path /\
        forall a b,
          edge_weight gr' a b =
            match edge_weight gr a b with
            | Some w =>
                if ufcc && invalidated gr' path a b then Some infiniteCost else Some w
            | None => None
            end
  | NegativeEdge => computeShortestPath fuel gr h s goal pre ufcc = Throws
  | Running => computeShortestPath fuel gr h s goal pre ufcc = Diverges
  end.
Proof.
  intros Hh Hs. pose proof (run_search_spec fuel gr h s goal pre Hh Hs) as Hsp.
  unfold computeShortestPath.
  destruct (run_search fuel gr h s goal pre) as [sd|sd| |]; try done.
  destruct Hsp as (Hfl & Hok & Hgoal & _ & _).
  destruct (reconstruct_after_search gr
              (store_distances (graph sd) (distance sd)) s goal
              (predecessor sd) (distance sd) ufcc Hok Hgoal)
    as (path & gr' & Hrec & Hv & Hlast & Hhd & Hsingle & Hlink & Hw).
  { rewrite store_distances_num_vertices. unfold num_vertices.
    by destruct Hfl as (_ & -> & _). }
  rewrite Hrec. exists path, gr'. split_and!; try done.
  intros a b. rewrite Hw, store_distances_edge_weight.
  by rewrite (flags_only_edge_weight gr (graph sd)).
Qed.


Lemma computeShortestPath_fuel_mono fuel fuel' gr h s goal pre ufcc :
  computeShortestPath fuel gr h s goal pre ufcc <> Diverges -> fuel <= fuel' ->
  computeShortestPath fuel' gr h s goal pre ufcc =
  computeShortestPath fuel gr h s goal pre ufcc.
Proof.
  intros Hr Hle. unfold computeShortestPath in *.
  rewrite (run_search_fuel_mono fuel fuel'); [done| |done].
  intros E. by rewrite E in Hr.
Qed.

(** The walk back is determined by the predecessor map: two lists that
    end in the same vertex, begin with a vertex that is its own
    predecessor and are linked by the map are equal. *)
Lemma linked_unique (p : list nat) : forall (l l' : list nat) (x : nat),
  last l = Some x -> last l' = Some x ->
  (exists hd, head l = Some hd /\ p !!! hd = hd) ->
  (exists hd, head l' = Some hd /\ p !!! hd = hd) ->
  linked p l -> linked p l' -> l = l'.
Proof.
  assert (forall (m : list nat) (a x : nat),
            linked p ((m ++ [a]) ++ [x]) -> p !!! x = a /\ p !!! x <> x) as Hend.
  { intros m a x Hk. apply (Hk (length m)).
    - apply lookup_app_l_Some. by apply list_lookup_middle.
    - apply list_lookup_middle. rewrite length_app. cbn. lia. }
  assert (forall (m : list nat) (x : nat),
            linked p (m ++ [x]) -> linked p m) as Hpre.
  { intros m x Hk k a b Ha Hb. apply (Hk k); by apply lookup_app_l_Some. }
  assert (forall (m : list nat) (a x hd : nat),
            head ((m ++ [a]) ++ [x]) = Some hd -> head (m ++ [a]) = Some hd) as Hhead.
  { intros m a x hd. by destruct m. }
  induction l as [|x0 l IH] using rev_ind; intros l' x Hl Hl' Hh Hh' Hk Hk'; [done|].
  destruct l' as [|x0' l' _] using rev_ind; [done|].
  rewrite last_snoc in Hl, Hl'. injection Hl as ->. injection Hl' as ->.
  destruct l as [|a l _] using rev_ind; destruct l' as [|a' l' _] using rev_ind.
  - done.
  - exfalso. destruct Hh as (hd & [= <-] & Hself).
    destruct (Hend l' a' x Hk') as [_ Hne]. done.
  - exfalso. destruct Hh' as (hd & [= <-] & Hself).
    destruct (Hend l a x Hk) as [_ Hne]. done.
  - destruct (Hend l a x Hk) as [Ha _]. destruct (Hend l' a' x Hk') as [Ha' _].
    assert (a' = a) as -> by congruence. f_equal.
    apply (IH (l' ++ [a]) a).
    + apply last_snoc.
    + apply last_snoc.
    + destruct Hh as (hd & Hhd & Hself). exists hd. split; [|done]. by eapply Hhead.
    + destruct Hh' as (hd & Hhd & Hself). exists hd. split; [|done]. by eapply Hhead.
    + by eapply Hpre.
    + by eapply Hpre.
Qed.

(** C1. [computeShortestPath] returns the reconstructed path exactly when
    its search handed the goal vertex to [examine_vertex], which threw
    [FoundVertex]: the list returned is then the walk back along the
    predecessor map from the goal, that is the one list that ends in the
    goal, begins with a vertex that is its own predecessor and has every
    entry after the first preceded by its predecessor.  It returns the
    empty list when the queue ran empty first, and then the goal was
    never examined.  Exhaustion is a normal return: nothing is thrown
    unless Boost met a negative edge weight.  Every call ends within
    [search_budget] steps, and a larger budget does not change what a call
    that ended returns. *)
Theorem computeShortestPath_path_iff_goal_examined fuel gr h s goal pre ufcc :
  heuristic_frame h -> s < num_vertices gr ->
  let search := run_search fuel gr h s goal pre in
  let result := computeShortestPath fuel gr h s goal pre ufcc in
  (forall sd, search = Found sd ->
     goal ∈ examined sd /\
     exists path gr',
       result = Returns (path, gr') /\ path <> [] /\
       last path = Some goal /\
       (exists hd, head path = Some hd /\ predecessor sd !!! hd = hd) /\
       linked (predecessor sd) path /\
       (forall l, last l = Some goal ->
          (exists hd, head l = Some hd /\ predecessor sd !!! hd = hd) ->
          linked (predecessor sd) l -> l = path) /\
       reconstruct (num_vertices (store_distances (graph sd) (distance sd)))
         (predecessor sd) ufcc goal
         (store_distances (graph sd) (distance sd)) [] = Some (path, gr')) /\
  (forall sd, search = Exhausted sd ->
     (goal ∉ examined sd) /\ result = Returns ([], graph sd)) /\
  (forall path gr', result = Returns (path, gr') ->
     (path <> [] <-> goal ∈ examined_by search)) /\
  (result = Throws <-> search = NegativeEdge) /\
  (forall fuel', search_budget gr <= fuel' ->
     computeShortestPath fuel' gr h s goal pre ufcc <> Diverges) /\
  (result <> Diverges -> forall fuel', fuel <= fuel' ->
     computeShortestPath fuel' gr h s goal pre ufcc = result).
Proof.
  intros Hh Hs search result.
  assert (forall sd, search = Found sd ->
     goal ∈ examined sd /\
     exists path gr',
       result = Returns (path, gr') /\ path <> [] /\
       last path = Some goal /\
       (exists hd, head path = Some hd /\ predecessor sd !!! hd = hd) /\
       linked (predecessor sd) path /\
       (forall l, last l = Some goal ->
          (exists hd, head l = Some hd /\ predecessor sd !!! hd = hd) ->
          linked (predecessor sd) l -> l = path) /\
       reconstruct (num_vertices (store_distances (graph sd) (distance sd)))
         (predecessor sd) ufcc goal
         (store_distances (graph sd) (distance sd)) [] = Some (path, gr')) as HF.
  { intros sd Hsd.
    pose proof (run_search_spec fuel gr h s goal pre Hh Hs) as Hsp.
    pose proof (computeShortestPath_cases fuel gr h s goal pre ufcc Hh Hs) as Hc.
    fold search in Hsp, Hc. rewrite Hsd in Hsp, Hc.
    destruct Hsp as (_ & _ & _ & _ & ex' & Hex & _).
    destruct Hc as (path & gr' & Hres & _ & Hlast & (hd & Hhd & Hself & _) & _ & Hlink & _).
    split; [rewrite Hex; by left|].
    exists path, gr'. split_and!; [done|by intros ->|done|by exists hd|done| |].
    - intros l Hl Hhl Hkl.
      apply (linked_unique (predecessor sd) l path goal); try done. by exists hd.
    - subst result. unfold computeShortestPath in *. fold search in Hres |- *.
      rewrite Hsd in Hres.
      destruct (reconstruct _ _ _ _ _ _) as [r|]; [|done]. by injection Hres as ->. }
  assert (forall sd, search = Exhausted sd ->
     (goal ∉ examined sd) /\ result = Returns ([], graph sd)) as HE.
  { intros sd Hsd.
    pose proof (run_search_spec fuel gr h s goal pre Hh Hs) as Hsp.
    fold search in Hsp. rewrite Hsd in Hsp. destruct Hsp as (_ & _ & Hex).
    split; [done|]. subst result. unfold computeShortestPath. fold search.
    by rewrite Hsd. }
  split_and!; [done|done| | | |].
  - intros path gr' Hres. destruct search as [sd|sd| |] eqn:Hsd.
    + destruct (HE sd eq_refl) as [Hex Hres']. rewrite Hres in Hres'.
      injection Hres' as -> _. cbn. done.
    + destruct (HF sd eq_refl) as [Hex (path' & gr'' & Hres' & Hne & _)].
      rewrite Hres in Hres'. injection Hres' as -> _. cbn. done.
    + subst result. unfold computeShortestPath in Hres. fold search in Hres.
      by rewrite Hsd in Hres.
    + subst result. unfold computeShortestPath in Hres. fold search in Hres.
      by rewrite Hsd in Hres.
  - subst result. unfold computeShortestPath. fold search.
    destruct search as [sd|sd| |] eqn:Hsd; try done.
    destruct (HF sd eq_refl) as [_ (path & gr' & _ & _ & _ & _ & _ & _ & ->)]. done.
  - intros fuel' Hfuel.
    pose proof (run_search_spec fuel' gr h s goal pre Hh Hs) as Hsp.
    pose proof (computeShortestPath_cases fuel' gr h s goal pre ufcc Hh Hs) as Hc.
    destruct (run_search fuel' gr h s goal pre) as [sd|sd| |].
    + by rewrite Hc.
    + destruct Hc as (path & gr' & -> & _). done.
    + by rewrite Hc.
    + lia.
  - intros Hr fuel' Hle. by apply computeShortestPath_fuel_mono.
Qed.

(** When the goal is found the list returned is the walk back along the
    predecessor map from the goal: its last entry is the goal, its first
    entry is its own predecessor, every entry after the first has the
    entry before it as predecessor and is not its own predecessor.  The
    first entry is the search source when the distance of the goal is
    finite, as it always is in the tree search; when the Dijkstra pass
    took the goal from the queue at the initial distance the list is the
    goal alone. *)
Theorem computeShortestPath_path_shape fuel gr h s goal pre ufcc sd :
  heuristic_frame h -> s < num_vertices gr ->
  run_search fuel gr h s goal pre = Found sd ->
  exists path gr',
    computeShortestPath fuel gr h s goal pre ufcc = Returns (path, gr') /\
    last path = Some goal /\
    (exists hd, head path = Some hd /\ predecessor sd !!! hd = hd /\
       (less (distance sd !!! goal) DblMax = true -> hd = s) /\
       (pre = false -> hd = s)) /\
    (less (distance sd !!! goal) DblMax = false -> path = [goal]) /\
    linked (predecessor sd) path.
Proof.
  intros Hh Hs Hsd.
  pose proof (run_search_spec fuel gr h s goal pre Hh Hs) as Hsp.
  pose proof (computeShortestPath_cases fuel gr h s goal pre ufcc Hh Hs) as Hc.
  rewrite Hsd in Hsp, Hc.
  destruct Hsp as (_ & _ & _ & Hfin & _).
  destruct Hc as (path & gr' & Hres & _ & Hlast & (hd & Hhd & Hself & Hstart) & Hone & Hlink & _).
  exists path, gr'. split_and!; try done.
  exists hd. split_and!; try done. intros Hpre. apply Hstart. by apply Hfin.
Qed.

(** C5 (as amended). A heuristic-precomputation pass (Dijkstra) that takes
    the goal from its queue writes to the [g] of every vertex of the
    graph, on the returned path or not, the entry of the distance map at
    that moment, and changes no other vertex field.  When no weight is
    negative or the infinite cost, the [g] of a vertex the pass took from
    its queue, the goal among them, is the shortest-path distance from
    the source, and the [g] of any other vertex is the initial distance or
    the weight of some walk from the source.  A pass that exhausts the
    queue returns the empty list and leaves the graph as it was. *)
Theorem computeShortestPath_precompute_stores_distances fuel gr h s goal ufcc :
  s < num_vertices gr ->
  (forall sd, dijkstra_shortest_paths fuel gr s goal = Found sd ->
     exists path gr',
       computeShortestPath fuel gr h s goal true ufcc = Returns (path, gr') /\
       length (vertices gr') = length (vertices gr) /\
       (forall v vp, vertices gr !! v = Some vp ->
          vertices gr' !! v = Some (set_g (distance sd !!! v) vp)) /\
       (weights_ok gr ->
          (forall v vp', v ∈ examined sd -> vertices gr' !! v = Some vp' ->
             shortest_distance gr s v (g vp')) /\
          (forall v vp', vertices gr' !! v = Some vp' ->
             g vp' = DblMax \/
             exists rp, walk gr s v rp /\ path_weight gr rp = g vp'))) /\
  (forall sd, dijkstra_shortest_paths fuel gr s goal = Exhausted sd ->
     computeShortestPath fuel gr h s goal true ufcc = Returns ([], gr)).
Proof.
  intros Hs.
  pose proof (dijkstra_shortest_paths_spec gr s goal fuel Hs) as HD.
  split; intros sd Hsd; rewrite Hsd in HD.
  - destruct HD as (Hgr & Hok & Hgoal & _).
    destruct (reconstruct_after_search gr
                (store_distances (graph sd) (distance sd)) s goal
                (predecessor sd) (distance sd) ufcc Hok Hgoal)
      as (path & gr' & Hrec & Hv & _).
    { rewrite store_distances_num_vertices. by rewrite Hgr. }
    exists path, gr'. unfold computeShortestPath, run_search, use_astar_hueristic_.
    rewrite Hsd, Hrec.
    assert (length (vertices gr') = length (vertices gr)) as Hlen.
    { rewrite Hv. fold (num_vertices (store_distances (graph sd) (distance sd))).
      rewrite store_distances_num_vertices. by rewrite Hgr. }
    assert (forall v vp, vertices gr !! v = Some vp ->
              vertices gr' !! v = Some (set_g (distance sd !!! v) vp)) as Hg.
    { intros v vp Hvp. rewrite Hv, store_distances_lookup, Hgr, Hvp. done. }
    split_and!; [done..|].
    intros Hw.
    destruct (dijkstra_shortest_paths_opt gr s goal Hw fuel sd Hs Hsd) as [Hshort Hup].
    assert (forall v vp', vertices gr' !! v = Some vp' ->
              v < num_vertices gr /\ g vp' = distance sd !!! v) as Hread.
    { intros v vp' Hvp'.
      assert (v < num_vertices gr) as Hvn.
      { unfold num_vertices. rewrite <- Hlen. by eapply lookup_lt_Some. }
      split; [done|].
      destruct (lookup_lt_is_Some_2 (vertices gr) v Hvn) as [vp Hvp].
      rewrite (Hg v vp Hvp) in Hvp'. by injection Hvp' as <-. }
    split.
    + intros v vp' Hex Hvp'. destruct (Hread v vp' Hvp') as [_ ->]. by apply Hshort.
    + intros v vp' Hvp'. destruct (Hread v vp' Hvp') as [Hvn ->]. by apply Hup.
  - destruct HD as (Hgr & _). unfold computeShortestPath, run_search, use_astar_hueristic_.
    by rewrite Hsd, Hgr.
Qed.

End ShortestPathProperties.

Section PathAssemblerProperties.
Context {State Control : Type}.
Variable propagationStepSize : Q.



(** C9. Path assembly writes to the graph: every vertex of the list whose
    control pointer is null gets a pointer to a control allocated by the
    call, beyond the old heap and left uninitialised; the weights, the
    number of vertices, a non-null control pointer, the control pointer
    of a vertex outside the list and every other field of every vertex
    (state, control_duration, id, g, blacklisted) are unchanged, and the
    old heap cells keep their contents. *)
Theorem populate_allocates_missing_controls (vertex_path : list vertex_descriptor)
    (gr : GraphT State) (heap : ControlHeap Control) :
  (forall i, i ∈ vertex_path -> i < num_vertices gr) ->
  exists gr' heap' path,
    populateOmplPathfromVertexPath propagationStepSize vertex_path gr heap
      = Some (gr', heap', path) /\
    weightmap gr' = weightmap gr /\
    length (vertices gr') = length (vertices gr) /\
    (exists k, heap' = heap ++ replicate k Uninit) /\
    forall v vp, vertices gr !! v = Some vp ->
      exists vp', vertices gr' !! v = Some vp' /\
        state vp' = state vp /\ control_duration vp' = control_duration vp /\
        id vp' = id vp /\ g vp' = g vp /\ blacklisted vp' = blacklisted vp /\
        match control vp with
        | Some c => control vp' = Some c
        | None =>
            if decide (v ∈ vertex_path)
            then exists c, control vp' = Some c /\ length heap <= c /\
                           heap' !! c = Some Uninit
            else control vp' = None
        end.
Proof.
  intros Hrange.
  destruct (populate_loop_spec propagationStepSize vertex_path 0 gr heap emptyPath Hrange)
    as (gr' & heap' & path & sts & cs & ds & Hrun & Hframe & _).
  exists gr', heap', path. split; [done|]. exact Hframe.
Qed.

End PathAssemblerProperties.

Section GeometricGraphProperties.
Context {State : Type}.
Variable distanceFunction : State -> State -> Q.
Variable min_dist max_dist : Q.
Variable nearest : GraphT State -> State -> list vertex_descriptor.


End GeometricGraphProperties.

(* ------------------------------------------------------------------ *)
(** ** [SE2PlannerControlSpace::propagate] on the words of its states *)

Ltac distinct_addresses H :=
  repeat match type of H with
         | NoDup (_ :: _) => let H1 := fresh "Hne" in apply NoDup_cons in H as [H1 H]
         end;
  repeat match goal with
         | H1 : _ ∉ _ :: _ |- _ =>
             let H2 := fresh "Hne" in apply not_elem_of_cons in H1 as [H2 H1]
         end.

Ltac step_mem :=
  repeat first
    [ rewrite lookup_insert_eq
    | rewrite lookup_insert_ne by done
    | match goal with
      | H : ?m !! ?a = Some _ |- context [?m !! ?a] => rewrite H
      end
    | rewrite decide_True by (cbn; lia)
    | progress cbn ].

Ltac unfold_accessors :=
  unfold SE2_setXY, SE2_setX, SE2_setY, SE2_setYaw, values_set,
    SE2_getX, SE2_getY, SE2_getYaw, values_get, component, load_ptr, load_dbl,
    store_dbl.

Lemma read_state_allocated mem L s :
  allocated mem L s -> read_state mem (at_state L) = Some s.
Proof.
  intros (H1 & H2 & H3 & H4 & H5 & H6 & H7 & H8 & H9).
  unfold read_state. unfold_accessors. step_mem. by destruct s.
Qed.

(** What a call on two states that share no block leaves behind. *)
Lemma propagate_apart mem Ls Lr s r c duration :
  allocated mem Ls s -> allocated mem Lr r ->
  NoDup (addresses Ls ++ addresses Lr) ->
  propagate (at_state Ls) c duration (at_state Lr) mem =
    Some (<[at_velocity_values Ls := [Dbl (bicycle_velocity s c duration)]]>
          (<[at_velocity Lr := [Dbl (bicycle_yaw s c duration)]]>
          (<[at_se2_components Lr :=
               [Dbl (bicycle_x s duration); Dbl (bicycle_y s duration)]]> mem))).
Proof.
  intros (H1 & H2 & H3 & H4 & H5 & H6 & H7 & H8 & H9)
         (R1 & R2 & R3 & R4 & R5 & R6 & R7 & R8 & R9) Hnd.
  destruct Ls, Lr. unfold addresses in Hnd. cbn in *. distinct_addresses Hnd.
  clear Hnd. unfold propagate. unfold_accessors. step_mem.
  by rewrite insert_insert_eq.
Qed.

(** The words a call leaves in the blocks of two states that share no
    block. *)
Lemma propagate_apart_lookup mem Ls Lr s r c duration :
  allocated mem Ls s -> allocated mem Lr r ->
  NoDup (addresses Ls ++ addresses Lr) ->
  exists mem',
    propagate (at_state Ls) c duration (at_state Lr) mem = Some mem' /\
    allocated mem' Ls
      (mkCompoundState (getX s) (getY s) (getYaw s) (bicycle_velocity s c duration)) /\
    mem' !! at_state Lr = Some [Ptr (at_components Lr)] /\
    mem' !! at_components Lr = Some [Ptr (at_se2 Lr); Ptr (at_velocity Lr)] /\
    mem' !! at_se2 Lr = Some [Ptr (at_se2_components Lr)] /\
    mem' !! at_se2_components Lr =
      Some [Dbl (bicycle_x s duration); Dbl (bicycle_y s duration)] /\
    mem' !! at_xy Lr = Some [Ptr (at_xy_values Lr)] /\
    mem' !! at_xy_values Lr = Some [Dbl (getX r); Dbl (getY r)] /\
    mem' !! at_yaw Lr = Some [Dbl (getYaw r)] /\
    mem' !! at_velocity Lr = Some [Dbl (bicycle_yaw s c duration)] /\
    mem' !! at_velocity_values Lr = Some [Dbl (velocity r)] /\
    forall a, a <> at_se2_components Lr -> a <> at_velocity Lr ->
              a <> at_velocity_values Ls -> mem' !! a = mem !! a.
Proof.
  intros Hs Hr Hnd. eexists. split; [by eapply propagate_apart|].
  destruct Hs as (H1 & H2 & H3 & H4 & H5 & H6 & H7 & H8 & H9).
  destruct Hr as (R1 & R2 & R3 & R4 & R5 & R6 & R7 & R8 & R9).
  destruct Ls, Lr. unfold addresses in Hnd. cbn in *. distinct_addresses Hnd.
  clear Hnd. unfold allocated. cbn.
  split_and!; step_mem; try done.
  intros a Ha1 Ha2 Ha3. by step_mem.
Qed.

(** C10. [propagate] reads the start state as a compound state, but
    hands the result state itself, cast to an SE2 state, to [setXY] and
    [setYaw].  On two states that share no block the call writes the new
    velocity into the velocity vector of the start state and leaves the
    position and the yaw of the start state as they were; the doubles
    that hold the position, the yaw and the velocity of the result state
    keep their values; the new position is written over the two component
    pointers of the SE2 part of the result state and the new yaw over the
    pointer to the values of its velocity vector, so that none of the
    four numbers of the result state can be read any more.  No other
    block changes. *)
Theorem propagate_writes_over_result_pointers
    (mem : Memory) (Ls Lr : CompoundLayout) (s r : CompoundState)
    (c : ControlType) (duration : R) :
  allocated mem Ls s -> allocated mem Lr r ->
  NoDup (addresses Ls ++ addresses Lr) ->
  exists mem',
    propagate (at_state Ls) c duration (at_state Lr) mem = Some mem' /\
    read_state mem' (at_state Ls) =
      Some (mkCompoundState (getX s) (getY s) (getYaw s)
              (bicycle_velocity s c duration)) /\
    (mem' !! at_xy_values Lr = Some [Dbl (getX r); Dbl (getY r)] /\
     mem' !! at_yaw Lr = Some [Dbl (getYaw r)] /\
     mem' !! at_velocity_values Lr = Some [Dbl (velocity r)]) /\
    (mem' !! at_se2_components Lr =
       Some [Dbl (bicycle_x s duration); Dbl (bicycle_y s duration)] /\
     mem' !! at_velocity Lr = Some [Dbl (bicycle_yaw s c duration)]) /\
    (SE2_getX mem' (at_se2 Lr) = None /\ SE2_getY mem' (at_se2 Lr) = None /\
     SE2_getYaw mem' (at_se2 Lr) = None /\
     values_get mem' (at_velocity Lr) 0 = None /\
     read_state mem' (at_state Lr) = None) /\
    (forall a, a <> at_se2_components Lr -> a <> at_velocity Lr ->
               a <> at_velocity_values Ls -> mem' !! a = mem !! a).
Proof.
  intros Hs Hr Hnd.
  destruct (propagate_apart_lookup mem Ls Lr s r c duration Hs Hr Hnd)
    as (mem' & Hrun & Hs' & R1 & R2 & R3 & R4 & R5 & R6 & R7 & R8 & R9 & Hframe).
  exists mem'. split_and!; try done.
  - by apply read_state_allocated.
  - unfold_accessors. by step_mem.
  - unfold_accessors. by step_mem.
  - unfold_accessors. by step_mem.
  - unfold_accessors. by step_mem.
  - unfold read_state. unfold_accessors. by step_mem.
Qed.

(* ------------------------------------------------------------------ *)
(** * Further properties of [computeShortestPath] *)

(** A distance that is at least [a] plus a weight is at least any smaller
    [a'] plus that weight. *)
Lemma slack_mono (x a a' w : double) :
  less x (closed_plus a w) = false -> less x DblMax = true ->
  less a a' = false -> less x (closed_plus a' w) = false.
Proof.
  destruct x, a, a', w; simpl; try done.
  rewrite !Qltb_ge. intros H1 _ H2. lra.
Qed.

(** ** Invariants of the maps that every relaxation keeps *)

Section MapsInvariant.
Context {State : Type}.
Variable gr0 : GraphT State.
Variable s goal : nat.
Variable Inv : list nat -> list double -> Prop.

Local Abbreviation n := (num_vertices gr0).

Hypothesis Inv_relax : forall p d u v,
  maps_ok n s p d -> Inv p d -> u < n -> v < n ->
  is_Some (edge_weight gr0 u v) -> less (wt gr0 u v) zero = false ->
  less (closed_plus (d !!! u) (wt gr0 u v)) (d !!! v) = true ->
  Inv (<[v := u]> p) (<[v := closed_plus (d !!! u) (wt gr0 u v)]> d).

Lemma dijkstra_edge_maps u v st :
  u < n -> v ∈ out_edges gr0 u -> dijkstra_inv gr0 s st ->
  Inv (dj_pred st) (dj_dist st) ->
  match dijkstra_out_edges gr0 u [v] st with
  | Some st' => Inv (dj_pred st') (dj_dist st')
  | None => True
  end.
Proof.
  intros Hu [Hv He]%elem_of_out_edges (Hok & _) HI. cbn [dijkstra_out_edges].
  change (default DblMax (edge_weight gr0 u v)) with (wt gr0 u v).
  destruct (less (closed_plus zero (wt gr0 u v)) zero) eqn:Hneg; [done|].
  apply closed_plus_zero_nonneg in Hneg.
  destruct (relax_target_spec n s (dj_pred st) (dj_dist st) u v (wt gr0 u v)
              Hok Hu Hv Hneg)
    as (dec & p' & d' & Hrel & _ & [(_ & -> & -> & _) | (_ & -> & -> & Hlt)]);
    destruct (dj_color st !!! v); rewrite ?Hrel; cbn [dj_pred dj_dist]; auto.
Qed.

Lemma dijkstra_out_edges_maps u targets : forall st,
  u < n -> (forall v, v ∈ targets -> v ∈ out_edges gr0 u) ->
  dijkstra_inv gr0 s st -> dj_color st !!! u = gray_color -> u ∉ dj_queue st ->
  Inv (dj_pred st) (dj_dist st) ->
  match dijkstra_out_edges gr0 u targets st with
  | Some st' => Inv (dj_pred st') (dj_dist st')
  | None => True
  end.
Proof.
  induction targets as [|v rest IH]; intros st Hu Ht Hinv Hcu Hnq HI; [done|].
  assert (v ∈ out_edges gr0 u) as Hv by (apply Ht; by left).
  rewrite dijkstra_out_edges_cons.
  pose proof (dijkstra_edge_maps u v st Hu Hv Hinv HI) as Hedge.
  pose proof (dijkstra_out_edges_inv gr0 s u [v] st Hu) as Hstep.
  destruct (dijkstra_out_edges gr0 u [v] st) as [st1|]; [|done].
  destruct Hstep as (Hinv1 & Hcu1 & Hnq1 & _); try done.
  { intros x ->%list_elem_of_singleton. by apply (out_edges_lt gr0 u). }
  apply IH; try done. intros x Hx. apply Ht. by right.
Qed.

Lemma dijkstra_loop_maps fuel : forall st nv ex,
  dijkstra_inv gr0 s st -> Inv (dj_pred st) (dj_dist st) ->
  match dijkstra_loop fuel gr0 goal st nv ex with
  | Exhausted sd | Found sd => Inv (predecessor sd) (distance sd)
  | NegativeEdge | Running => True
  end.
Proof.
  induction fuel as [|fuel IH]; intros st nv ex Hinv HI; cbn [dijkstra_loop]; [done|].
  destruct (dijkstra_pop st) as [[u q']|] eqn:Hpop; [|done].
  apply pop_min_perm in Hpop.
  destruct Hinv as (Hok & Hlc & Hnd & Hq).
  assert (u ∈ dj_queue st) as Huq by (rewrite Hpop; by left).
  destruct (Hq u Huq) as [Hu Hcu].
  rewrite Hpop in Hnd. apply NoDup_cons in Hnd as [Hnq Hnd'].
  unfold examine_vertex. destruct (decide (u = goal)) as [->|Hne]; [done|].
  set (st0 := mkDijkstraState (dj_pred st) (dj_dist st) (dj_color st) q').
  assert (dijkstra_inv gr0 s st0) as Hinv0.
  { unfold dijkstra_inv, st0. cbn [dj_pred dj_dist dj_color dj_queue].
    split_and!; try done. intros v Hv. apply Hq. rewrite Hpop. by right. }
  pose proof (dijkstra_out_edges_inv gr0 s u (out_edges gr0 u) st0 Hu
                (out_edges_lt gr0 u) Hinv0 Hcu Hnq) as Hedges.
  pose proof (dijkstra_out_edges_maps u (out_edges gr0 u) st0 Hu
                (fun v Hv => Hv) Hinv0 Hcu Hnq HI) as Hmaps.
  destruct (dijkstra_out_edges gr0 u (out_edges gr0 u) st0) as [st'|]; [|done].
  destruct Hedges as ((Hok' & Hlc' & Hnd'' & Hq') & Hcu' & Hnq' & _).
  apply IH; [|done].
  unfold dijkstra_inv. cbn [dj_pred dj_dist dj_color dj_queue].
  split_and!; [done|by rewrite length_insert|done|].
  intros v Hv. destruct (Hq' v Hv) as [Hvn Hvg]. split; [done|].
  rewrite list_lookup_total_insert_ne; [done|]. by intros ->.
Qed.

Variable h : Heuristic State.
Hypothesis h_frame : heuristic_frame h.

Lemma astar_out_edges_cons u w rest (st : AStarState State) :
  astar_out_edges h u (w :: rest) st =
    match astar_out_edges h u [w] st with
    | Some st1 => astar_out_edges h u rest st1
    | None => None
    end.
Proof.
  cbn [astar_out_edges].
  destruct (less (default DblMax (edge_weight (as_graph st) u w)) zero); [done|].
  destruct (relax u w _ (as_pred st) (as_dist st)) as [[[] ?] ?]; [|done].
  by destruct (h (as_graph st) w).
Qed.

Lemma astar_edge_maps u w ex (st : AStarState State) :
  u < n -> w ∈ out_edges gr0 u -> astar_inv gr0 s (fun _ _ => True) st ex ->
  Inv (as_pred st) (as_dist st) ->
  match astar_out_edges h u [w] st with
  | Some st' => Inv (as_pred st') (as_dist st')
  | None => True
  end.
Proof.
  intros Hu [Hw He]%elem_of_out_edges (Hok & _ & Hfl & _) HI. cbn [astar_out_edges].
  rewrite (flags_only_edge_weight gr0 (as_graph st) u w Hfl). fold (wt gr0 u w).
  destruct (less (wt gr0 u w) zero) eqn:Hneg; [done|].
  assert (is_Some (edge_weight gr0 w u)) as He'.
  { unfold edge_weight in *. by rewrite edge_key_sym. }
  destruct (relax_spec n s (as_pred st) (as_dist st) u w (wt gr0 u w) Hok Hu Hw Hneg)
    as (dec & p' & d' & Hrel & _ &
        [(-> & -> & ->)|[(-> & -> & -> & Hlt)|(-> & -> & -> & Hlt)]]);
    rewrite Hrel.
  - done.
  - destruct (h (as_graph st) w). cbn [as_pred as_dist]. auto.
  - destruct (h (as_graph st) w). cbn [as_pred as_dist].
    rewrite (wt_sym gr0 u w) in *. auto.
Qed.

Lemma astar_out_edges_maps u ex targets : forall (st : AStarState State),
  u < n -> (forall v, v ∈ targets -> v ∈ out_edges gr0 u) ->
  astar_inv gr0 s (fun _ _ => True) st ex -> less (as_dist st !!! u) DblMax = true ->
  Inv (as_pred st) (as_dist st) ->
  match astar_out_edges h u targets st with
  | Some st' => Inv (as_pred st') (as_dist st')
  | None => True
  end.
Proof.
  induction targets as [|w rest IH]; intros st Hu Ht Hinv Hfin HI; [done|].
  assert (w ∈ out_edges gr0 u) as Hw by (apply Ht; by left).
  rewrite astar_out_edges_cons.
  pose proof (astar_edge_maps u w ex st Hu Hw Hinv HI) as Hedge.
  pose proof (astar_out_edges_inv gr0 s h (fun _ _ => True) h_frame
                (fun _ _ => Logic.I) (fun _ _ _ _ _ => Logic.I) u ex [w] st Hu) as Hstep.
  destruct (astar_out_edges h u [w] st) as [st1|]; [|done].
  destruct Hstep as (Hinv1 & Hfin1 & _); try done.
  { intros x ->%list_elem_of_singleton. by apply (out_edges_lt gr0 u). }
  apply IH; try done. intros x Hx. apply Ht. by right.
Qed.

Lemma astar_loop_maps fuel : forall (st : AStarState State) nv ex,
  astar_inv gr0 s (fun _ _ => True) st ex -> Inv (as_pred st) (as_dist st) ->
  match astar_loop fuel h goal st nv ex with
  | Exhausted sd | Found sd => Inv (predecessor sd) (distance sd)
  | NegativeEdge | Running => True
  end.
Proof.
  induction fuel as [|fuel IH]; intros st nv ex Hinv HI; cbn [astar_loop]; [done|].
  destruct (astar_pop st) as [[[r v] q']|] eqn:Hpop; [|done].
  apply pop_min_perm in Hpop.
  destruct Hinv as (Hok & Hsp & Hfl & Hq & Hc).
  assert ((r, v) ∈ as_queue st) as Hvq by (rewrite Hpop; by left).
  destruct (Hq _ Hvq) as (Hv & Hfin & _). cbn in Hv, Hfin.
  unfold examine_vertex. destruct (decide (v = goal)) as [->|Hne]; [done|].
  set (st0 := mkAStarState (as_graph st) (as_pred st) (as_dist st) q').
  assert (astar_inv gr0 s (fun _ _ => True) st0 (v :: ex)) as Hinv0.
  { unfold astar_inv, st0. cbn [as_pred as_dist as_graph as_queue].
    split_and!; try done. intros rv Hrv. apply Hq. rewrite Hpop. by right. }
  assert (forall x, x ∈ out_edges (as_graph st) v -> x ∈ out_edges gr0 v) as Hout.
  { intros x Hx. by rewrite (flags_only_out_edges gr0) in Hx. }
  pose proof (astar_out_edges_inv gr0 s h (fun _ _ => True) h_frame
                (fun _ _ => Logic.I) (fun _ _ _ _ _ => Logic.I) v (v :: ex)
                (out_edges (as_graph st) v) st0 Hv
                (fun x Hx => out_edges_lt gr0 v x (Hout x Hx)) Hinv0 Hfin) as Hedges.
  pose proof (astar_out_edges_maps v (v :: ex) (out_edges (as_graph st) v) st0 Hv
                Hout Hinv0 Hfin HI) as Hmaps.
  destruct (astar_out_edges h v (out_edges (as_graph st) v) st0) as [st'|]; [|done].
  destruct Hedges as (Hinv' & _). by apply IH.
Qed.

(** The maps a search ends with satisfy every property that holds of the
    initial maps and that a relaxation along an edge keeps. *)
Lemma run_search_maps fuel pre :
  s < n -> Inv (seq 0 n) (<[s := zero]> (replicate n DblMax)) ->
  match run_search fuel gr0 h s goal pre with
  | Exhausted sd | Found sd => Inv (predecessor sd) (distance sd)
  | NegativeEdge | Running => True
  end.
Proof.
  intros Hs H0.
  assert (match astar_search_tree fuel gr0 s h goal with
          | Exhausted sd | Found sd => Inv (predecessor sd) (distance sd)
          | NegativeEdge | Running => True
          end) as HA.
  { unfold astar_search_tree.
    pose proof (astar_init_inv gr0 s h (fun _ _ => True) h_frame
                  (fun _ _ => Logic.I) Hs) as Hinit.
    apply astar_loop_maps; [done|].
    unfold astar_init. by destruct (h gr0 s). }
  unfold run_search, use_astar_hueristic_. destruct pre; [|done].
  unfold dijkstra_shortest_paths.
  apply dijkstra_loop_maps; [by apply dijkstra_init_inv|done].
Qed.

End MapsInvariant.

(** ** The predecessor links form a tree of edges *)

Section PredecessorTree.
Context {State : Type}.
Implicit Types (gr : GraphT State) (h : Heuristic State).

Lemma pred_tree_init gr s :
  pred_tree gr (seq 0 (num_vertices gr))
    (<[s := zero]> (replicate (num_vertices gr) DblMax)).
Proof. intros v Hv Hp. by rewrite lookup_total_seq_lt in Hp. Qed.

Lemma pred_tree_relax gr s p d u v :
  maps_ok (num_vertices gr) s p d -> pred_tree gr p d ->
  u < num_vertices gr -> v < num_vertices gr ->
  is_Some (edge_weight gr u v) -> less (wt gr u v) zero = false ->
  less (closed_plus (d !!! u) (wt gr u v)) (d !!! v) = true ->
  pred_tree gr (<[v := u]> p) (<[v := closed_plus (d !!! u) (wt gr u v)]> d).
Proof.
  intros Hok Ht Hu Hv He Hw Hlt.
  assert (u <> v) as Huv.
  { intros ->. rewrite closed_plus_ge in Hlt; [done| |done].
    by apply (mo_not_posinf _ _ _ _ Hok). }
  assert (forall x, (<[v := u]> p) !!! x = if decide (x = v) then u else p !!! x) as Hp'.
  { intros x. destruct (decide (x = v)) as [->|Hne].
    - apply list_lookup_total_insert_eq. rewrite (mo_len_p _ _ _ _ Hok). lia.
    - by apply list_lookup_total_insert_ne. }
  assert (forall x, (<[v := closed_plus (d !!! u) (wt gr u v)]> d) !!! x =
            if decide (x = v) then closed_plus (d !!! u) (wt gr u v) else d !!! x) as Hd'.
  { intros x. destruct (decide (x = v)) as [->|Hne].
    - apply list_lookup_total_insert_eq. rewrite (mo_len_d _ _ _ _ Hok). lia.
    - by apply list_lookup_total_insert_ne. }
  intros x Hx. rewrite !Hp', !Hd'. destruct (decide (x = v)) as [->|Hxv].
  - intros _. rewrite decide_False by done. split; [done|]. apply less_irrefl.
  - intros Hpx. destruct (Ht x Hx Hpx) as [Hex Hsl]. split; [done|].
    destruct (decide (p !!! x = v)) as [Hpv|Hpv]; [|done].
    pose proof (mo_reached _ _ _ _ Hok x Hx Hpx) as Hfin.
    rewrite Hpv in Hsl |- *. eapply slack_mono; [exact Hsl|done|by apply less_asym].
Qed.

(** The maps of a search that ended form a tree of edges. *)
Lemma run_search_pred_tree fuel gr h s goal pre :
  heuristic_frame h -> s < num_vertices gr ->
  match run_search fuel gr h s goal pre with
  | Exhausted sd | Found sd => pred_tree gr (predecessor sd) (distance sd)
  | NegativeEdge | Running => True
  end.
Proof.
  intros Hh Hs.
  apply (run_search_maps gr s goal (pred_tree gr)); try done.
  - intros p d u v. by apply pred_tree_relax.
  - apply pred_tree_init.
Qed.

End PredecessorTree.

(** ** The list returned, as a path of the graph *)

Section ReturnedPath.
Context {State : Type}.
Implicit Types (gr : GraphT State) (h : Heuristic State).

Lemma linked_tail p a l : linked p (a :: l) -> linked p l.
Proof. intros H k x y Hx Hy. by apply (H (S k)). Qed.

Lemma linked_prefix p l1 l2 : linked p (l1 ++ l2) -> linked p l1.
Proof.
  intros H k x y Hx Hy. apply (H k); by apply lookup_app_l_Some.
Qed.

(** A list linked by the predecessor map is in the order of the map. *)
Lemma linked_sorted n p d hops l :
  (forall v, v < n -> p !!! v <> v -> before d hops (p !!! v) v) ->
  linked p l -> (forall x, x ∈ l -> x < n) ->
  StronglySorted (before d hops) l.
Proof.
  intros Hch. induction l as [|a rest IH]; intros Hl Hr; constructor.
  - apply IH; [by eapply linked_tail|]. intros x Hx. apply Hr. by right.
  - destruct rest as [|b rest]; [constructor|].
    assert (before d hops a b) as Hab.
    { destruct (Hl 0 a b eq_refl eq_refl) as [<- Hne]. apply Hch; [|done].
      apply Hr. right. by left. }
    assert (StronglySorted (before d hops) (b :: rest)) as Hs.
    { apply IH; [by eapply linked_tail|]. intros x Hx. apply Hr. by right. }
    apply StronglySorted_inv in Hs as [_ Hall].
    constructor; [done|].
    eapply Forall_impl; [exact Hall|]. intros c Hbc. by eapply before_trans.
Qed.

Lemma linked_along_edges gr p d l :
  pred_tree gr p d -> linked p l -> (forall x, x ∈ l -> x < num_vertices gr) ->
  along_edges gr l.
Proof.
  intros Ht Hl Hr k a b Ha Hb. destruct (Hl k a b Ha Hb) as [<- Hne].
  apply Ht; [|done]. apply Hr. by eapply list_elem_of_lookup_2.
Qed.

(** The weight of a list linked by the predecessor map is no more than
    the distance of its last vertex. *)
Lemma linked_weight gr s p d l :
  maps_ok (num_vertices gr) s p d -> pred_tree gr p d -> linked p l ->
  (forall x, x ∈ l -> x < num_vertices gr) ->
  forall v, last l = Some v ->
    less (d !!! v) (path_weight gr (reverse l)) = false.
Proof.
  intros Hok Ht. induction l as [|v l IH] using rev_ind; intros Hl Hr v' Hlast; [done|].
  rewrite last_snoc in Hlast. injection Hlast as <-.
  assert (v < num_vertices gr) as Hv.
  { apply Hr. apply elem_of_app. right. by left. }
  rewrite reverse_snoc.
  destruct l as [|a0 l0] using rev_ind.
  { cbn. by apply (mo_nonneg _ _ _ _ Hok). }
  clear IHl0. rewrite reverse_snoc, path_weight_step.
  destruct (Hl (length l0) a0 v) as [Hpa Hne].
  { rewrite lookup_app_l by (rewrite length_app; cbn; lia).
    by rewrite lookup_app_r, Nat.sub_diag by lia. }
  { rewrite lookup_app_r by (rewrite length_app; cbn; lia).
    rewrite length_app. cbn. by replace (S (length l0) - (length l0 + 1)) with 0 by lia. }
  destruct (Ht v Hv Hne) as [_ Hsl]. rewrite Hpa in Hsl.
  eapply slack_mono; [exact Hsl|by apply (mo_reached _ _ _ _ Hok)|].
  rewrite <- reverse_snoc. apply IH.
  - by eapply linked_prefix.
  - intros x Hx. apply Hr. apply elem_of_app. by left.
  - by rewrite last_snoc.
Qed.

Lemma reconstruct_self fuel p ufcc v gr acc :
  p !!! v = v ->
  reconstruct (S fuel) p ufcc v gr acc =
    Some (v :: acc,
          if ufcc && is_blacklisted gr v then invalidate_out_edges gr v else gr).
Proof. intros H. cbn [reconstruct]. by rewrite decide_True. Qed.

(** What a call that found the goal returns, with the facts about its
    search that the properties below use. *)
Lemma computeShortestPath_found fuel gr h s goal pre ufcc path gr' :
  heuristic_frame h -> s < num_vertices gr ->
  computeShortestPath fuel gr h s goal pre ufcc = Returns (path, gr') ->
  path <> [] ->
  exists sd,
    run_search fuel gr h s goal pre = Found sd /\
    maps_ok (num_vertices gr) s (predecessor sd) (distance sd) /\
    pred_tree gr (predecessor sd) (distance sd) /\
    goal < num_vertices gr /\
    last path = Some goal /\ linked (predecessor sd) path /\
    (forall x, x ∈ path -> x < num_vertices gr) /\
    vertices gr' = vertices (store_distances (graph sd) (distance sd)) /\
    length (vertices (graph sd)) = length (vertices gr).
Proof.
  intros Hh Hs Hres Hne.
  pose proof (run_search_spec fuel gr h s goal pre Hh Hs) as Hsp.
  pose proof (run_search_pred_tree fuel gr h s goal pre Hh Hs) as Htree.
  pose proof (computeShortestPath_cases fuel gr h s goal pre ufcc Hh Hs) as Hc.
  destruct (run_search fuel gr h s goal pre) as [sd|sd| |]; try congruence.
  exists sd. destruct Hsp as ((_ & Hlen & _) & Hok & Hgoal & _).
  destruct Hc as (path' & gr'' & Hres' & Hv & Hlast & _ & _ & Hlink & _).
  rewrite Hres in Hres'. injection Hres' as <- <-.
  split_and!; try done.
  intros x Hx. by apply (linked_not_farther _ s (predecessor sd) (distance sd) path goal).
Qed.

(** X1. The list [computeShortestPath] returns is a path of the graph: its
    vertices are vertices of the graph, no vertex occurs twice, and every
    two consecutive vertices are joined by an edge. *)
Theorem computeShortestPath_returns_simple_path fuel gr h s goal pre ufcc path gr' :
  heuristic_frame h -> s < num_vertices gr ->
  computeShortestPath fuel gr h s goal pre ufcc = Returns (path, gr') ->
  NoDup path /\ (forall x, x ∈ path -> x < num_vertices gr) /\ along_edges gr path.
Proof.
  intros Hh Hs Hres. destruct path as [|x0 path0] eqn:Hp.
  { split_and!; [constructor|by intros x Hx%elem_of_nil|by intros k a b Ha]. }
  rewrite <- Hp in *.
  destruct (computeShortestPath_found fuel gr h s goal pre ufcc path gr' Hh Hs Hres)
    as (sd & _ & Hok & Htree & _ & _ & Hlink & Hr & _); [by rewrite Hp|].
  split_and!; [|done|by eapply linked_along_edges].
  destruct (mo_chain _ _ _ _ Hok) as [hops Hch].
  eapply StronglySorted_before_NoDup, linked_sorted; try done.
Qed.

(** X2. When a path is returned, the value written to the [g] of the goal
    is no less than the weight of the returned path in the graph that was
    searched. *)
Theorem computeShortestPath_goal_g_bounds_path fuel gr h s goal pre ufcc path gr' :
  heuristic_frame h -> s < num_vertices gr ->
  computeShortestPath fuel gr h s goal pre ufcc = Returns (path, gr') ->
  path <> [] ->
  exists vp', vertices gr' !! goal = Some vp' /\
    less (g vp') (path_weight gr (reverse path)) = false.
Proof.
  intros Hh Hs Hres Hne.
  destruct (computeShortestPath_found fuel gr h s goal pre ufcc path gr' Hh Hs Hres Hne)
    as (sd & _ & Hok & Htree & Hgoal & Hlast & Hlink & Hr & Hv & Hlen).
  destruct (lookup_lt_is_Some_2 (vertices (graph sd)) goal) as [vp Hvp].
  { rewrite Hlen. done. }
  exists (set_g (distance sd !!! goal) vp). split.
  - by rewrite Hv, store_distances_lookup, Hvp.
  - cbn. by eapply linked_weight.
Qed.

(** X3. The heuristic-precomputation pass returns a shortest path: when no
    weight is negative or the infinite cost and the list returned starts
    at the source, it is a walk from the source to the goal and no walk
    from the source to the goal weighs less. *)
Theorem computeShortestPath_precompute_path_is_shortest fuel gr h s goal ufcc path gr' :
  weights_ok gr -> s < num_vertices gr ->
  computeShortestPath fuel gr h s goal true ufcc = Returns (path, gr') ->
  head path = Some s ->
  walk gr s goal (reverse path) /\
  shortest_distance gr s goal (path_weight gr (reverse path)).
Proof.
  intros Hw Hs Hres Hhd.
  set (h0 := (fun gr i => (zero, gr)) : Heuristic State).
  assert (heuristic_frame h0) as Hh0 by (intros gr1 i; apply flags_only_refl).
  change (computeShortestPath fuel gr h0 s goal true ufcc = Returns (path, gr')) in Hres.
  destruct (computeShortestPath_found fuel gr h0 s goal true ufcc path gr' Hh0 Hs Hres)
    as (sd & Hsd & Hok & Htree & Hgoal & Hlast & Hlink & Hr & _); [by intros ->|].
  change (dijkstra_shortest_paths fuel gr s goal = Found sd) in Hsd.
  assert (walk gr s goal (reverse path)) as Hwalk.
  { split_and!.
    - by rewrite head_reverse.
    - by rewrite last_reverse.
    - intros x Hx. apply Hr. by apply elem_of_reverse. }
  split; [done|]. split; [|right; by exists (reverse path)].
  intros rp Hrp.
  destruct (dijkstra_shortest_paths_opt gr s goal Hw fuel sd Hs Hsd) as [Hshort _].
  pose proof (dijkstra_shortest_paths_spec gr s goal fuel Hs) as HD.
  rewrite Hsd in HD. destruct HD as (_ & _ & _ & ex' & Hex & _).
  destruct (Hshort goal) as [Hlow _]; [rewrite Hex; by left|].
  eapply not_less_trans; [by eapply linked_weight|]. by apply Hlow.
Qed.

(** X4. A search from a vertex for that vertex returns the list of that
    one vertex, whatever the graph, and writes the initial distance to the
    [g] of every other vertex and zero to its own. *)
Theorem computeShortestPath_start_is_goal fuel gr h s pre ufcc :
  heuristic_frame h -> s < num_vertices gr ->
  exists gr',
    computeShortestPath (S fuel) gr h s s pre ufcc = Returns ([s], gr') /\
    forall v vp', vertices gr' !! v = Some vp' ->
      g vp' = if decide (v = s) then zero else DblMax.
Proof.
  intros Hh Hs.
  assert (exists gr1, length (vertices gr1) = length (vertices gr) /\
            run_search (S fuel) gr h s s pre =
              Found (mkSearchData gr1 (seq 0 (num_vertices gr))
                       (<[s := zero]> (replicate (num_vertices gr) DblMax)) 1 [s]))
    as (gr1 & Hlen & Hrun).
  { unfold run_search, use_astar_hueristic_. destruct pre.
    - exists gr. split; [done|].
      unfold dijkstra_shortest_paths, dijkstra_init. cbn.
      unfold examine_vertex. by rewrite decide_True.
    - unfold astar_search_tree, astar_init.
      pose proof (Hh gr s) as (_ & Hl & _). destruct (h gr s) as [h_s gr1].
      exists gr1. split; [done|]. cbn.
      unfold examine_vertex. by rewrite decide_True. }
  unfold computeShortestPath. rewrite Hrun. cbn [graph predecessor distance].
  set (d := <[s := zero]> (replicate (num_vertices gr) DblMax)).
  rewrite store_distances_num_vertices. unfold num_vertices at 1. rewrite Hlen.
  fold (num_vertices gr). destruct (num_vertices gr) as [|k] eqn:Hn; [lia|].
  rewrite reconstruct_self by (by rewrite lookup_total_seq_lt).
  eexists. split; [done|].
  intros v vp' Hvp'.
  assert (vertices (if ufcc && is_blacklisted (store_distances gr1 d) s
                    then invalidate_out_edges (store_distances gr1 d) s
                    else store_distances gr1 d) = vertices (store_distances gr1 d)) as Hv.
  { destruct (_ && _); [apply invalidate_out_edges_vertices|done]. }
  rewrite Hv, store_distances_lookup in Hvp'.
  destruct (vertices gr1 !! v) as [vp|] eqn:Hvp; [|done].
  injection Hvp' as <-. cbn. apply lookup_lt_Some in Hvp.
  unfold d. destruct (decide (v = s)) as [->|Hne].
  - apply list_lookup_total_insert_eq. rewrite length_replicate. lia.
  - rewrite list_lookup_total_insert_ne by done.
    apply lookup_total_replicate_2. unfold num_vertices in Hn. lia.
Qed.

End ReturnedPath.

(* ------------------------------------------------------------------ *)
(** * Further properties of [populateOmplPathfromVertexPath] *)

Section PathAssemblerAgain.
Context {State Control : Type}.
Variable propagationStepSize : Q.

Lemma populate_loop_range l : forall index (gr : GraphT State)
    (heap : ControlHeap Control) path r,
  populate_loop propagationStepSize l index gr heap path = Some r ->
  forall i, i ∈ l -> i < num_vertices gr.
Proof.
  induction l as [|i rest IH]; intros index gr heap path r Hrun j Hj.
  { by apply elem_of_nil in Hj. }
  cbn [populate_loop] in Hrun.
  destruct (vertices gr !! i) as [vp|] eqn:Hvp; [|done].
  apply elem_of_cons in Hj as [->|Hj]; [by eapply lookup_lt_Some|].
  destruct (control vp) as [c|].
  - by eapply IH.
  - cbn in Hrun. eapply IH in Hrun; [|done].
    unfold num_vertices, update_vertex in *. cbn in Hrun.
    by rewrite length_alter in Hrun.
Qed.

Lemma default_uninit_grown (heap : ControlHeap Control) k c :
  default Uninit ((heap ++ replicate k Uninit) !! c) = default Uninit (heap !! c).
Proof.
  destruct (decide (c < length heap)) as [Hc|Hc].
  - by rewrite lookup_app_l.
  - rewrite lookup_app_r by lia. rewrite (lookup_ge_None_2 heap) by lia. cbn.
    destruct (replicate k Uninit !! (c - length heap)) as [x|] eqn:E; [|done].
    by apply lookup_replicate in E as [-> _].
Qed.

(** A second run of the loop over the graph and the heap the first run
    left appends what the first run appended and changes nothing. *)
Lemma populate_loop_again l : forall index (gr : GraphT State)
    (heap : ControlHeap Control) path gr' heap' path',
  populate_loop propagationStepSize l index gr heap path = Some (gr', heap', path') ->
  exists sts cs ds,
    path' = mkPathControl (states path ++ sts) (controls path ++ cs)
              (controlDurations path ++ ds) /\
    forall q, populate_loop propagationStepSize l index gr' heap' q =
      Some (gr', heap', mkPathControl (states q ++ sts) (controls q ++ cs)
                          (controlDurations q ++ ds)).
Proof.
  induction l as [|i rest IH]; intros index gr heap path gr' heap' path' Hrun.
  { cbn in Hrun. injection Hrun as <- <- <-. exists [], [], [].
    rewrite !app_nil_r. split; [by destruct path|].
    intros q. cbn. rewrite !app_nil_r. by destruct q. }
  pose proof (populate_loop_range _ _ _ _ _ _ Hrun) as Hrange.
  cbn [populate_loop] in Hrun.
  destruct (vertices gr !! i) as [vp|] eqn:Hvp; [|done].
  set (step := match control vp with
               | Some c => (c, gr, heap)
               | None =>
                   let '(c, heap1) := allocControl heap in
                   (c, update_vertex gr i (set_control (Some c)), heap1)
               end) in Hrun.
  destruct step as [[c gr1] heap1] eqn:Hstep.
  assert (exists vp1, vertices gr1 !! i = Some vp1 /\ control vp1 = Some c /\
            state vp1 = state vp /\ control_duration vp1 = control_duration vp /\
            num_vertices gr1 = num_vertices gr) as (vp1 & Hvp1 & Hc1 & Hs1 & Hd1 & Hn1).
  { subst step. destruct (control vp) as [c0|] eqn:Hc.
    - injection Hstep as <- <- <-. by exists vp.
    - cbn in Hstep. injection Hstep as <- <- <-.
      exists (set_control (Some (length heap)) vp). cbn.
      rewrite list_lookup_alter_eq, Hvp. split_and!; try done.
      unfold num_vertices. cbn. by rewrite length_alter. }
  cbv beta iota zeta in Hrun.
  match type of Hrun with
  | populate_loop _ _ _ _ _ ?p = _ => set (path1 := p) in Hrun
  end.
  destruct (populate_loop_spec propagationStepSize rest (S index) gr1 heap1 path1)
    as (gr2 & heap2 & path2 & _ & _ & _ & Hrun2 & Hframe & _).
  { intros j Hj. rewrite Hn1. apply Hrange. by right. }
  rewrite Hrun in Hrun2. injection Hrun2 as <- <- <-.
  destruct Hframe as (_ & _ & (k & Hheap) & Hvs).
  destruct (Hvs i vp1 Hvp1) as (vp' & Hvp' & Hs' & Hd' & _ & _ & _ & Hc').
  rewrite Hc1 in Hc'.
  destruct (IH _ _ _ _ _ _ _ Hrun) as (sts & cs & ds & Hpath & Hagain).
  assert (default Uninit (heap' !! c) = default Uninit (heap1 !! c)) as Hcell.
  { rewrite Hheap. apply default_uninit_grown. }
  destruct (decide (index = 0)) as [Hidx|Hidx].
  - exists (state vp :: sts), cs, ds. split.
    + rewrite Hpath. cbn. by rewrite <- app_assoc.
    + intros q. cbn [populate_loop]. rewrite Hvp', Hc'. rewrite decide_True by done.
      rewrite Hagain. cbn. by rewrite <- app_assoc, Hs', Hs1.
  - exists (state vp :: sts), (default Uninit (heap1 !! c) :: cs),
      (duration_of propagationStepSize (control_duration vp) :: ds). split.
    + rewrite Hpath. cbn. by rewrite <- !app_assoc.
    + intros q. cbn [populate_loop]. rewrite Hvp', Hc'. rewrite decide_False by done.
      rewrite Hagain. cbn. by rewrite <- !app_assoc, Hs', Hs1, Hd', Hd1, Hcell.
Qed.

Lemma populate_twice_allocates_once_aux (vertex_path : list vertex_descriptor)
    (gr gr' : GraphT State) (heap heap' : ControlHeap Control)
    (path : PathControl State Control) :
  populateOmplPathfromVertexPath propagationStepSize vertex_path gr heap
    = Some (gr', heap', path) ->
  populate_loop propagationStepSize vertex_path 0 gr' heap' emptyPath
    = Some (gr', heap', path).
Proof.
  unfold populateOmplPathfromVertexPath. intros Hrun.
  destruct (populate_loop_again _ _ _ _ _ _ _ _ Hrun) as (sts & cs & ds & -> & Hagain).
  by rewrite Hagain.
Qed.

(** X5. Path assembly is idempotent: run again on the graph and the heap
    it left, it allocates nothing, changes nothing and builds the same
    path. *)
Theorem populate_twice_allocates_once (vertex_path : list vertex_descriptor)
    (gr gr' : GraphT State) (heap heap' : ControlHeap Control)
    (path : PathControl State Control) :
  populateOmplPathfromVertexPath propagationStepSize vertex_path gr heap
    = Some (gr', heap', path) ->
  populateOmplPathfromVertexPath propagationStepSize vertex_path gr' heap'
    = Some (gr', heap', path).
Proof.
  intros Hrun. unfold populateOmplPathfromVertexPath.
  exact (populate_twice_allocates_once_aux _ _ _ _ _ _ Hrun).
Qed.

Lemma has_null_control_update (gr : GraphT State) i c j :
  has_null_control (update_vertex gr i (set_control (Some c))) j =
  if decide (j = i) then false else has_null_control gr j.
Proof.
  unfold has_null_control, update_vertex. cbn.
  destruct (decide (j = i)) as [->|Hne].
  - rewrite list_lookup_alter_eq. by destruct (vertices gr !! i).
  - by rewrite list_lookup_alter_ne.
Qed.

Lemma null_controls_cons_set (gr : GraphT State) i c rest :
  has_null_control gr i = true ->
  null_controls gr (i :: rest) =
    {[i]} ∪ null_controls (update_vertex gr i (set_control (Some c))) rest /\
  i ∉ null_controls (update_vertex gr i (set_control (Some c))) rest.
Proof.
  intros Hi. unfold null_controls. split.
  - apply set_eq. intros x.
    rewrite elem_of_union, elem_of_singleton, !elem_of_list_to_set,
      !list_elem_of_filter, elem_of_cons, has_null_control_update.
    destruct (decide (x = i)) as [->|Hne]; intuition congruence.
  - rewrite elem_of_list_to_set, list_elem_of_filter, has_null_control_update.
    rewrite decide_True by done. by intros [? _].
Qed.

Lemma populate_loop_heap_growth l : forall index (gr : GraphT State)
    (heap : ControlHeap Control) path gr' heap' path',
  populate_loop propagationStepSize l index gr heap path = Some (gr', heap', path') ->
  length heap' = length heap + size (null_controls gr l).
Proof.
  induction l as [|i rest IH]; intros index gr heap path gr' heap' path' Hrun.
  { cbn in Hrun. injection Hrun as <- <- <-.
    unfold null_controls. cbn. rewrite size_empty. lia. }
  cbn [populate_loop] in Hrun.
  destruct (vertices gr !! i) as [vp|] eqn:Hvp; [|done].
  destruct (control vp) as [c|] eqn:Hc.
  - apply IH in Hrun. rewrite Hrun. f_equal. unfold null_controls.
    rewrite filter_cons_False; [done|].
    unfold has_null_control. by rewrite Hvp, Hc.
  - cbn in Hrun. apply IH in Hrun. rewrite Hrun, length_app. cbn [length].
    destruct (null_controls_cons_set gr i (length heap) rest) as [-> Hni].
    { unfold has_null_control. by rewrite Hvp, Hc. }
    rewrite size_union by set_solver. rewrite size_singleton. lia.
Qed.

(** X6. Path assembly allocates one control for every vertex of the list
    whose control pointer is null, counted once however often the vertex
    occurs in the list. *)
Theorem populate_allocations_counted (vertex_path : list vertex_descriptor)
    (gr gr' : GraphT State) (heap heap' : ControlHeap Control)
    (path : PathControl State Control) :
  populateOmplPathfromVertexPath propagationStepSize vertex_path gr heap
    = Some (gr', heap', path) ->
  length heap' = length heap + size (null_controls gr vertex_path) /\
  size (null_controls gr' vertex_path) = 0.
Proof.
  intros Hrun. split; [by eapply populate_loop_heap_growth|].
  pose proof (populate_twice_allocates_once_aux _ _ _ _ _ _ Hrun) as Hagain.
  apply populate_loop_heap_growth in Hagain. lia.
Qed.

End PathAssemblerAgain.

(* ------------------------------------------------------------------ *)
(** * Further properties of [SE2PlannerControlSpace::propagate] *)

(** X7. A state written by [propagate] cannot be the start state of a
    next step: the call reads its position through the pointers the
    first call wrote over. *)
Theorem propagate_result_is_no_start
    (mem mem' : Memory) (Ls Lr : CompoundLayout) (s r : CompoundState)
    (c : ControlType) (duration : R) :
  allocated mem Ls s -> allocated mem Lr r ->
  NoDup (addresses Ls ++ addresses Lr) ->
  propagate (at_state Ls) c duration (at_state Lr) mem = Some mem' ->
  forall (c' : ControlType) (duration' : R) (result' : nat),
    propagate (at_state Lr) c' duration' result' mem' = None.
Proof.
  intros Hs Hr Hnd Hrun c' duration' result'.
  destruct (propagate_apart_lookup mem Ls Lr s r c duration Hs Hr Hnd)
    as (mem1 & Hrun1 & _ & R1 & R2 & R3 & R4 & R5 & R6 & R7 & R8 & R9 & _).
  rewrite Hrun in Hrun1. injection Hrun1 as <-.
  unfold propagate. unfold_accessors. by step_mem.
Qed.

(** X9. A call in place, with the start state as the result state, is
    undefined: [setYaw] writes the new yaw over the pointer to the values
    of the velocity vector, and the new velocity is then written through
    that word. *)
Theorem propagate_in_place_is_undefined
    (mem : Memory) (L : CompoundLayout) (s : CompoundState)
    (c : ControlType) (duration : R) :
  allocated mem L s -> NoDup (addresses L) ->
  propagate (at_state L) c duration (at_state L) mem = None.
Proof.
  intros (H1 & H2 & H3 & H4 & H5 & H6 & H7 & H8 & H9) Hnd.
  destruct L. unfold addresses in Hnd. cbn in *. distinct_addresses Hnd.
  clear Hnd. unfold propagate. unfold_accessors. by step_mem.
Qed.

(* ------------------------------------------------------------------ *)
(** * [SE2PlannerControlSpace]: the octomap and the validity of states *)

Section OctomapPlannerProperties.
Context {Octomap Tree : Type}.
Variable readTree : Octomap -> Tree.
Variable isCollision : Tree -> R * R * R * R -> bool.

(** Once a message is stored, the tree, if built, is the tree of that
    message. *)
Lemma handle_events_ready evs : forall (st : SE2PlannerState Octomap Tree),
  is_octomap_ready_ st = true ->
  (forall t, fcl_octree_ st = Some t -> t = readTree (octomap_msg_ st)) ->
  exists st',
    handle_events readTree isCollision evs st =
      ((fun s => negb (isCollision (readTree (octomap_msg_ st))
                         (getX s, getY s, 0.5, getYaw s)%R)) <$> queried evs, st') /\
    is_octomap_ready_ st' = true /\ octomap_msg_ st' = octomap_msg_ st /\
    (forall t, fcl_octree_ st' = Some t -> t = readTree (octomap_msg_ st)).
Proof.
  induction evs as [|[msg|state] rest IH]; intros st Hready Htree.
  - exists st. done.
  - cbn [handle_events]. unfold octomapCallback. rewrite Hready. cbn [negb].
    by apply IH.
  - cbn [handle_events]. unfold isStateValid. rewrite Hready.
    set (tree := match fcl_octree_ st with
                 | Some t => t
                 | None => readTree (octomap_msg_ st)
                 end).
    assert (tree = readTree (octomap_msg_ st)) as Ht.
    { subst tree. destruct (fcl_octree_ st) as [t|] eqn:E; [by apply Htree|done]. }
    match goal with |- context [handle_events _ _ rest ?st1] =>
      destruct (IH st1) as (st' & Hrun & Hr' & Hm' & Ht') end.
    { done. }
    { cbn. by intros t [= <-]. }
    rewrite Hrun. exists st'. cbn in *. rewrite Ht. done.
Qed.

(** X10. Until an octomap message has arrived, every state is reported
    invalid and the planner's members do not change. *)
Theorem isStateValid_false_before_octomap (evs : list (PlannerEvent Octomap))
    (st : SE2PlannerState Octomap Tree) :
  is_octomap_ready_ st = false ->
  forallb is_query evs = true ->
  handle_events readTree isCollision evs st = (replicate (length evs) false, st).
Proof.
  intros Hready. induction evs as [|[msg|state] rest IH]; intros Hq; [done|done|].
  cbn [handle_events]. unfold isStateValid. rewrite Hready.
  cbn in Hq. rewrite (IH Hq). done.
Qed.

(** X11. The first octomap message is the one that counts: after it, every
    state is checked against the tree built from it, whatever messages
    arrive later, and it stays the stored message. *)
Theorem first_octomap_decides_validity (msg : Octomap)
    (evs : list (PlannerEvent Octomap)) (st : SE2PlannerState Octomap Tree) :
  is_octomap_ready_ st = false -> fcl_octree_ st = None ->
  exists st',
    handle_events readTree isCollision (OctomapReceived msg :: evs) st =
      ((fun s => negb (isCollision (readTree msg)
                         (getX s, getY s, 0.5, getYaw s)%R)) <$> queried evs, st') /\
    is_octomap_ready_ st' = true /\ octomap_msg_ st' = msg.
Proof.
  intros Hready Htree. cbn [handle_events]. unfold octomapCallback.
  rewrite Hready. cbn [negb].
  match goal with |- context [handle_events _ _ evs ?st1] =>
    destruct (handle_events_ready evs st1) as (st' & Hrun & Hr' & Hm' & _) end.
  { done. }
  { cbn. by rewrite Htree. }
  exists st'. done.
Qed.

End OctomapPlannerProperties.

(* ------------------------------------------------------------------ *)
(** * The choice of the OMPL planner by name *)

(** X12. [SE2PlannerControlSpace::initializeSelectedPlanner] logs its
    warning exactly for the names it does not test for, and then constructs
    KPIECE1.  The name declared as the default of the parameter,
    ["PRMStar"], is such a name, while the SE3 plugin, which declares the
    same default, knows it and constructs PRMstar without a warning. *)
Theorem unknown_planner_name_falls_back_to_KPIECE1 (name : string) :
  ((initializeSelectedPlanner name).2 = [] <-> name ∈ control_space_planner_names) /\
  ((initializeSelectedPlanner name).2 <> [] ->
     initializeSelectedPlanner name = (control_KPIECE1, [planner_not_found_warning])) /\
  initializeSelectedPlanner (planner_name_ None)
    = (control_KPIECE1, [planner_not_found_warning]) /\
  SE3_initializeSelectedPlanner (planner_name_ None) = (geometric_PRMstar, []).
Proof.
  split_and!; [|  |done|done].
  - unfold initializeSelectedPlanner, control_space_planner_names.
    rewrite !elem_of_cons, elem_of_nil.
    repeat (case_decide; [cbn; intuition congruence|]). cbn. intuition congruence.
  - unfold initializeSelectedPlanner.
    repeat (case_decide; [by cbn|]). done.
Qed.

(* ------------------------------------------------------------------ *)
(** * [TraversabilityBasedPlanRefiner] *)

Section PlanRefinerProperties.
Context {PointT : Type}.
Variable dist : PointT -> PointT -> double.

Lemma less_PosInf (a : double) : a <> PosInf -> less a PosInf = true.
Proof. by destruct a. Qed.

(** The loop from vertex [length pre] on, [dist_min] being a least
    distance over [pre], reached first at [nn_vertex]. *)
Lemma nearest_vertex_loop_spec (point : PointT) rest : forall pre dist_min nn,
  (forall u cu, pre !! u = Some cu -> less (dist point cu) dist_min = false) ->
  match nn with
  | Some v => exists c, pre !! v = Some c /\ dist_min = dist point c /\
                        dist_min <> PosInf /\
                        forall u cu, u < v -> pre !! u = Some cu ->
                                     less dist_min (dist point cu) = true
  | None => dist_min = PosInf
  end ->
  match nearest_vertex_loop dist point rest (length pre) dist_min nn with
  | Some v =>
      exists c, (pre ++ rest) !! v = Some c /\ dist point c <> PosInf /\
        forall u cu, (pre ++ rest) !! u = Some cu ->
          less (dist point cu) (dist point c) = false /\
          (u < v -> less (dist point c) (dist point cu) = true)
  | None =>
      forall u cu, (pre ++ rest) !! u = Some cu -> dist point cu = PosInf
  end.
Proof.
  induction rest as [|x rest IH]; intros pre dist_min nn Hmin Hnn.
  - cbn [nearest_vertex_loop]. rewrite app_nil_r. destruct nn as [v|].
    + destruct Hnn as (c & Hc & -> & Hfin & Hfirst). exists c. split_and!; try done.
      intros u cu Hu. split; [by eapply Hmin|]. intros Huv. by eapply Hfirst.
    + subst dist_min. intros u cu Hu. specialize (Hmin u cu Hu).
      by destruct (dist point cu).
  - cbn [nearest_vertex_loop].
    replace (pre ++ x :: rest) with ((pre ++ [x]) ++ rest) by (by rewrite <- app_assoc).
    replace (S (length pre)) with (length (pre ++ [x]))
      by (rewrite length_app; cbn; lia).
    destruct (less (dist point x) dist_min) eqn:Hlt.
    + apply IH.
      * intros u cu [Hu|[_ Hu]]%lookup_app_Some.
        -- destruct (less (dist point cu) (dist point x)) eqn:E; [|done].
           pose proof (Hmin u cu Hu) as Hm. by rewrite (less_trans _ _ _ E Hlt) in Hm.
        -- apply list_lookup_singleton_Some in Hu as [_ <-]. apply less_irrefl.
      * exists x. split_and!.
        -- rewrite lookup_app_r by lia. by rewrite Nat.sub_diag.
        -- done.
        -- by eapply less_not_posinf.
        -- intros u cu Hu Hcu. rewrite lookup_app_l in Hcu by done.
           eapply less_not_less_trans; [exact Hlt|]. by eapply Hmin.
    + apply IH.
      * intros u cu [Hu|[_ Hu]]%lookup_app_Some; [by eapply Hmin|].
        by apply list_lookup_singleton_Some in Hu as [_ <-].
      * destruct nn as [v|]; [|done].
        destruct Hnn as (c & Hc & -> & Hfin & Hfirst). exists c.
        pose proof (lookup_lt_Some _ _ _ Hc) as Hv.
        split_and!; try done.
        -- by apply lookup_app_l_Some.
        -- intros u cu Hu Hcu. rewrite lookup_app_l in Hcu by lia. by eapply Hfirst.
Qed.

(** X13. [get_nearest_vertex] returns the first vertex among those nearest
    to the point: no vertex is nearer, and every vertex before it is
    strictly farther.  When the graph has no vertex, or every vertex is at
    distance [INFINITY], the value returned is indeterminate. *)
Theorem get_nearest_vertex_is_first_nearest (g : list PointT) (point : PointT) :
  match get_nearest_vertex dist g point with
  | Some v =>
      exists c, g !! v = Some c /\ dist point c <> PosInf /\
        forall u cu, g !! u = Some cu ->
          less (dist point cu) (dist point c) = false /\
          (u < v -> less (dist point c) (dist point cu) = true)
  | None => forall u cu, g !! u = Some cu -> dist point cu = PosInf
  end.
Proof.
  unfold get_nearest_vertex.
  apply (nearest_vertex_loop_spec point g [] PosInf None); [|done].
  intros u cu Hu. done.
Qed.

Variable convert_to_value : PointT -> Q.

Lemma traversability_sum (lo hi : Q) cloud : forall (s : Q) (k : nat),
  (forall p, p ∈ cloud -> lo <= convert_to_value p /\ convert_to_value p <= hi)%Q ->
  exists s',
    foldl (fun '(s, k) p => ((s + convert_to_value p)%Q, S k)) (s, k) cloud
      = (s', k + length cloud) /\
    (s + inject_Z (Z.of_nat (length cloud)) * lo <= s')%Q /\
    (s' <= s + inject_Z (Z.of_nat (length cloud)) * hi)%Q.
Proof.
  induction cloud as [|p cloud IH]; intros s k Hb.
  - exists s. split; [cbn; by rewrite Nat.add_0_r|]. cbn [length].
    change (inject_Z (Z.of_nat 0)) with 0%Q. split; lra.
  - destruct (IH (s + convert_to_value p)%Q (S k)) as (s' & Hrun & Hlo & Hhi).
    { intros q Hq. apply Hb. by right. }
    destruct (Hb p) as [Hplo Hphi]; [by left|].
    exists s'. cbn [foldl length]. rewrite Hrun. split; [f_equal; lia|].
    rewrite Nat2Z.inj_succ, <- Z.add_1_r, inject_Z_plus.
    set (K := inject_Z (Z.of_nat (length cloud))) in *.
    assert ((K + inject_Z 1) * lo == K * lo + lo)%Q as E1 by ring.
    assert ((K + inject_Z 1) * hi == K * hi + hi)%Q as E2 by ring.
    rewrite E1, E2. set (A := (K * lo)%Q) in *. set (B := (K * hi)%Q) in *.
    split; lra.
Qed.

(** X14. The average traversability of an empty cloud is 0, and that of
    any other cloud lies between any two bounds on the values of its
    points, wherever the query point is. *)
Theorem computeAverageTraversability_bounds (lo hi : Q) (cloud : list PointT)
    (point : PointT) :
  (forall p, p ∈ cloud -> lo <= convert_to_value p /\ convert_to_value p <= hi)%Q ->
  computeAverageTraversability convert_to_value [] point = 0%Q /\
  (cloud <> [] ->
   (lo <= computeAverageTraversability convert_to_value cloud point)%Q /\
   (computeAverageTraversability convert_to_value cloud point <= hi)%Q).
Proof.
  intros Hb. split; [done|]. intros Hne. unfold computeAverageTraversability.
  destruct (traversability_sum lo hi cloud 0%Q 0 Hb) as (s' & -> & Hlo & Hhi).
  cbn [Nat.add]. destruct cloud as [|p cloud]; [done|].
  set (k := length (p :: cloud)) in *.
  assert (0 < inject_Z (Z.of_nat k))%Q as Hk.
  { change 0%Q with (inject_Z 0). rewrite <- Zlt_Qlt. subst k. cbn [length]. lia. }
  assert (Nat.eqb k 0 = false) as -> by (subst k; done).
  split.
  - apply Qle_shift_div_l; [done|]. lra.
  - apply Qle_shift_div_r; [done|]. lra.
Qed.

End PlanRefinerProperties.

(* ------------------------------------------------------------------ *)
(** * [OctoCostOptimizationObjective::stateCost] *)

(** X15. The cost of a state is the blue of the node of the octree at its
    position when there is one, occupied and with no red, and 2 in every
    other case; so it is never negative and never more than 255. *)
Theorem stateCost_range (search : R -> R -> R -> option ColorOcTreeNode)
    (x y z : R) :
  (forall nd, search x y z = Some nd -> node_occupied nd = true ->
     Byte.to_N (color_r nd) = 0%N ->
     stateCost search x y z = inject_Z (Z.of_N (Byte.to_N (color_b nd)))) /\
  (search x y z = None -> stateCost search x y z = 2%Q) /\
  (forall nd, search x y z = Some nd ->
     node_occupied nd = false \/ Byte.to_N (color_r nd) <> 0%N ->
     stateCost search x y z = 2%Q) /\
  (0 <= stateCost search x y z)%Q /\ (stateCost search x y z <= 255)%Q.
Proof.
  assert (forall q : Z, (0 <= q <= 255)%Z ->
            (0 <= inject_Z q)%Q /\ (inject_Z q <= 255)%Q) as Hrange.
  { intros q Hq. change 0%Q with (inject_Z 0). change 255%Q with (inject_Z 255).
    rewrite <- !Zle_Qle. lia. }
  unfold stateCost. destruct (search x y z) as [nd|]; [|split_and!; done].
  pose proof (Byte.to_N_bounded (color_b nd)) as Hb.
  destruct (node_occupied nd) eqn:Hocc;
    [destruct (N.eqb (Byte.to_N (color_r nd)) 0) eqn:Hr;
       [apply N.eqb_eq in Hr | apply N.eqb_neq in Hr]|];
    split_and!; try done;
    try (intros nd' [= <-]; intros; first [done | congruence | intuition congruence]);
    apply Hrange; lia.
Qed.

(* ------------------------------------------------------------------ *)
(** * When [computeShortestPath] returns no path *)

Section DijkstraReach.
Context {State : Type}.
Variable gr : GraphT State.
Variable s goal : nat.

Local Abbreviation n := (num_vertices gr).

Lemma connected_source : s < n -> connected gr s s.
Proof.
  intros Hs. exists [s]. split.
  - split_and!; [done..|]. by intros x ->%list_elem_of_singleton.
  - intros k a b Ha Hb. by destruct k.
Qed.

Lemma connected_step u v :
  v < n -> is_Some (edge_weight gr u v) -> connected gr s u -> connected gr s v.
Proof.
  intros Hv He (rp & (Hhd & Hlast & Hin) & Hal).
  destruct rp as [|u' rest]; [done|]. injection Hhd as ->.
  exists (v :: u :: rest). split.
  - split_and!; [done..|]. intros x [->|Hx]%elem_of_cons; auto.
  - intros [|k] a b Ha Hb.
    + injection Ha as <-. injection Hb as <-.
      unfold edge_weight in *. by rewrite edge_key_sym.
    + by apply (Hal k).
Qed.

Lemma dijkstra_init_reach : s < n -> dijkstra_reach_inv gr s [] (dijkstra_init gr s) [].
Proof.
  intros Hs. unfold dijkstra_reach_inv, dijkstra_init.
  cbn [dj_pred dj_dist dj_color dj_queue].
  assert (forall v, v < n ->
            <[s := gray_color]> (replicate n white_color) !!! v =
            if decide (v = s) then gray_color else white_color) as Hc.
  { intros v Hv. destruct (decide (v = s)) as [->|Hne].
    - apply list_lookup_total_insert_eq. by rewrite length_replicate.
    - rewrite list_lookup_total_insert_ne by done.
      by apply lookup_total_replicate_2. }
  split_and!.
  - intros v Hv. rewrite Hc by done. case_decide; [|done].
    intros _. left. by apply list_elem_of_singleton.
  - intros v Hv. rewrite Hc by done. by case_decide.
  - intros v t Hv _. rewrite Hc by done. by case_decide.
  - rewrite Hc by done. by rewrite decide_True.
  - intros v Hv. rewrite Hc by done. case_decide; [subst v|done].
    intros _. by apply connected_source.
Qed.

(** The examination of the edge from [u] to [v]. *)
Lemma dijkstra_edge_reach u v st ex :
  u < n -> v ∈ out_edges gr u ->
  dijkstra_inv gr s st -> dj_color st !!! u = gray_color ->
  dijkstra_reach_inv gr s [u] st ex ->
  match dijkstra_out_edges gr u [v] st with
  | Some st' =>
      dijkstra_reach_inv gr s [u] st' ex /\
      dj_color st' !!! v <> white_color /\
      (forall t, dj_color st !!! t <> white_color -> dj_color st' !!! t <> white_color)
  | None => True
  end.
Proof.
  intros Hu [Hv He]%elem_of_out_edges (Hok & Hlc & Hnd & Hq) Hcu
    (Hgray & Hblack & Hclosed & Hsrc & Hconn).
  cbn [dijkstra_out_edges].
  destruct (less (closed_plus zero (default DblMax (edge_weight gr u v))) zero); [done|].
  destruct (dj_color st !!! v) eqn:Hcv.
  - destruct (relax_target u v _ (dj_pred st) (dj_dist st)) as [[dec p'] d'].
    assert (forall t, <[v := gray_color]> (dj_color st) !!! t =
              if decide (t = v) then gray_color else dj_color st !!! t) as Hc.
    { intros t. destruct (decide (t = v)) as [->|Hne].
      - apply list_lookup_total_insert_eq. lia.
      - by apply list_lookup_total_insert_ne. }
    unfold dijkstra_reach_inv. cbn [dj_pred dj_dist dj_color dj_queue].
    split_and!.
    + intros x Hx. rewrite Hc. case_decide as Hxv.
      * intros _. left. apply elem_of_app. right. by apply list_elem_of_singleton.
      * intros Hg. destruct (Hgray x Hx Hg) as [Hin|Hin]; [left|by right].
        apply elem_of_app. by left.
    + intros x Hx. rewrite Hc. case_decide; [done|]. auto.
    + intros x t Hx Ht. rewrite !Hc. case_decide; [done|].
      intros Hb Hedge. case_decide; [done|]. by apply (Hclosed x t).
    + rewrite Hc. by case_decide.
    + intros x Hx. rewrite Hc. case_decide as Hxv; [subst x|by auto].
      intros _. apply (connected_step u v Hv He). apply Hconn; [done|]. by rewrite Hcu.
    + rewrite Hc. by rewrite decide_True.
    + intros t Ht. rewrite Hc. by case_decide.
  - destruct (relax_target u v _ (dj_pred st) (dj_dist st)) as [[dec p'] d'].
    unfold dijkstra_reach_inv. cbn [dj_pred dj_dist dj_color dj_queue].
    split_and!; try done. by rewrite Hcv.
  - split_and!; [done| |done]. by rewrite Hcv.
Qed.

Lemma dijkstra_out_edges_reach u targets : forall st ex,
  u < n -> (forall v, v ∈ targets -> v ∈ out_edges gr u) ->
  dijkstra_inv gr s st -> dj_color st !!! u = gray_color -> u ∉ dj_queue st ->
  dijkstra_reach_inv gr s [u] st ex ->
  match dijkstra_out_edges gr u targets st with
  | Some st' =>
      dijkstra_reach_inv gr s [u] st' ex /\
      forall t, t ∈ targets \/ dj_color st !!! t <> white_color ->
                dj_color st' !!! t <> white_color
  | None => True
  end.
Proof.
  induction targets as [|v rest IH]; intros st ex Hu Ht Hinv Hcu Hnq Hreach.
  { cbn [dijkstra_out_edges]. split; [done|].
    intros t [Hin|Hc]; [by apply elem_of_nil in Hin|done]. }
  assert (v ∈ out_edges gr u) as Hv by (apply Ht; by left).
  rewrite dijkstra_out_edges_cons.
  pose proof (dijkstra_edge_reach u v st ex Hu Hv Hinv Hcu Hreach) as Hedge.
  pose proof (dijkstra_out_edges_inv gr s u [v] st Hu) as Hstep.
  destruct (dijkstra_out_edges gr u [v] st) as [st1|]; [|done].
  destruct Hedge as (Hreach1 & Hcv & Hmono).
  destruct Hstep as (Hinv1 & Hcu1 & Hnq1 & _); try done.
  { intros x ->%list_elem_of_singleton. by apply (out_edges_lt gr u). }
  specialize (IH st1 ex Hu (fun x Hx => Ht x (list_elem_of_further x v rest Hx))
                Hinv1 Hcu1 Hnq1 Hreach1).
  destruct (dijkstra_out_edges gr u rest st1) as [st'|]; [|done].
  destruct IH as [Hreach' Hdone]. split; [done|].
  intros t [[->|Hin]%elem_of_cons | Hold]; apply Hdone; auto.
Qed.

(** Dijkstra's loop: the vertices it takes from the queue are joined to
    the source, and when the queue runs empty it has taken every vertex
    that is. *)
Lemma dijkstra_loop_reach fuel : forall st nv ex,
  dijkstra_inv gr s st -> dijkstra_reach_inv gr s [] st ex ->
  match dijkstra_loop fuel gr goal st nv ex with
  | Exhausted sd => forall v, v < n -> connected gr s v -> v ∈ examined sd
  | Found sd => connected gr s goal
  | NegativeEdge | Running => True
  end.
Proof.
  induction fuel as [|fuel IH]; intros st nv ex Hinv Hreach; cbn [dijkstra_loop]; [done|].
  pose proof Hreach as (Hgray & Hblack & Hclosed & Hsrc & Hconn).
  destruct Hinv as (Hok & Hlc & Hnd & Hq).
  destruct (dijkstra_pop st) as [[u q']|] eqn:Hpop.
  2:{ apply pop_min_None in Hpop. cbn.
      assert (forall v, v < n -> dj_color st !!! v <> white_color -> v ∈ ex) as Hall.
      { intros v Hv Hc. destruct (dj_color st !!! v) eqn:E; [done| |by apply Hblack].
        destruct (Hgray v Hv E) as [Hin|Hin]; [|by apply elem_of_nil in Hin].
        rewrite Hpop in Hin. by apply elem_of_nil in Hin. }
      assert (forall rp y, walk gr s y rp -> along_edges gr rp ->
                dj_color st !!! y = black_color) as Hwalk.
      { induction rp as [|y' rest IHrp]; intros y (Hhd & Hlast & Hin) Hal; [done|].
        injection Hhd as ->.
        assert (forall x, x < n -> dj_color st !!! x <> white_color ->
                  dj_color st !!! x = black_color) as Hnw.
        { intros x Hx Hc. destruct (dj_color st !!! x) eqn:E; [done| |done].
          destruct (Hgray x Hx E) as [Hi|Hi]; [|by apply elem_of_nil in Hi].
          rewrite Hpop in Hi. by apply elem_of_nil in Hi. }
        destruct rest as [|u rest].
        { injection Hlast as ->. apply Hnw; [|done]. apply Hin. by left. }
        assert (dj_color st !!! u = black_color) as Hub.
        { apply IHrp.
          - split_and!; [done|done|]. intros x Hx. apply Hin. by right.
          - intros k a b Ha Hb. by apply (Hal (S k)). }
        assert (y < n) as Hy by (apply Hin; by left).
        assert (u < n) as Hun by (apply Hin; right; by left).
        apply Hnw; [done|]. apply (Hclosed u y); try done.
        pose proof (Hal 0 y u eq_refl eq_refl) as He.
        unfold edge_weight in *. by rewrite edge_key_sym. }
      intros v Hv (rp & Hw & Hal). apply Hblack; [done|]. by eapply Hwalk. }
  apply pop_min_perm in Hpop.
  assert (u ∈ dj_queue st) as Huq by (rewrite Hpop; by left).
  destruct (Hq u Huq) as [Hu Hcu].
  rewrite Hpop in Hnd. apply NoDup_cons in Hnd as [Hnq Hnd'].
  unfold examine_vertex. destruct (decide (u = goal)) as [->|Hne].
  { cbn. apply Hconn; [done|]. by rewrite Hcu. }
  set (st0 := mkDijkstraState (dj_pred st) (dj_dist st) (dj_color st) q').
  assert (dijkstra_inv gr s st0) as Hinv0.
  { unfold dijkstra_inv, st0. cbn [dj_pred dj_dist dj_color dj_queue].
    split_and!; try done. intros v Hv. apply Hq. rewrite Hpop. by right. }
  assert (dijkstra_reach_inv gr s [u] st0 (u :: ex)) as Hreach0.
  { unfold dijkstra_reach_inv, st0. cbn [dj_pred dj_dist dj_color dj_queue].
    split_and!; try done.
    - intros v Hv Hc. destruct (Hgray v Hv Hc) as [Hin|Hin]; [|by apply elem_of_nil in Hin].
      rewrite Hpop in Hin. apply elem_of_cons in Hin as [->|Hin]; [right|left]; [|done].
      by apply list_elem_of_singleton.
    - intros v Hv Hc. right. auto. }
  pose proof (dijkstra_out_edges_inv gr s u (out_edges gr u) st0 Hu
                (out_edges_lt gr u) Hinv0 Hcu Hnq) as Hedges.
  pose proof (dijkstra_out_edges_reach u (out_edges gr u) st0 (u :: ex) Hu
                (fun v Hv => Hv) Hinv0 Hcu Hnq Hreach0) as Hreaches.
  fold st0.
  destruct (dijkstra_out_edges gr u (out_edges gr u) st0) as [st'|]; [|done].
  destruct Hedges as ((Hok' & Hlc' & Hnd'' & Hq') & Hcu' & Hnq' & _).
  destruct Hreaches as ((Hgray' & Hblack' & Hclosed' & Hsrc' & Hconn') & Hdone).
  assert (forall v, <[u := black_color]> (dj_color st') !!! v =
            if decide (v = u) then black_color else dj_color st' !!! v) as Hc.
  { intros v. destruct (decide (v = u)) as [->|Hvu].
    - apply list_lookup_total_insert_eq. lia.
    - by apply list_lookup_total_insert_ne. }
  apply IH.
  - unfold dijkstra_inv. cbn [dj_pred dj_dist dj_color dj_queue].
    split_and!; [done|by rewrite length_insert|done|].
    intros v Hv. destruct (Hq' v Hv) as [Hvn Hvg]. split; [done|].
    rewrite Hc. case_decide; [by subst v|done].
  - unfold dijkstra_reach_inv. cbn [dj_pred dj_dist dj_color dj_queue]. split_and!.
    + intros v Hv. rewrite Hc. case_decide; [done|]. intros Hg.
      destruct (Hgray' v Hv Hg) as [Hin|Hin%list_elem_of_singleton]; [by left|done].
    + intros v Hv. rewrite Hc. case_decide; [subst v; by left|]. auto.
    + intros v t Hv Ht. rewrite !Hc. case_decide as Hvu.
      * subst v. intros _ He. case_decide; [done|]. apply Hdone. left.
        apply elem_of_out_edges. done.
      * intros Hb He. case_decide; [done|]. by apply (Hclosed' v t).
    + rewrite Hc. case_decide; [done|]. done.
    + intros v Hv. rewrite Hc. case_decide as Hvu; [subst v|by auto].
      intros _. apply Hconn'; [done|]. by rewrite Hcu'.
Qed.

End DijkstraReach.

Lemma closed_plus_finite (a w : double) :
  less a DblMax = true -> less w DblMax = true ->
  less (closed_plus a w) DblMax = true.
Proof. by destruct a, w. Qed.

Lemma closed_plus_finite_inv (a w : double) :
  less (closed_plus a w) DblMax = true ->
  less a DblMax = true /\ less w DblMax = true.
Proof. by destruct a, w. Qed.

Lemma finite_not_less (a b : double) :
  less a b = false -> less a DblMax = true -> less b DblMax = true.
Proof. by destruct a, b. Qed.

(** What [relax] does, by the two comparisons it makes. *)
Lemma relax_cases n s p d u v w :
  maps_ok n s p d -> u < n -> v < n ->
  exists dec p' d', relax u v w p d = (dec, p', d') /\
    ((dec = false /\ d' = d /\
      less (closed_plus (d !!! u) w) (d !!! v) = false /\
      less (closed_plus (d !!! v) w) (d !!! u) = false) \/
     (dec = true /\ d' = <[v := closed_plus (d !!! u) w]> d /\
      less (closed_plus (d !!! u) w) (d !!! v) = true) \/
     (dec = true /\ d' = <[u := closed_plus (d !!! v) w]> d /\
      less (closed_plus (d !!! u) w) (d !!! v) = false /\
      less (closed_plus (d !!! v) w) (d !!! u) = true)).
Proof.
  intros Hok Hu Hv. unfold relax.
  pose proof (mo_len_d _ _ _ _ Hok) as Hld.
  destruct (less (closed_plus (d !!! u) w) (d !!! v)) eqn:Hlt.
  - rewrite list_lookup_total_insert_eq by lia. rewrite Hlt.
    eexists _, _, _. split; [done|]. right. left. done.
  - destruct (less (closed_plus (d !!! v) w) (d !!! u)) eqn:Hlt2.
    + rewrite list_lookup_total_insert_eq by lia. rewrite Hlt2.
      eexists _, _, _. split; [done|]. right. right. done.
    + eexists _, _, _. split; [done|]. left. done.
Qed.

Section AStarReach.
Context {State : Type}.
Variable gr0 : GraphT State.
Variable s goal : nat.
Variable h : Heuristic State.
Hypothesis h_frame : heuristic_frame h.

Local Abbreviation n := (num_vertices gr0).

Lemma astar_init_reach : s < n -> astar_reach_inv gr0 [] (astar_init h gr0 s) [].
Proof.
  intros Hs. unfold astar_reach_inv, astar_init. destruct (h gr0 s) as [h_s gr'].
  cbn [as_pred as_dist as_graph as_queue]. split.
  - intros v Hv Hfin. left. exists h_s.
    destruct (decide (v = s)) as [->|Hne]; [by apply list_elem_of_singleton|].
    rewrite list_lookup_total_insert_ne in Hfin by done.
    by rewrite lookup_total_replicate_2 in Hfin.
  - intros v t Hin. by apply elem_of_nil in Hin.
Qed.

(** The examination of the edge from [u] to [w]. *)
Lemma astar_edge_reach u w ex (st : AStarState State) :
  u < n -> w ∈ out_edges gr0 u -> astar_inv gr0 s (fun _ _ => True) st ex ->
  less (as_dist st !!! u) DblMax = true -> u ∈ ex ->
  astar_reach_inv gr0 [u] st ex ->
  match astar_out_edges h u [w] st with
  | Some st' =>
      astar_reach_inv gr0 [u] st' ex /\
      (forall t, t < n -> less (as_dist st !!! t) DblMax = true ->
                 less (as_dist st' !!! t) DblMax = true) /\
      (less (wt gr0 u w) DblMax = true -> less (as_dist st' !!! w) DblMax = true)
  | None => True
  end.
Proof.
  intros Hu [Hw He]%elem_of_out_edges (Hok & _ & Hfl & _) Hfu Huex [HE HC].
  cbn [astar_out_edges].
  rewrite (flags_only_edge_weight gr0 (as_graph st) u w Hfl). fold (wt gr0 u w).
  destruct (less (wt gr0 u w) zero) eqn:Hneg; [done|].
  pose proof (mo_len_d _ _ _ _ Hok) as Hld.
  pose proof (mo_not_posinf _ _ _ _ Hok) as Hnp.
  destruct (relax_cases n s (as_pred st) (as_dist st) u w (wt gr0 u w) Hok Hu Hw)
    as (dec & p' & d' & Hrel &
        [(-> & -> & Hno1 & Hno2)|[(-> & -> & Hlt)|(-> & -> & Hno & Hlt)]]);
    rewrite Hrel.
  - cbn [as_dist]. split_and!; [done|done|].
    intros Hwt. eapply finite_not_less; [exact Hno1|]. by apply closed_plus_finite.
  - assert (less (closed_plus (as_dist st !!! u) (wt gr0 u w)) DblMax = true) as Hnew.
    { eapply less_finite; [exact Hlt|]. by apply Hnp. }
    assert (forall t, <[w := closed_plus (as_dist st !!! u) (wt gr0 u w)]> (as_dist st) !!! t
              = if decide (t = w) then closed_plus (as_dist st !!! u) (wt gr0 u w)
                else as_dist st !!! t) as Hd.
    { intros t. destruct (decide (t = w)) as [->|Hne].
      - apply list_lookup_total_insert_eq. lia.
      - by apply list_lookup_total_insert_ne. }
    destruct (h (as_graph st) w) as [h_w gr'].
    unfold astar_reach_inv. cbn [as_pred as_dist as_graph as_queue]. split_and!.
    + intros v Hv. rewrite Hd. case_decide as Hvw.
      * intros _. left. subst v. eexists. apply elem_of_app. right.
        by apply list_elem_of_singleton.
      * intros Hfin. destruct (HE v Hv Hfin) as [[r Hr]|Hin]; [left|by right].
        exists r. apply elem_of_app. by left.
    + intros v t Hv Hva Ht Hwt. rewrite Hd. case_decide; [done|]. by apply (HC v t).
    + intros t Ht Hfin. rewrite Hd. by case_decide.
    + intros _. rewrite Hd. by rewrite decide_True.
  - assert (less (closed_plus (as_dist st !!! w) (wt gr0 u w)) DblMax = true) as Hnew.
    { eapply less_finite; [exact Hlt|]. by apply Hnp. }
    assert (forall t, <[u := closed_plus (as_dist st !!! w) (wt gr0 u w)]> (as_dist st) !!! t
              = if decide (t = u) then closed_plus (as_dist st !!! w) (wt gr0 u w)
                else as_dist st !!! t) as Hd.
    { intros t. destruct (decide (t = u)) as [->|Hne].
      - apply list_lookup_total_insert_eq. lia.
      - by apply list_lookup_total_insert_ne. }
    destruct (h (as_graph st) w) as [h_w gr'].
    unfold astar_reach_inv. cbn [as_pred as_dist as_graph as_queue]. split_and!.
    + intros v Hv. rewrite Hd. case_decide as Hvu; [subst v; by right|].
      intros Hfin. destruct (HE v Hv Hfin) as [[r Hr]|Hin]; [left|by right].
      exists r. apply elem_of_app. by left.
    + intros v t Hv Hva Ht Hwt. rewrite Hd. case_decide; [done|]. by apply (HC v t).
    + intros t Ht Hfin. rewrite Hd. by case_decide.
    + intros _. rewrite Hd. case_decide; [done|].
      by apply closed_plus_finite_inv in Hnew as [? _].
Qed.

Lemma astar_out_edges_reach u ex targets : forall (st : AStarState State),
  u < n -> (forall v, v ∈ targets -> v ∈ out_edges gr0 u) ->
  astar_inv gr0 s (fun _ _ => True) st ex ->
  less (as_dist st !!! u) DblMax = true -> u ∈ ex ->
  astar_reach_inv gr0 [u] st ex ->
  match astar_out_edges h u targets st with
  | Some st' =>
      astar_reach_inv gr0 [u] st' ex /\
      forall t, t < n ->
        t ∈ targets \/
        (less (wt gr0 u t) DblMax = true -> less (as_dist st !!! t) DblMax = true) ->
        less (wt gr0 u t) DblMax = true -> less (as_dist st' !!! t) DblMax = true
  | None => True
  end.
Proof.
  induction targets as [|w rest IH]; intros st Hu Ht Hinv Hfin Huex Hreach.
  { cbn [astar_out_edges]. split; [done|].
    intros t _ [Hin|Hc]; [by apply elem_of_nil in Hin|done]. }
  assert (w ∈ out_edges gr0 u) as Hw by (apply Ht; by left).
  rewrite (astar_out_edges_cons h).
  pose proof (astar_edge_reach u w ex st Hu Hw Hinv Hfin Huex Hreach) as Hedge.
  pose proof (astar_out_edges_inv gr0 s h (fun _ _ => True) h_frame
                (fun _ _ => Logic.I) (fun _ _ _ _ _ => Logic.I) u ex [w] st Hu) as Hstep.
  destruct (astar_out_edges h u [w] st) as [st1|]; [|done].
  destruct Hedge as (Hreach1 & Hmono & Hdw).
  destruct Hstep as (Hinv1 & Hfin1 & _); try done.
  { intros x ->%list_elem_of_singleton. by apply (out_edges_lt gr0 u). }
  specialize (IH st1 Hu (fun x Hx => Ht x (list_elem_of_further x w rest Hx))
                Hinv1 Hfin1 Huex Hreach1).
  destruct (astar_out_edges h u rest st1) as [st'|]; [|done].
  destruct IH as [Hreach' Hdone]. split; [done|].
  intros t Htn [[->|Hin]%elem_of_cons | Hold] Hwt.
  - apply Hdone; [done| |done]. right. intros _. by apply Hdw.
  - apply Hdone; [done| |done]. by left.
  - apply Hdone; [done| |done]. right. intros _. apply Hmono; [done|]. by apply Hold.
Qed.

(** The loop of the tree search: when the queue runs empty, every vertex
    at a finite distance was taken from it, and so were its neighbours
    over edges of finite weight. *)
Lemma astar_loop_reach fuel : forall (st : AStarState State) nv ex,
  astar_inv gr0 s (fun _ _ => True) st ex -> astar_reach_inv gr0 [] st ex ->
  match astar_loop fuel h goal st nv ex with
  | Exhausted sd =>
      (forall v, v < n -> less (distance sd !!! v) DblMax = true -> v ∈ examined sd) /\
      (forall v t, v ∈ examined sd -> t < n -> less (wt gr0 v t) DblMax = true ->
         less (distance sd !!! t) DblMax = true)
  | Found _ | NegativeEdge | Running => True
  end.
Proof.
  induction fuel as [|fuel IH]; intros st nv ex Hinv Hreach; cbn [astar_loop]; [done|].
  destruct Hreach as [HE HC].
  destruct (astar_pop st) as [[[r v] q']|] eqn:Hpop.
  2:{ apply pop_min_None in Hpop. cbn. split.
      - intros v Hv Hfin. destruct (HE v Hv Hfin) as [[r Hr]|Hin]; [|done].
        rewrite Hpop in Hr. by apply elem_of_nil in Hr.
      - intros v t Hv Ht Hwt. apply (HC v t); try done. by intros ?%elem_of_nil. }
  apply pop_min_perm in Hpop.
  pose proof Hinv as (Hok & Hsp & Hfl & Hq & Hc).
  assert ((r, v) ∈ as_queue st) as Hvq by (rewrite Hpop; by left).
  destruct (Hq _ Hvq) as (Hv & Hfin & _). cbn in Hv, Hfin.
  unfold examine_vertex. destruct (decide (v = goal)) as [->|Hne]; [done|].
  set (st0 := mkAStarState (as_graph st) (as_pred st) (as_dist st) q').
  assert (astar_inv gr0 s (fun _ _ => True) st0 (v :: ex)) as Hinv0.
  { unfold astar_inv, st0. cbn [as_pred as_dist as_graph as_queue].
    split_and!; try done. intros rv Hrv. apply Hq. rewrite Hpop. by right. }
  assert (astar_reach_inv gr0 [v] st0 (v :: ex)) as Hreach0.
  { unfold astar_reach_inv, st0. cbn [as_pred as_dist as_graph as_queue]. split.
    - intros x Hx Hfx. destruct (HE x Hx Hfx) as [[r' Hr']|Hin]; [|right; by right].
      rewrite Hpop in Hr'. apply elem_of_cons in Hr' as [[= -> ->]|Hr'].
      + right. by left.
      + left. by exists r'.
    - intros x t [->|Hx]%elem_of_cons Hxa Ht Hwt.
      + exfalso. apply Hxa. by apply list_elem_of_singleton.
      + apply (HC x t); try done. by intros ?%elem_of_nil. }
  assert (forall x, x ∈ out_edges (as_graph st) v -> x ∈ out_edges gr0 v) as Hout.
  { intros x Hx. by rewrite (flags_only_out_edges gr0) in Hx. }
  pose proof (astar_out_edges_inv gr0 s h (fun _ _ => True) h_frame
                (fun _ _ => Logic.I) (fun _ _ _ _ _ => Logic.I) v (v :: ex)
                (out_edges (as_graph st) v) st0 Hv
                (fun x Hx => out_edges_lt gr0 v x (Hout x Hx)) Hinv0 Hfin) as Hedges.
  pose proof (astar_out_edges_reach v (v :: ex) (out_edges (as_graph st) v) st0 Hv
                Hout Hinv0 Hfin (list_elem_of_here v ex) Hreach0) as Hreaches.
  destruct (astar_out_edges h v (out_edges (as_graph st) v) st0) as [st'|]; [|done].
  destruct Hedges as (Hinv' & _). destruct Hreaches as [[HE' HC'] Hdone].
  apply IH; [done|]. split; [done|].
  intros x t Hx _ Ht Hwt. destruct (decide (x = v)) as [->|Hxv].
  - apply Hdone; [done| |done]. left.
    rewrite (flags_only_out_edges gr0) by done. apply elem_of_out_edges. split; [done|].
    unfold wt in Hwt. by destruct (edge_weight gr0 v t).
  - apply (HC' x t); try done. by intros ->%list_elem_of_singleton.
Qed.

(** No walk of finite weight leads from the source to a vertex the tree
    search did not take from its queue before the queue ran empty. *)
Lemma astar_search_tree_reach fuel sd :
  s < n -> astar_search_tree fuel gr0 s h goal = Exhausted sd ->
  forall v, finitely_connected gr0 s v -> v ∈ examined sd.
Proof.
  intros Hs Hsd. unfold astar_search_tree in Hsd.
  pose proof (astar_loop_reach fuel (astar_init h gr0 s) 0 []
                (astar_init_inv gr0 s h (fun _ _ => True) h_frame (fun _ _ => Logic.I) Hs)
                (astar_init_reach Hs)) as H.
  rewrite Hsd in H. destruct H as [HE HC].
  pose proof (astar_search_tree_spec gr0 s goal h (fun _ _ => True) h_frame
                (fun _ _ => Logic.I) (fun _ _ _ _ _ => Logic.I) fuel Hs) as HA.
  unfold astar_search_tree in HA. rewrite Hsd in HA. destruct HA as (_ & Hok & _).
  assert (forall rp y, walk gr0 s y rp -> less (path_weight gr0 rp) DblMax = true ->
            less (distance sd !!! y) DblMax = true) as Hwalk.
  { induction rp as [|y' rest IHrp]; intros y (Hhd & Hlast & Hin) Hfin; [done|].
    injection Hhd as ->. destruct rest as [|u rest].
    { injection Hlast as ->. by rewrite (proj2 (proj2 (mo_start _ _ _ _ Hok))). }
    rewrite path_weight_step in Hfin.
    apply closed_plus_finite_inv in Hfin as [Hfin Hwt].
    assert (less (distance sd !!! u) DblMax = true) as Hu.
    { apply IHrp; [|done]. split_and!; [done|done|].
      intros x Hx. apply Hin. by right. }
    apply (HC u y); [|by apply Hin; left|done].
    apply HE; [|done]. apply Hin. right. by left. }
  intros v (rp & Hw & Hfin). apply HE; [|by eapply Hwalk].
  destruct Hw as (Hhd & _ & Hin). apply Hin. destruct rp; [done|].
  injection Hhd as ->. by left.
Qed.

End AStarReach.

Section NoPath.
Context {State : Type}.
Implicit Types (gr : GraphT State) (h : Heuristic State).

(** What a call that returned the empty list did. *)
Lemma computeShortestPath_empty fuel gr h s goal pre ufcc gr' :
  heuristic_frame h -> s < num_vertices gr ->
  computeShortestPath fuel gr h s goal pre ufcc = Returns ([], gr') ->
  exists sd, run_search fuel gr h s goal pre = Exhausted sd /\ goal ∉ examined sd.
Proof.
  intros Hh Hs Hres.
  pose proof (run_search_spec fuel gr h s goal pre Hh Hs) as Hsp.
  pose proof (computeShortestPath_cases fuel gr h s goal pre ufcc Hh Hs) as Hc.
  destruct (run_search fuel gr h s goal pre) as [sd|sd| |]; try congruence.
  - exists sd. by destruct Hsp as (_ & _ & ?).
  - destruct Hc as (path & gr'' & Hres' & _ & Hlast & _).
    rewrite Hres in Hres'. by injection Hres' as <- <-.
Qed.

(** X16. The collision-checked tree search is complete: the list it
    returns is non-empty exactly when some walk from the start to the goal
    has a finite weight. *)
Theorem computeShortestPath_finds_finite_walks fuel gr h s goal ufcc path gr' :
  heuristic_frame h -> s < num_vertices gr ->
  computeShortestPath fuel gr h s goal false ufcc = Returns (path, gr') ->
  (path <> [] <-> finitely_connected gr s goal).
Proof.
  intros Hh Hs Hres. split.
  - intros Hne.
    destruct (computeShortestPath_found fuel gr h s goal false ufcc path gr' Hh Hs Hres Hne)
      as (sd & Hsd & Hok & Htree & Hgoal & Hlast & Hlink & Hr & _).
    pose proof (run_search_spec fuel gr h s goal false Hh Hs) as Hsp.
    pose proof (computeShortestPath_cases fuel gr h s goal false ufcc Hh Hs) as Hc.
    rewrite Hsd in Hsp, Hc. destruct Hsp as (_ & _ & _ & Hfin & _).
    destruct Hc as (path' & gr'' & Hres' & _ & _ & (hd & Hhd & _ & Hstart) & _).
    rewrite Hres in Hres'. injection Hres' as <- <-.
    rewrite (Hstart (Hfin eq_refl)) in Hhd.
    exists (reverse path). split.
    + split_and!; [by rewrite head_reverse|by rewrite last_reverse|].
      intros x Hx. apply Hr. by apply elem_of_reverse.
    + eapply finite_not_less; [|exact (Hfin eq_refl)]. by eapply linked_weight.
  - intros Hconn ->.
    destruct (computeShortestPath_empty fuel gr h s goal false ufcc gr' Hh Hs Hres)
      as (sd & Hsd & Hex).
    apply Hex. by eapply (astar_search_tree_reach gr s goal h Hh fuel sd Hs).
Qed.

(** X17. The heuristic-precomputation pass is complete: the list it
    returns is non-empty exactly when a chain of edges joins the start to
    the goal, whatever the weights. *)
Theorem computeShortestPath_precompute_finds_connected fuel gr h s goal ufcc path gr' :
  s < num_vertices gr ->
  computeShortestPath fuel gr h s goal true ufcc = Returns (path, gr') ->
  (path <> [] <-> connected gr s goal).
Proof.
  intros Hs Hres.
  set (h0 := (fun gr i => (zero, gr)) : Heuristic State).
  assert (heuristic_frame h0) as Hh0 by (intros gr1 i; apply flags_only_refl).
  change (computeShortestPath fuel gr h0 s goal true ufcc = Returns (path, gr')) in Hres.
  pose proof (dijkstra_loop_reach gr s goal fuel (dijkstra_init gr s) 0 []
                (dijkstra_init_inv gr s Hs) (dijkstra_init_reach gr s Hs)) as Hreach.
  fold (dijkstra_shortest_paths fuel gr s goal) in Hreach.
  split.
  - intros Hne.
    destruct (computeShortestPath_found fuel gr h0 s goal true ufcc path gr' Hh0 Hs Hres Hne)
      as (sd & Hsd & _).
    change (dijkstra_shortest_paths fuel gr s goal = Found sd) in Hsd.
    by rewrite Hsd in Hreach.
  - intros Hconn ->.
    destruct (computeShortestPath_empty fuel gr h0 s goal true ufcc gr' Hh0 Hs Hres)
      as (sd & Hsd & Hex).
    change (dijkstra_shortest_paths fuel gr s goal = Exhausted sd) in Hsd.
    rewrite Hsd in Hreach. apply Hex, Hreach; [|done].
    destruct Hconn as (rp & (Hhd & _ & Hin) & _). apply Hin.
    destruct rp; [done|]. injection Hhd as ->. by left.
Qed.

End NoPath.

(* ------------------------------------------------------------------ *)
(** * [PrecomputedCostHeuristic] *)

Section HeuristicAgain.
Context {State : Type}.
Variable isValid : State -> bool.

Lemma update_vertex_twice (gr : GraphT State) i :
  update_vertex (update_vertex gr i (set_blacklisted true)) i (set_blacklisted true)
  = update_vertex gr i (set_blacklisted true).
Proof.
  unfold update_vertex. cbn. f_equal.
  rewrite list_alter_alter_eq. by apply list_alter_ext.
Qed.

Lemma update_vertex_commute (gr : GraphT State) i j :
  update_vertex (update_vertex gr i (set_blacklisted true)) j (set_blacklisted true)
  = update_vertex (update_vertex gr j (set_blacklisted true)) i (set_blacklisted true).
Proof.
  unfold update_vertex. cbn. f_equal. destruct (decide (i = j)) as [->|Hne]; [done|].
  by apply list_alter_alter_ne.
Qed.

Lemma PrecomputedCostHeuristic_cases (gr : GraphT State) i :
  (PrecomputedCostHeuristic isValid gr i).2 = gr \/
  (exists vp, vertices gr !! i = Some vp /\ isValid (state vp) = false /\
     PrecomputedCostHeuristic isValid gr i
       = (infiniteCost, update_vertex gr i (set_blacklisted true))).
Proof.
  unfold PrecomputedCostHeuristic.
  destruct (vertices gr !! i) as [vp|] eqn:Hi; [|by left].
  destruct (isValid (state vp)) eqn:Hv; [by left|]. right. by exists vp.
Qed.

Lemma PrecomputedCostHeuristic_after (gr : GraphT State) i j :
  PrecomputedCostHeuristic isValid (update_vertex gr i (set_blacklisted true)) j =
  ((PrecomputedCostHeuristic isValid gr j).1,
   update_vertex (PrecomputedCostHeuristic isValid gr j).2 i (set_blacklisted true)).
Proof.
  unfold PrecomputedCostHeuristic, update_vertex. cbn [vertices].
  destruct (decide (j = i)) as [->|Hne].
  - rewrite list_lookup_alter_eq. destruct (vertices gr !! i) as [vp|]; [|done].
    cbn. by destruct (isValid (state vp)).
  - rewrite list_lookup_alter_ne by done.
    destruct (vertices gr !! j) as [vp|]; [|done].
    destruct (isValid (state vp)); [done|]. cbn. f_equal. f_equal.
    by apply list_alter_alter_ne.
Qed.

(** X18. Evaluating the heuristic again at a vertex returns the same value
    and changes nothing more, an evaluation at one vertex does not change
    the value at another, and the flags two evaluations leave do not
    depend on their order. *)
Theorem PrecomputedCostHeuristic_evaluations_settle (gr : GraphT State) (i j : nat) :
  PrecomputedCostHeuristic isValid (PrecomputedCostHeuristic isValid gr i).2 i
    = PrecomputedCostHeuristic isValid gr i /\
  (PrecomputedCostHeuristic isValid (PrecomputedCostHeuristic isValid gr i).2 j).1
    = (PrecomputedCostHeuristic isValid gr j).1 /\
  (PrecomputedCostHeuristic isValid (PrecomputedCostHeuristic isValid gr i).2 j).2
    = (PrecomputedCostHeuristic isValid (PrecomputedCostHeuristic isValid gr j).2 i).2.
Proof.
  destruct (PrecomputedCostHeuristic_cases gr i) as [Hi|(vpi & Hvpi & Hinv & Hi)];
    rewrite Hi.
  - split_and!; [done|done|].
    destruct (PrecomputedCostHeuristic_cases gr j) as [Hj|(vpj & _ & _ & Hj)];
        rewrite Hj; cbn [snd].
    + by rewrite Hi.
    + rewrite PrecomputedCostHeuristic_after. cbn [snd]. by rewrite Hi.
  - cbn [fst snd]. rewrite !PrecomputedCostHeuristic_after, Hi. cbn [fst snd].
    split_and!; [by rewrite update_vertex_twice|done|].
    destruct (PrecomputedCostHeuristic_cases gr j) as [Hj|(vpj & _ & _ & Hj)];
      rewrite Hj; cbn [snd].
    + by rewrite Hi.
    + rewrite PrecomputedCostHeuristic_after, Hi. cbn [snd].
      apply update_vertex_commute.
Qed.

End HeuristicAgain.

(* ------------------------------------------------------------------ *)
(** ** [SE3Planner]: every state passes once an octomap is there *)

Section SE3PlannerProperties.

Context {Octomap ColorTree Tree : Type}.
Variable fullMsgToMap : Octomap -> SE3Planner.Conversion ColorTree.
Variable occupied_leafs : ColorTree -> Tree.

#[local] Abbreviation SE3_handle_events :=
  (SE3Planner.handle_events fullMsgToMap occupied_leafs).

Lemma SE3_handle_events_not_ready (evs : list (SE3Planner.PlannerEvent Octomap))
    (st : SE3Planner.SE3PlannerState Octomap ColorTree Tree) :
  SE3Planner.is_octomap_ready_ st = false ->
  forallb SE3Planner.is_query evs = true ->
  SE3_handle_events evs st = Some (replicate (length evs) false, st).
Proof.
  intros Hready. induction evs as [|[msg|state] evs IH]; cbn; [done..|].
  intros Hq. unfold SE3Planner.isStateValid. rewrite Hready.
  by rewrite IH.
Qed.

Lemma SE3_handle_events_ready (evs : list (SE3Planner.PlannerEvent Octomap))
    (st : SE3Planner.SE3PlannerState Octomap ColorTree Tree) (t : Tree) :
  SE3Planner.is_octomap_ready_ st = true ->
  SE3Planner.fcl_octree_ st = Some t ->
  exists st',
    SE3_handle_events evs st
      = Some (replicate (length (filter (fun ev => SE3Planner.is_query ev = true) evs)) true, st') /\
    SE3Planner.is_octomap_ready_ st' = true /\
    SE3Planner.octomap_msg_ st' = SE3Planner.octomap_msg_ st /\
    SE3Planner.fcl_octree_ st' = Some t /\
    SE3Planner.octocost_optimization_ st' = SE3Planner.octocost_optimization_ st.
Proof.
  revert st. induction evs as [|[msg|state] evs IH]; intros st Hready Htree.
  - by exists st.
  - cbn [SE3Planner.handle_events]. unfold SE3Planner.octomapCallback.
    rewrite Hready. cbn [negb].
    rewrite filter_cons_False by (cbn; congruence). by apply IH.
  - cbn [SE3Planner.handle_events]. unfold SE3Planner.isStateValid.
    rewrite Hready, Htree. destruct (SE3Planner.rot state) as [[[x y] z] w].
    match goal with |- context [SE3_handle_events evs ?st1] =>
      destruct (IH st1) as (st' & -> & ? & ? & ? & ?); [done..|] end.
    exists st'. rewrite filter_cons_True by done. by cbn.
Qed.

Lemma SE3_handle_events_app (evs1 evs2 : list (SE3Planner.PlannerEvent Octomap))
    (st st1 : SE3Planner.SE3PlannerState Octomap ColorTree Tree) (a1 : list bool) :
  SE3_handle_events evs1 st = Some (a1, st1) ->
  SE3_handle_events (evs1 ++ evs2) st =
    match SE3_handle_events evs2 st1 with
    | Some (a2, st2) => Some (a1 ++ a2, st2)
    | None => None
    end.
Proof.
  revert st a1. induction evs1 as [|[msg|state] evs1 IH]; intros st a1 Hrun.
  - cbn in Hrun. injection Hrun as <- <-. cbn.
    by destruct (SE3_handle_events evs2 st) as [[a2 st2]|].
  - cbn in Hrun |- *.
    destruct (SE3Planner.octomapCallback _ _ msg st) as [st0|]; [|done].
    by apply IH.
  - cbn in Hrun |- *.
    destruct (SE3Planner.isStateValid state st) as [[valid st0]|]; [|done].
    destruct (SE3_handle_events evs1 st0) as [[a0 st3]|] eqn:Hrest; [|done].
    injection Hrun as <- <-. rewrite (IH _ _ Hrest).
    by destruct (SE3_handle_events evs2 st3) as [[a2 st2]|].
Qed.

(** X19. [SE3Planner] does not check collisions: the states asked about
    before the first octomap message are all reported invalid, and once a
    message that converts to a colour octree has arrived every state is
    reported valid, whatever is asked and whatever messages follow.  The
    collision tree and the cost objective are those of that message. *)
Theorem SE3Planner_accepts_every_state_after_octomap (msg : Octomap)
    (tree : ColorTree) (before after : list (SE3Planner.PlannerEvent Octomap))
    (st : SE3Planner.SE3PlannerState Octomap ColorTree Tree) :
  SE3Planner.is_octomap_ready_ st = false ->
  forallb SE3Planner.is_query before = true ->
  fullMsgToMap msg = SE3Planner.Converted tree ->
  exists st',
    SE3_handle_events (before ++ SE3Planner.OctomapReceived msg :: after) st =
      Some (replicate (length before) false ++
            replicate (length (filter (fun ev => SE3Planner.is_query ev = true) after)) true,
            st') /\
    SE3Planner.octomap_msg_ st' = msg /\
    SE3Planner.fcl_octree_ st' = Some (occupied_leafs tree) /\
    SE3Planner.octocost_optimization_ st' = Some tree.
Proof.
  intros Hready Hq Hconv.
  rewrite (SE3_handle_events_app _ _ _ _ _
             (SE3_handle_events_not_ready before st Hready Hq)).
  cbn [SE3Planner.handle_events]. unfold SE3Planner.octomapCallback.
  rewrite Hready, Hconv. cbn [negb].
  match goal with |- context [SE3_handle_events after ?st1] =>
    destruct (SE3_handle_events_ready after st1 (occupied_leafs tree))
      as (st' & -> & _ & Hmsg & Hfcl & Hcost); [done..|] end.
  by exists st'.
Qed.

End SE3PlannerProperties.

(* ------------------------------------------------------------------ *)
(** * The collision-checked search and the vertices it blacklists *)

Section AStarChecked.
Context {State : Type}.
Variable gr0 : GraphT State.
Variable s goal : nat.
Variable h : Heuristic State.
Variable C : GraphT State -> nat -> Prop.
Hypothesis h_frame : heuristic_frame h.
Hypothesis C_established : forall gr i, C (h gr i).2 i.
Hypothesis C_stable : forall gr gr' i, flags_only gr gr' -> C gr i -> C gr' i.

Local Abbreviation n := (num_vertices gr0).

Lemma astar_inv_weaken (st : AStarState State) ex :
  astar_inv gr0 s C st ex -> astar_inv gr0 s (fun _ _ => True) st ex.
Proof.
  intros (Hok & Hsp & Hfl & Hq & Hc). split_and!; try done.
  intros rv Hrv. destruct (Hq rv Hrv) as (? & ? & _). done.
Qed.

(** Whenever the tree search ends, the heuristic has been called on every
    vertex at a finite distance: each waits in the queue or was taken
    from it. *)
Lemma astar_loop_checked fuel : forall (st : AStarState State) nv ex,
  astar_inv gr0 s C st ex -> astar_reach_inv gr0 [] st ex ->
  match astar_loop fuel h goal st nv ex with
  | Exhausted sd | Found sd =>
      forall v, v < n -> less (distance sd !!! v) DblMax = true -> C (graph sd) v
  | NegativeEdge | Running => True
  end.
Proof.
  induction fuel as [|fuel IH]; intros st nv ex Hinv Hreach; cbn [astar_loop]; [done|].
  destruct Hreach as [HE HC].
  pose proof Hinv as (Hok & Hsp & Hfl & Hq & Hc).
  assert (forall x, x < n -> less (as_dist st !!! x) DblMax = true ->
            C (as_graph st) x) as Hnow.
  { intros x Hx Hfx. destruct (HE x Hx Hfx) as [[r Hr]|Hin]; [|by apply Hc].
    destruct (Hq _ Hr) as (_ & _ & Hcx). done. }
  destruct (astar_pop st) as [[[r v] q']|] eqn:Hpop; [|done].
  apply pop_min_perm in Hpop.
  assert ((r, v) ∈ as_queue st) as Hvq by (rewrite Hpop; by left).
  destruct (Hq _ Hvq) as (Hv & Hfin & Hcv). cbn in Hv, Hfin, Hcv.
  unfold examine_vertex. destruct (decide (v = goal)) as [->|Hne]; [done|].
  set (st0 := mkAStarState (as_graph st) (as_pred st) (as_dist st) q').
  assert (astar_inv gr0 s C st0 (v :: ex)) as Hinv0.
  { unfold astar_inv, st0. cbn [as_pred as_dist as_graph as_queue].
    split_and!; try done.
    - intros rv Hrv. apply Hq. rewrite Hpop. by right.
    - intros x [->|Hx]%elem_of_cons; auto. }
  assert (astar_reach_inv gr0 [v] st0 (v :: ex)) as Hreach0.
  { unfold astar_reach_inv, st0. cbn [as_pred as_dist as_graph as_queue]. split.
    - intros x Hx Hfx. destruct (HE x Hx Hfx) as [[r' Hr']|Hin]; [|right; by right].
      rewrite Hpop in Hr'. apply elem_of_cons in Hr' as [[= -> ->]|Hr'].
      + right. by left.
      + left. by exists r'.
    - intros x t [->|Hx]%elem_of_cons Hxa Ht Hwt.
      + exfalso. apply Hxa. by apply list_elem_of_singleton.
      + apply (HC x t); try done. by intros ?%elem_of_nil. }
  assert (forall x, x ∈ out_edges (as_graph st) v -> x ∈ out_edges gr0 v) as Hout.
  { intros x Hx. by rewrite (flags_only_out_edges gr0) in Hx. }
  pose proof (astar_out_edges_inv gr0 s h C h_frame C_established C_stable v (v :: ex)
                (out_edges (as_graph st) v) st0 Hv
                (fun x Hx => out_edges_lt gr0 v x (Hout x Hx)) Hinv0 Hfin) as Hedges.
  pose proof (astar_out_edges_reach gr0 s h h_frame v (v :: ex)
                (out_edges (as_graph st) v) st0 Hv
                Hout (astar_inv_weaken _ _ Hinv0) Hfin (list_elem_of_here v ex) Hreach0)
    as Hreaches.
  destruct (astar_out_edges h v (out_edges (as_graph st) v) st0) as [st'|]; [|done].
  destruct Hedges as (Hinv' & _). destruct Hreaches as [[HE' HC'] Hdone].
  apply IH; [done|]. split; [done|].
  intros x t Hx _ Ht Hwt. destruct (decide (x = v)) as [->|Hxv].
  - apply Hdone; [done| |done]. left.
    rewrite (flags_only_out_edges gr0) by done. apply elem_of_out_edges. split; [done|].
    unfold wt in Hwt. by destruct (edge_weight gr0 v t).
  - apply (HC' x t); try done. by intros ->%list_elem_of_singleton.
Qed.

Lemma astar_search_tree_checked fuel :
  s < n ->
  match astar_search_tree fuel gr0 s h goal with
  | Exhausted sd | Found sd =>
      forall v, v < n -> less (distance sd !!! v) DblMax = true -> C (graph sd) v
  | NegativeEdge | Running => True
  end.
Proof.
  intros Hs. unfold astar_search_tree. apply astar_loop_checked.
  - by apply astar_init_inv.
  - by apply astar_init_reach.
Qed.

End AStarChecked.

Section CollisionCheckedSearch.
Context {State : Type}.
Implicit Types (gr : GraphT State).

(** C2 (as amended). In the collision-checked search the heuristic, called
    on a vertex whose state fails the oracle, sets the blacklisted flag
    and returns the infinite cost.  The search goes on: when
    [computeShortestPath] returns, every vertex the search took from its
    queue or gave a finite distance carries the flag if its state is
    invalid; the list returned is non-empty exactly when a walk of finite
    weight leads from the start to the goal, through invalid vertices or
    not; and when the list is empty every vertex such a walk leads to was
    taken from the queue.  No vertex is removed and no state, id or
    control changes.  An edge weight changes only in the walk back along a
    found path, under [use_full_collision_check], where the edges of the
    blacklisted vertices of the path get the infinite cost; every other
    edge keeps its weight. *)
Theorem collision_checked_search_blacklists (isValid : State -> bool)
    fuel gr s goal ufcc path gr' :
  s < num_vertices gr ->
  computeShortestPath fuel gr (PrecomputedCostHeuristic isValid) s goal false ufcc
    = Returns (path, gr') ->
  let search := run_search fuel gr (PrecomputedCostHeuristic isValid) s goal false in
  (forall gr1 i vp,
     vertices gr1 !! i = Some vp -> isValid (state vp) = false ->
     PrecomputedCostHeuristic isValid gr1 i =
       (infiniteCost, update_vertex gr1 i (set_blacklisted true))) /\
  (forall v, v ∈ examined_by search -> checked isValid gr' v) /\
  (forall sd v, search = Found sd \/ search = Exhausted sd ->
     v < num_vertices gr -> less (distance sd !!! v) DblMax = true ->
     checked isValid gr' v) /\
  ((path <> [] <-> finitely_connected gr s goal) /\
   (path = [] -> forall v, finitely_connected gr s v -> v ∈ examined_by search)) /\
  (length (vertices gr') = length (vertices gr) /\
   forall v vp, vertices gr !! v = Some vp ->
     exists vp', vertices gr' !! v = Some vp' /\
       state vp' = state vp /\ id vp' = id vp /\ control vp' = control vp /\
       control_duration vp' = control_duration vp /\
       (blacklisted vp = true -> blacklisted vp' = true)) /\
  (forall a b,
     edge_weight gr' a b =
       match edge_weight gr a b with
       | Some w =>
           if ufcc && invalidated gr' path a b then Some infiniteCost else Some w
       | None => None
       end).
Proof.
  intros Hs Hres search.
  pose proof (PrecomputedCostHeuristic_frame isValid) as Hh.
  pose proof (astar_search_tree_spec gr s goal (PrecomputedCostHeuristic isValid)
                (checked isValid) Hh (PrecomputedCostHeuristic_checked isValid)
                (checked_stable isValid) fuel Hs) as HA.
  pose proof (astar_search_tree_checked gr s goal (PrecomputedCostHeuristic isValid)
                (checked isValid) Hh (PrecomputedCostHeuristic_checked isValid)
                (checked_stable isValid) fuel Hs) as HK.
  pose proof (computeShortestPath_cases fuel gr (PrecomputedCostHeuristic isValid)
                s goal false ufcc Hh Hs) as Hc.
  pose proof (run_search_spec fuel gr (PrecomputedCostHeuristic isValid) s goal false
                Hh Hs) as Hsp.
  split.
  { intros gr1 i vp Hi Hval. unfold PrecomputedCostHeuristic. by rewrite Hi, Hval. }
  assert ((path <> [] <-> finitely_connected gr s goal) /\
          (path = [] -> forall v, finitely_connected gr s v -> v ∈ examined_by search))
    as Hgo.
  { split; [split|].
    - intros Hne.
      destruct (computeShortestPath_found fuel gr _ s goal false ufcc path gr' Hh Hs
                  Hres Hne)
        as (sd & Hsd & Hok & Htree & Hgoal & Hlast & Hlink & Hr & _).
      rewrite Hsd in Hsp, Hc. destruct Hsp as (_ & _ & _ & Hfin & _).
      destruct Hc as (path' & gr'' & Hres' & _ & _ & (hd & Hhd & _ & Hstart) & _).
      rewrite Hres in Hres'. injection Hres' as <- <-.
      rewrite (Hstart (Hfin eq_refl)) in Hhd.
      exists (reverse path). split.
      + split_and!; [by rewrite head_reverse|by rewrite last_reverse|].
        intros x Hx. apply Hr. by apply elem_of_reverse.
      + eapply finite_not_less; [|exact (Hfin eq_refl)]. by eapply linked_weight.
    - intros Hconn ->.
      destruct (computeShortestPath_empty fuel gr _ s goal false ufcc gr' Hh Hs Hres)
        as (sd & Hsd & Hex).
      apply Hex. by eapply (astar_search_tree_reach gr s goal _ Hh fuel sd Hs).
    - intros -> v Hconn.
      destruct (computeShortestPath_empty fuel gr _ s goal false ufcc gr' Hh Hs Hres)
        as (sd & Hsd & Hex).
      subst search. rewrite Hsd. cbn.
      by eapply (astar_search_tree_reach gr s goal _ Hh fuel sd Hs). }
  subst search.
  change (run_search fuel gr (PrecomputedCostHeuristic isValid) s goal false)
    with (astar_search_tree fuel gr s (PrecomputedCostHeuristic isValid) goal) in *.
  destruct (astar_search_tree fuel gr s (PrecomputedCostHeuristic isValid) goal)
    as [sd|sd| |]; [| |congruence..].
  - rewrite Hc in Hres. injection Hres as <- <-.
    destruct HA as (Hfl & _ & _ & Hck).
    split; [done|]. split; [|split; [exact Hgo|split_and!]].
    + intros sd' v [[=]|[= <-]] Hv Hfin. by apply HK.
    + by destruct Hfl as (_ & ? & _).
    + intros v vp Hvp. destruct Hfl as (_ & _ & Hv).
      destruct (Hv v vp Hvp) as (vp' & ? & ? & ? & ? & ? & ? & ?). exists vp'. done.
    + intros a b. rewrite (flags_only_edge_weight gr (graph sd)) by done.
      unfold invalidated. cbn [existsb]. rewrite andb_false_r.
      by destruct (edge_weight gr a b).
  - destruct Hc as (path' & gr'' & Hres' & Hv & _ & _ & _ & _ & Hw).
    rewrite Hres in Hres'. injection Hres' as <- <-.
    destruct HA as (Hfl & _ & _ & _ & _ & Hck).
    assert (forall v vp, vertices (graph sd) !! v = Some vp ->
              vertices gr' !! v = Some (set_g (distance sd !!! v) vp)) as Hlook.
    { intros v vp Hvp. by rewrite Hv, store_distances_lookup, Hvp. }
    assert (forall v, checked isValid (graph sd) v -> checked isValid gr' v) as Hkeep.
    { intros v Hcv vp' Hvp' Hval.
      destruct (lookup_lt_is_Some_2 (vertices (graph sd)) v) as [vp Hvp].
      { apply lookup_lt_Some in Hvp'. rewrite Hv in Hvp'.
        fold (num_vertices (store_distances (graph sd) (distance sd))) in Hvp'.
        by rewrite store_distances_num_vertices in Hvp'. }
      rewrite (Hlook v vp Hvp) in Hvp'. injection Hvp' as <-. cbn.
      apply (Hcv vp Hvp). done. }
    split; [|split; [|split; [exact Hgo|split_and!; [| |done]]]].
    + intros v Hin. cbn in Hin. apply Hkeep. by apply Hck.
    + intros sd' v [[= <-]|[=]] Hvn Hfin. apply Hkeep. by apply HK.
    + rewrite Hv. fold (num_vertices (store_distances (graph sd) (distance sd))).
      rewrite store_distances_num_vertices. by destruct Hfl as (_ & ? & _).
    + intros v vp Hvp. destruct Hfl as (_ & _ & Hfv).
      destruct (Hfv v vp Hvp) as (vp' & Hvp' & ? & ? & ? & ? & ? & ?).
      eexists. split; [by apply Hlook|]. done.
Qed.

End CollisionCheckedSearch.

(* ------------------------------------------------------------------ *)
(** * The properties on the small instances *)

Lemma computeShortestPath_path_iff_goal_examined_witness :
  (exists sd gr',
     run_search 10 ex_triangle (PrecomputedCostHeuristic all_valid) 0 2 false = Found sd /\
     2 ∈ examined sd /\
     computeShortestPath 10 ex_triangle (PrecomputedCostHeuristic all_valid) 0 2
       false true = Returns ([0; 1; 2], gr') /\
     linked (predecessor sd) [0; 1; 2] /\
     (forall l, last l = Some 2 ->
        (exists hd, head l = Some hd /\ predecessor sd !!! hd = hd) ->
        linked (predecessor sd) l -> l = [0; 1; 2])) /\
  (exists sd,
     run_search 10 ex_apart (PrecomputedCostHeuristic all_valid) 0 1 false = Exhausted sd /\
     (1 ∉ examined sd) /\
     computeShortestPath 10 ex_apart (PrecomputedCostHeuristic all_valid) 0 1
       false true = Returns ([], graph sd)).
Proof.
  assert (heuristic_frame (PrecomputedCostHeuristic all_valid)) as H1
    by apply PrecomputedCostHeuristic_frame.
  split.
  - assert (0 < num_vertices ex_triangle) as H2 by (vm_compute; lia).
    destruct (run_search 10 ex_triangle (PrecomputedCostHeuristic all_valid) 0 2 false)
      as [sd|sd| |] eqn:E;
      [vm_compute in E; discriminate E| |vm_compute in E; discriminate E..].
    destruct (computeShortestPath_path_iff_goal_examined 10 ex_triangle
                (PrecomputedCostHeuristic all_valid) 0 2 false true H1 H2)
      as (HF & _).
    destruct (HF sd E) as (Hex & path & gr' & Hres & _ & _ & _ & Hlink & Huniq & _).
    assert (path = [0; 1; 2]) as ->.
    { vm_compute in Hres. by injection Hres as <- _. }
    exists sd, gr'. split; [reflexivity|]. split; [exact Hex|].
    split; [exact Hres|]. split; [exact Hlink | exact Huniq].
  - assert (0 < num_vertices ex_apart) as H2 by (vm_compute; lia).
    destruct (run_search 10 ex_apart (PrecomputedCostHeuristic all_valid) 0 1 false)
      as [sd|sd| |] eqn:E;
      [|vm_compute in E; discriminate E..].
    destruct (computeShortestPath_path_iff_goal_examined 10 ex_apart
                (PrecomputedCostHeuristic all_valid) 0 1 false true H1 H2)
      as (_ & HE & _).
    destruct (HE sd E) as [Hex Hres].
    exists sd. split; [reflexivity|]. split; [exact Hex | exact Hres].
Defined.

Lemma collision_checked_search_blacklists_witness :
  0 < num_vertices ex_chain /\
  blocked 2 2 = false /\
  exists gr',
    computeShortestPath 10 ex_chain (PrecomputedCostHeuristic (blocked 2)) 0 1
      false true = Returns ([0; 2; 1], gr') /\
    checked (blocked 2) gr' 2 /\
    finitely_connected ex_chain 0 1 /\
    length (vertices gr') = length (vertices ex_chain).
Proof.
  assert (0 < num_vertices ex_chain) as H1 by (vm_compute; lia).
  split; [exact H1|]. split; [reflexivity|].
  destruct (computeShortestPath 10 ex_chain (PrecomputedCostHeuristic (blocked 2))
              0 1 false true) as [[path gr']| |] eqn:E;
    [|vm_compute in E; discriminate E..].
  destruct (collision_checked_search_blacklists (blocked 2) 10 ex_chain 0 1 true
              path gr' H1 E) as (_ & Hck & _ & [Hgo _] & (Hlen & _) & _).
  assert (path = [0; 2; 1]) as ->.
  { vm_compute in E. by injection E as <- _. }
  exists gr'. split; [reflexivity|].
  split; [|split; [by apply Hgo|exact Hlen]].
  apply Hck. vm_compute. apply list_elem_of_further, list_elem_of_here.
Defined.

Lemma control_graph_edges_feasible_witness :
  ex_free 0 = true /\
  Forall (edge_feasible ex_free ex_propagate
            (control_graph_after ex_free ex_propagate ex_first 0
               [([(3, [(1, 2); (4, 5)])], (9, [(2, 3)]))]))
    (cg_edges (control_graph_after ex_free ex_propagate ex_first 0
                 [([(3, [(1, 2); (4, 5)])], (9, [(2, 3)]))])).
Proof.
  split; [reflexivity|]. apply Forall_forall.
  apply (control_graph_edges_feasible ex_free ex_propagate ex_first 0).
Defined.

Lemma ex_triangle_weights_ok : weights_ok ex_triangle.
Proof.
  intros u v w Hw. unfold edge_weight, ex_triangle, ex_graph in Hw. cbn in Hw.
  repeat (apply lookup_insert_Some in Hw as [[_ <-] | [_ Hw]]; [by split|]).
  by rewrite lookup_empty in Hw.
Defined.

Lemma computeShortestPath_precompute_stores_distances_witness :
  0 < num_vertices ex_triangle /\ weights_ok ex_triangle /\
  exists sd path gr',
    dijkstra_shortest_paths 10 ex_triangle 0 2 = Found sd /\
    examined sd = [2; 1; 0] /\
    computeShortestPath 10 ex_triangle (PrecomputedCostHeuristic all_valid) 0 2
      true false = Returns (path, gr') /\
    (forall v vp', v ∈ examined sd -> vertices gr' !! v = Some vp' ->
       shortest_distance ex_triangle 0 v (g vp')).
Proof.
  assert (0 < num_vertices ex_triangle) as H1 by (vm_compute; lia).
  split; [exact H1|]. split; [exact ex_triangle_weights_ok|].
  destruct (dijkstra_shortest_paths 10 ex_triangle 0 2) as [sd|sd| |] eqn:E;
    [vm_compute in E; discriminate E| |vm_compute in E; discriminate E..].
  destruct (computeShortestPath_precompute_stores_distances 10 ex_triangle
              (PrecomputedCostHeuristic all_valid) 0 2 false H1) as [Hfound _].
  destruct (Hfound sd E) as (path & gr' & Hres & _ & _ & Hopt).
  destruct (Hopt ex_triangle_weights_ok) as [Hshort _].
  exists sd, path, gr'. split; [reflexivity|]. split.
  { vm_compute in E. injection E as <-. reflexivity. }
  split; [exact Hres | exact Hshort].
Defined.

Lemma computeShortestPath_path_shape_witness :
  heuristic_frame (PrecomputedCostHeuristic all_valid) /\
  0 < num_vertices ex_triangle /\
  exists sd path gr',
    run_search 10 ex_triangle (PrecomputedCostHeuristic all_valid) 0 2 true = Found sd /\
    computeShortestPath 10 ex_triangle (PrecomputedCostHeuristic all_valid) 0 2
      true false = Returns (path, gr') /\
    last path = Some 2 /\ linked (predecessor sd) path.
Proof.
  assert (heuristic_frame (PrecomputedCostHeuristic all_valid)) as H1
    by apply PrecomputedCostHeuristic_frame.
  assert (0 < num_vertices ex_triangle) as H2 by (vm_compute; lia).
  split; [exact H1|]. split; [exact H2|].
  destruct (run_search 10 ex_triangle (PrecomputedCostHeuristic all_valid) 0 2 true)
    as [sd|sd| |] eqn:E; [vm_compute in E; discriminate E| |vm_compute in E; discriminate E..].
  destruct (computeShortestPath_path_shape 10 ex_triangle
              (PrecomputedCostHeuristic all_valid) 0 2 true false sd H1 H2 E)
    as (path & gr' & Hres & Hlast & _ & _ & Hlink).
  exists sd, path, gr'. split; [reflexivity|]. split; [exact Hres|].
  split; [exact Hlast | exact Hlink].
Defined.

Lemma populate_range_example : forall i, i ∈ [1; 2; 0] -> i < num_vertices ex_controlled.
Proof.
  intros i Hi. apply list_elem_of_In in Hi. cbn in Hi. unfold num_vertices. cbn.
  destruct Hi as [<-|[<-|[<-|[]]]]; lia.
Defined.


Lemma populate_allocates_missing_controls_witness :
  (forall i, i ∈ [1; 2; 0] -> i < num_vertices ex_controlled) /\
  exists gr' heap' path,
    populateOmplPathfromVertexPath (1 # 2) [1; 2; 0] ex_controlled ex_heap
      = Some (gr', heap', path) /\
    weightmap gr' = weightmap ex_controlled /\
    length (vertices gr') = length (vertices ex_controlled).
Proof.
  split; [exact populate_range_example|].
  destruct (populate_allocates_missing_controls (1 # 2) [1; 2; 0] ex_controlled ex_heap
              populate_range_example)
    as (gr' & heap' & path & Hrun & Hw & Hl & _).
  exists gr', heap', path. split; [exact Hrun|]. split; [exact Hw | exact Hl].
Defined.







Lemma ex_memory_start : allocated ex_memory (layout_at 0) (mkCompoundState 0 0 0 1).
Proof. unfold allocated. cbn. split_and!; reflexivity. Qed.

Lemma ex_memory_result : allocated ex_memory (layout_at 10) (mkCompoundState 5 5 5 5).
Proof. unfold allocated. cbn. split_and!; reflexivity. Qed.

Lemma ex_memory_apart : NoDup (addresses (layout_at 0) ++ addresses (layout_at 10)).
Proof. apply (bool_decide_unpack _). by vm_compute. Qed.

Lemma propagate_writes_over_result_pointers_witness :
  exists mem',
    propagate 0 ex_control 2 10 ex_memory = Some mem' /\
    read_state mem' 0 =
      Some (mkCompoundState 0 0 0 (bicycle_velocity (mkCompoundState 0 0 0 1) ex_control 2)) /\
    mem' !! 13 =
      Some [Dbl (bicycle_x (mkCompoundState 0 0 0 1) 2);
            Dbl (bicycle_y (mkCompoundState 0 0 0 1) 2)] /\
    mem' !! 17 = Some [Dbl (bicycle_yaw (mkCompoundState 0 0 0 1) ex_control 2)] /\
    read_state mem' 10 = None.
Proof.
  destruct (propagate_writes_over_result_pointers ex_memory (layout_at 0) (layout_at 10)
              _ _ ex_control 2 ex_memory_start ex_memory_result ex_memory_apart)
    as (mem' & Hrun & Hstart & _ & [Hxy Hyaw] & (_ & _ & _ & _ & Hread) & _).
  exists mem'. split_and!; [exact Hrun|exact Hstart|exact Hxy|exact Hyaw|exact Hread].
Defined.

(** ** Where the code departs from the specification *)

(** C2: in the graph with the edge 0 - 1 and vertex 1 blocked, the search
    from 0 for the unreachable vertex 2 takes vertex 1 from the queue and
    flags it, and the edge between 0 and 1 keeps its weight 1. *)
Lemma blacklisted_vertex_keeps_finite_edges :
  exists gr',
    computeShortestPath 10 ex_spur (PrecomputedCostHeuristic (blocked 1)) 0 2
      false true = Returns ([], gr') /\
    1 ∈ examined_by (run_search 10 ex_spur (PrecomputedCostHeuristic (blocked 1)) 0 2 false) /\
    blocked 1 1 = false /\
    is_blacklisted gr' 1 = true /\
    edge_weight gr' 1 0 = Some (Fin 1) /\
    Fin 1 <> infiniteCost.
Proof.
  destruct (computeShortestPath 10 ex_spur (PrecomputedCostHeuristic (blocked 1))
              0 2 false true) as [[path gr']| |] eqn:E;
    [|vm_compute in E; discriminate E..].
  vm_compute in E. injection E as <- <-.
  eexists. split; [reflexivity|].
  split; [vm_compute; apply list_elem_of_here|].
  split_and!; try reflexivity. discriminate.
Qed.

(** C5: with no edge between source 0 and goal 1 the pass writes no [g]
    at all, the source keeps 1000 though it is at distance 0 from itself;
    in the triangle the pass stops when goal 1 is taken from the queue and
    vertex 2 gets 5, the weight of the long side, though the path over 1
    has weight 2. *)
Lemma precompute_g_is_not_the_shortest_distance :
  (exists gr',
     computeShortestPath 10 ex_apart (PrecomputedCostHeuristic all_valid) 0 1
       true false = Returns ([], gr') /\
     g <$> vertices gr' !! 0 = Some (Fin 1000) /\
     path_weight ex_apart [0] = Fin 0 /\
     ~ shortest_distance ex_apart 0 0 (Fin 1000)) /\
  (exists gr',
     computeShortestPath 10 ex_triangle (PrecomputedCostHeuristic all_valid) 0 1
       true false = Returns ([0; 1], gr') /\
     g <$> vertices gr' !! 2 = Some (Fin 5) /\
     path_weight ex_triangle [2; 1; 0] = Fin (0 + 1 + 1) /\
     ~ shortest_distance ex_triangle 0 2 (Fin 5)).
Proof.
  split.
  - destruct (computeShortestPath 10 ex_apart (PrecomputedCostHeuristic all_valid)
                0 1 true false) as [[path gr']| |] eqn:E;
      [|vm_compute in E; discriminate E..].
    vm_compute in E. injection E as <- <-.
    eexists. split; [reflexivity|]. split_and!; [reflexivity..|].
    intros [Hlow _].
    assert (walk ex_apart 0 0 [0]) as Hw.
    { split_and!; [reflexivity..|].
      intros x ->%list_elem_of_singleton. vm_compute. lia. }
    specialize (Hlow _ Hw). vm_compute in Hlow. discriminate Hlow.
  - destruct (computeShortestPath 10 ex_triangle (PrecomputedCostHeuristic all_valid)
                0 1 true false) as [[path gr']| |] eqn:E;
      [|vm_compute in E; discriminate E..].
    vm_compute in E. injection E as <- <-.
    eexists. split; [reflexivity|]. split_and!; [reflexivity..|].
    intros [Hlow _].
    assert (walk ex_triangle 0 2 [2; 1; 0]) as Hw.
    { split_and!; [reflexivity..|].
      intros x Hx. apply list_elem_of_In in Hx. cbn in Hx.
      destruct Hx as [<-|[<-|[<-|[]]]]; vm_compute; lia. }
    specialize (Hlow _ Hw). vm_compute in Hlow. discriminate Hlow.
Qed.

(** C6. With an edge of infinite cost between source 0 and goal 1 the
    Dijkstra pass takes the goal from the queue though no edge was
    relaxed: the goal is its own predecessor, at the initial distance, and
    the list returned is the goal alone, which does not start at the
    source.  The tree search returns the empty list on the same graph. *)
Lemma path_need_not_start_at_the_source :
  (exists sd gr',
     run_search 10 ex_cut (PrecomputedCostHeuristic all_valid) 0 1 true = Found sd /\
     predecessor sd !!! 1 = 1 /\ distance sd !!! 1 = DblMax /\
     computeShortestPath 10 ex_cut (PrecomputedCostHeuristic all_valid) 0 1
       true false = Returns ([1], gr') /\
     head [1] <> Some 0) /\
  (exists gr',
     computeShortestPath 10 ex_cut (PrecomputedCostHeuristic all_valid) 0 1
       false false = Returns ([], gr')).
Proof.
  split.
  - destruct (run_search 10 ex_cut (PrecomputedCostHeuristic all_valid) 0 1 true)
      as [sd|sd| |] eqn:Es;
      [vm_compute in Es; discriminate Es| |vm_compute in Es; discriminate Es..].
    destruct (computeShortestPath 10 ex_cut (PrecomputedCostHeuristic all_valid)
                0 1 true false) as [[path gr']| |] eqn:E;
      [|vm_compute in E; discriminate E..].
    vm_compute in E. injection E as <- <-.
    vm_compute in Es. injection Es as <-.
    eexists _, _. split_and!; [reflexivity..|discriminate].
  - destruct (computeShortestPath 10 ex_cut (PrecomputedCostHeuristic all_valid)
                0 1 false false) as [[path gr']| |] eqn:E;
      [|vm_compute in E; discriminate E..].
    vm_compute in E. injection E as <- <-.
    eexists. reflexivity.
Qed.


(* ------------------------------------------------------------------ *)
(** * The further properties on the small instances *)

Lemma computeShortestPath_returns_simple_path_witness :
  heuristic_frame (PrecomputedCostHeuristic all_valid) /\
  0 < num_vertices ex_triangle /\
  exists path gr',
    computeShortestPath 10 ex_triangle (PrecomputedCostHeuristic all_valid) 0 2
      false false = Returns (path, gr') /\
    NoDup path /\ along_edges ex_triangle path.
Proof.
  assert (heuristic_frame (PrecomputedCostHeuristic all_valid)) as H1
    by apply PrecomputedCostHeuristic_frame.
  assert (0 < num_vertices ex_triangle) as H2 by (vm_compute; lia).
  split; [exact H1|]. split; [exact H2|].
  destruct (computeShortestPath 10 ex_triangle (PrecomputedCostHeuristic all_valid)
              0 2 false false) as [[path gr']| |] eqn:E;
    [|vm_compute in E; discriminate E..].
  exists path, gr'. split; [reflexivity|].
  destruct (computeShortestPath_returns_simple_path 10 ex_triangle
              (PrecomputedCostHeuristic all_valid) 0 2 false false path gr' H1 H2 E)
    as (Hnd & _ & Hal).
  split; [exact Hnd | exact Hal].
Defined.

Lemma computeShortestPath_goal_g_bounds_path_witness :
  heuristic_frame (PrecomputedCostHeuristic all_valid) /\
  0 < num_vertices ex_triangle /\
  exists path gr' vp',
    computeShortestPath 10 ex_triangle (PrecomputedCostHeuristic all_valid) 0 2
      false false = Returns (path, gr') /\
    path <> [] /\ vertices gr' !! 2 = Some vp' /\
    less (g vp') (path_weight ex_triangle (reverse path)) = false.
Proof.
  assert (heuristic_frame (PrecomputedCostHeuristic all_valid)) as H1
    by apply PrecomputedCostHeuristic_frame.
  assert (0 < num_vertices ex_triangle) as H2 by (vm_compute; lia).
  split; [exact H1|]. split; [exact H2|].
  destruct (computeShortestPath 10 ex_triangle (PrecomputedCostHeuristic all_valid)
              0 2 false false) as [[path gr']| |] eqn:E;
    [|vm_compute in E; discriminate E..].
  assert (path <> []) as Hne.
  { vm_compute in E. injection E as <- _. discriminate. }
  destruct (computeShortestPath_goal_g_bounds_path 10 ex_triangle
              (PrecomputedCostHeuristic all_valid) 0 2 false false path gr' H1 H2 E Hne)
    as (vp' & Hvp' & Hle).
  exists path, gr', vp'. split; [reflexivity|]. split; [exact Hne|].
  split; [exact Hvp' | exact Hle].
Defined.

Lemma computeShortestPath_precompute_path_is_shortest_witness :
  weights_ok ex_triangle /\ 0 < num_vertices ex_triangle /\
  exists path gr',
    computeShortestPath 10 ex_triangle (PrecomputedCostHeuristic all_valid) 0 2
      true false = Returns (path, gr') /\
    head path = Some 0 /\
    shortest_distance ex_triangle 0 2 (path_weight ex_triangle (reverse path)).
Proof.
  assert (0 < num_vertices ex_triangle) as H2 by (vm_compute; lia).
  split; [exact ex_triangle_weights_ok|]. split; [exact H2|].
  destruct (computeShortestPath 10 ex_triangle (PrecomputedCostHeuristic all_valid)
              0 2 true false) as [[path gr']| |] eqn:E;
    [|vm_compute in E; discriminate E..].
  assert (head path = Some 0) as Hhd.
  { vm_compute in E. injection E as <- _. reflexivity. }
  destruct (computeShortestPath_precompute_path_is_shortest 10 ex_triangle
              (PrecomputedCostHeuristic all_valid) 0 2 false path gr'
              ex_triangle_weights_ok H2 E Hhd) as [_ Hshort].
  exists path, gr'. split; [reflexivity|]. split; [exact Hhd | exact Hshort].
Defined.

Lemma computeShortestPath_start_is_goal_witness :
  heuristic_frame (PrecomputedCostHeuristic all_valid) /\
  1 < num_vertices ex_triangle /\
  exists gr',
    computeShortestPath 1 ex_triangle (PrecomputedCostHeuristic all_valid) 1 1
      false true = Returns ([1], gr').
Proof.
  assert (heuristic_frame (PrecomputedCostHeuristic all_valid)) as H1
    by apply PrecomputedCostHeuristic_frame.
  assert (1 < num_vertices ex_triangle) as H2 by (vm_compute; lia).
  split; [exact H1|]. split; [exact H2|].
  destruct (computeShortestPath_start_is_goal 0 ex_triangle
              (PrecomputedCostHeuristic all_valid) 1 false true H1 H2) as (gr' & Hres & _).
  exists gr'. exact Hres.
Defined.

Lemma populate_twice_allocates_once_witness :
  exists gr' heap' path,
    populateOmplPathfromVertexPath (1 # 2) [1; 2; 1] ex_controlled ex_heap
      = Some (gr', heap', path) /\
    populateOmplPathfromVertexPath (1 # 2) [1; 2; 1] gr' heap'
      = Some (gr', heap', path).
Proof.
  destruct (populateOmplPathfromVertexPath (1 # 2) [1; 2; 1] ex_controlled ex_heap)
    as [[[gr' heap'] path]|] eqn:E; [|vm_compute in E; discriminate E].
  exists gr', heap', path. split; [reflexivity|].
  exact (populate_twice_allocates_once (1 # 2) [1; 2; 1] ex_controlled gr'
           ex_heap heap' path E).
Defined.

Lemma populate_allocations_counted_witness :
  exists gr' heap' path,
    populateOmplPathfromVertexPath (1 # 2) [1; 2; 1] ex_controlled ex_heap
      = Some (gr', heap', path) /\
    length heap' = length ex_heap + size (null_controls ex_controlled [1; 2; 1]).
Proof.
  destruct (populateOmplPathfromVertexPath (1 # 2) [1; 2; 1] ex_controlled ex_heap)
    as [[[gr' heap'] path]|] eqn:E; [|vm_compute in E; discriminate E].
  exists gr', heap', path. split; [reflexivity|].
  exact (proj1 (populate_allocations_counted (1 # 2) [1; 2; 1] ex_controlled gr'
                  ex_heap heap' path E)).
Defined.

Lemma propagate_result_is_no_start_witness :
  exists mem',
    propagate 0 ex_control 2 10 ex_memory = Some mem' /\
    propagate 10 ex_control 2 0 mem' = None.
Proof.
  pose proof (propagate_apart ex_memory (layout_at 0) (layout_at 10) _ _ ex_control 2
                ex_memory_start ex_memory_result ex_memory_apart) as E.
  eexists. split; [exact E|].
  exact (propagate_result_is_no_start ex_memory _ (layout_at 0) (layout_at 10)
           _ _ ex_control 2 ex_memory_start ex_memory_result ex_memory_apart E
           ex_control 2 0).
Defined.

Lemma ex_memory_start_alone : NoDup (addresses (layout_at 0)).
Proof. apply (bool_decide_unpack _). by vm_compute. Qed.

Lemma propagate_in_place_is_undefined_witness :
  propagate 0 ex_control 2 0 ex_memory = None.
Proof.
  exact (propagate_in_place_is_undefined ex_memory (layout_at 0) _ ex_control 2
           ex_memory_start ex_memory_start_alone).
Defined.

Lemma isStateValid_false_before_octomap_witness :
  is_octomap_ready_ (initialSE2PlannerState (Tree := nat) 0) = false /\
  forallb is_query ex_queries = true /\
  handle_events ex_readTree ex_isCollision ex_queries (initialSE2PlannerState 0)
    = ([false; false], initialSE2PlannerState 0).
Proof.
  split; [reflexivity|]. split; [reflexivity|].
  exact (isStateValid_false_before_octomap ex_readTree ex_isCollision ex_queries
           (initialSE2PlannerState 0) eq_refl eq_refl).
Defined.

Lemma first_octomap_decides_validity_witness :
  is_octomap_ready_ (initialSE2PlannerState (Tree := nat) 0) = false /\
  fcl_octree_ (initialSE2PlannerState (Tree := nat) 0) = None /\
  exists st',
    handle_events ex_readTree ex_isCollision
      (OctomapReceived 3 :: ValidityQuery (mkCompoundState 0 0 0 1)
         :: OctomapReceived 7 :: ex_queries)
      (initialSE2PlannerState 0)
    = ([true; true; true], st') /\
    octomap_msg_ st' = 3.
Proof.
  split; [reflexivity|]. split; [reflexivity|].
  destruct (first_octomap_decides_validity ex_readTree ex_isCollision 3
              (ValidityQuery (mkCompoundState 0 0 0 1) :: OctomapReceived 7 :: ex_queries)
              (initialSE2PlannerState 0) eq_refl eq_refl) as (st' & Hrun & _ & Hmsg).
  exists st'. split; [exact Hrun | exact Hmsg].
Defined.

Lemma ex_cloud_bounds :
  forall p, p ∈ ex_cloud -> (0 <= ex_value p /\ ex_value p <= 6 # 10)%Q.
Proof.
  intros p Hp. apply list_elem_of_In in Hp. cbn in Hp.
  destruct Hp as [<-|[<-|[<-|[]]]]; split; unfold Qle; cbn; lia.
Defined.

Lemma computeAverageTraversability_bounds_witness :
  (forall p, p ∈ ex_cloud -> (0 <= ex_value p /\ ex_value p <= 6 # 10)%Q) /\
  ex_cloud <> [] /\
  (0 <= computeAverageTraversability ex_value ex_cloud 0%Q)%Q /\
  (computeAverageTraversability ex_value ex_cloud 0%Q <= 6 # 10)%Q.
Proof.
  split; [exact ex_cloud_bounds|]. split; [discriminate|].
  exact (proj2 (computeAverageTraversability_bounds ex_value 0%Q (6 # 10) ex_cloud 0%Q
                  ex_cloud_bounds) ltac:(discriminate)).
Defined.

Lemma computeShortestPath_finds_finite_walks_witness :
  heuristic_frame (PrecomputedCostHeuristic all_valid) /\
  0 < num_vertices ex_cut /\
  exists gr',
    computeShortestPath 10 ex_cut (PrecomputedCostHeuristic all_valid) 0 1
      false false = Returns ([], gr') /\
    ~ finitely_connected ex_cut 0 1.
Proof.
  assert (heuristic_frame (PrecomputedCostHeuristic all_valid)) as H1
    by apply PrecomputedCostHeuristic_frame.
  assert (0 < num_vertices ex_cut) as H2 by (vm_compute; lia).
  split; [exact H1|]. split; [exact H2|].
  destruct (computeShortestPath 10 ex_cut (PrecomputedCostHeuristic all_valid)
              0 1 false false) as [[path gr']| |] eqn:E;
    [|vm_compute in E; discriminate E..].
  assert (path = []) as ->.
  { vm_compute in E. by injection E as <- _. }
  exists gr'. split; [reflexivity|].
  intros Hc.
  by apply (proj2 (computeShortestPath_finds_finite_walks 10 ex_cut
                     (PrecomputedCostHeuristic all_valid) 0 1 false [] gr' H1 H2 E) Hc).
Defined.

Lemma computeShortestPath_precompute_finds_connected_witness :
  0 < num_vertices ex_cut /\
  exists path gr',
    computeShortestPath 10 ex_cut (PrecomputedCostHeuristic all_valid) 0 1
      true false = Returns (path, gr') /\
    path <> [] /\ connected ex_cut 0 1.
Proof.
  assert (0 < num_vertices ex_cut) as H2 by (vm_compute; lia).
  split; [exact H2|].
  destruct (computeShortestPath 10 ex_cut (PrecomputedCostHeuristic all_valid)
              0 1 true false) as [[path gr']| |] eqn:E;
    [|vm_compute in E; discriminate E..].
  assert (path <> []) as Hne.
  { vm_compute in E. injection E as <- _. discriminate. }
  exists path, gr'. split; [reflexivity|]. split; [exact Hne|].
  exact (proj1 (computeShortestPath_precompute_finds_connected 10 ex_cut
                  (PrecomputedCostHeuristic all_valid) 0 1 false path gr' H2 E) Hne).
Defined.

Lemma SE3Planner_accepts_every_state_after_octomap_witness :
  exists st',
    SE3Planner.handle_events ex_fullMsgToMap ex_occupied_leafs
      ([SE3Planner.ValidityQuery ex_SE3_state] ++
       SE3Planner.OctomapReceived 3 ::
       [SE3Planner.ValidityQuery ex_SE3_state; SE3Planner.OctomapReceived 0;
        SE3Planner.ValidityQuery ex_SE3_state])
      (SE3Planner.mkSE3PlannerState false 0 None None None
         ((0, 0, 0, 1), (0, 0, 0))%R)
    = Some ([false; true; true], st') /\
    SE3Planner.octomap_msg_ st' = 3 /\
    SE3Planner.fcl_octree_ st' = Some 6 /\
    SE3Planner.octocost_optimization_ st' = Some 3.
Proof.
  exact (SE3Planner_accepts_every_state_after_octomap
           ex_fullMsgToMap ex_occupied_leafs 3 3
           [SE3Planner.ValidityQuery ex_SE3_state]
           [SE3Planner.ValidityQuery ex_SE3_state; SE3Planner.OctomapReceived 0;
            SE3Planner.ValidityQuery ex_SE3_state]
           (SE3Planner.mkSE3PlannerState false 0 None None None
              ((0, 0, 0, 1), (0, 0, 0))%R)
           eq_refl eq_refl eq_refl).
Defined.

Lemma stateCost_range_witness : stateCost ex_search 1 2 3 = 200%Q.
Proof.
  exact (proj1 (stateCost_range ex_search 1 2 3) _ eq_refl eq_refl eq_refl).
Defined.
